(** * Form Input Restore: a shallow embedding of the content script

    The development follows [src/content.js].  Every JavaScript function of
    the content script has a Rocq counterpart carrying the same name.  The
    page is a store of element nodes addressed by their position in document
    order, the extension storage is a slot holding the pages object, and the
    asynchronous functions run in a small state-and-exception monad.  The
    module [Popup] follows the part of the popup script that turns the saved
    records into text. *)

From Stdlib Require Import ZArith Lia Ascii String Bool Sorting.Sorted Permutation.
From stdpp Require Import base list strings gmap pretty sorting.

Set Default Proof Using "Type".

(** ** JavaScript values as the script uses them *)

Module Js.

(** Truthiness of a string: only the empty string is falsy. *)
Definition truthy (s : string) : bool := negb (String.eqb s "").

(** [x || d] where [x] is a string or [null]. *)
Definition or_else (x : option string) (d : string) : string :=
  match x with
  | Some s => if truthy s then s else d
  | None => d
  end.

(** [x || null] where [x] is a string or [null]. *)
Definition or_null (x : option string) : option string :=
  match x with
  | Some s => if truthy s then Some s else None
  | None => None
  end.

(** [x ?? d]. *)
Definition nullish (x : option string) (d : string) : string :=
  match x with Some s => s | None => d end.

Definition lower_ascii (c : ascii) : ascii :=
  let n := nat_of_ascii c in
  if (65 <=? n)%nat && (n <=? 90)%nat then ascii_of_nat (n + 32) else c.

(** [s.toLowerCase()] on the ASCII range. *)
Fixpoint toLowerCase (s : string) : string :=
  match s with
  | EmptyString => EmptyString
  | String c r => String (lower_ascii c) (toLowerCase r)
  end.

(** The ASCII members of the regular-expression class [\s]. *)
Definition is_space (c : ascii) : bool :=
  let n := nat_of_ascii c in
  (n =? 32)%nat || ((9 <=? n)%nat && (n <=? 13)%nat).

Fixpoint trimStart (s : string) : string :=
  match s with
  | EmptyString => EmptyString
  | String c r => if is_space c then trimStart r else s
  end.

Fixpoint trimEnd (s : string) : string :=
  match s with
  | EmptyString => EmptyString
  | String c r =>
      let r' := trimEnd r in
      if is_space c && negb (truthy r') then EmptyString else String c r'
  end.

Definition trim (s : string) : string := trimEnd (trimStart s).

(** [s.replace(/\s+/g, " ")]: [in_run] tells that the previous character
    belonged to the run of white space being replaced. *)
Fixpoint collapse_spaces (in_run : bool) (s : string) : string :=
  match s with
  | EmptyString => EmptyString
  | String c r =>
      if is_space c
      then (if in_run then collapse_spaces true r
            else String " "%char (collapse_spaces true r))
      else String c (collapse_spaces false r)
  end.

(** [s.slice(0, n)]. *)
Definition slice0 (n : nat) (s : string) : string := String.substring 0 n s.

(** [s.split(/\s+/).filter(Boolean)]: the maximal runs of characters that
    are not white space.  [cur] is the word being read, reversed. *)
Fixpoint words_go (cur : list ascii) (s : string) : list string :=
  let flush := match cur with
               | [] => []
               | _ => [string_of_list_ascii (rev cur)]
               end in
  match s with
  | EmptyString => flush
  | String c r =>
      if is_space c then flush ++ words_go [] r else words_go (c :: cur) r
  end.

Definition words (s : string) : list string := words_go [] s.

(** [parts.join(sep)]. *)
Fixpoint join (sep : string) (parts : list string) : string :=
  match parts with
  | [] => ""
  | [p] => p
  | p :: rest => p +:+ sep +:+ join sep rest
  end.

End Js.

(** ** Insertion-ordered string-keyed maps

    A JavaScript [Map] with string keys and a plain object used as a
    dictionary both keep their keys in insertion order; [set] on a key that
    is present replaces the value in place, [delete] removes the entry. *)

Module JsMap.

Abbreviation t V := (list (string * V)) (only parsing).

Section Ops.
Context {V : Type}.

Fixpoint get (k : string) (m : t V) : option V :=
  match m with
  | [] => None
  | (k', v) :: r => if String.eqb k k' then Some v else get k r
  end.

Fixpoint set (k : string) (v : V) (m : t V) : t V :=
  match m with
  | [] => [(k, v)]
  | (k', v') :: r =>
      if String.eqb k k' then (k', v) :: r else (k', v') :: set k v r
  end.

Definition delete (k : string) (m : t V) : t V :=
  filter (fun e => negb (String.eqb k (fst e))) m.

Definition keys (m : t V) : list string := map fst m.
Definition values (m : t V) : list V := map snd m.
Definition size (m : t V) : nat := length m.

(** [for (e of entries) m.set(e.key, e.value)]. *)
Definition set_all (entries : list (string * V)) (m : t V) : t V :=
  fold_left (fun acc e => set (fst e) (snd e) acc) entries m.

Definition delete_all (ks : list string) (m : t V) : t V :=
  fold_left (fun acc k => delete k acc) ks m.
End Ops.

End JsMap.

(** ** The page: a store of elements *)

Record OptionEl := mkOption {
  opt_value : string;
  opt_selected : bool
}.

(** An element reference is the position of the element in document order. *)
Abbreviation Ref := nat (only parsing).

(** One element with the state the script reads and writes.  [value] is the
    value of an [input] or a [textarea]; the value of a [select] is derived
    from its options, as the platform does.  [checked] is the checkedness of
    this element alone: the mutual exclusion the browser maintains inside a
    radio group is outside this model. *)
Record Node := mkNode {
  tagName : string;
  attrs : gmap string string;
  parentElement : option Ref;
  form : option Ref;
  innerText : string;
  disabled : bool;
  checked : bool;
  value : string;
  multiple : bool;
  options : list OptionEl
}.

Record Location := mkLocation {
  origin : string;
  pathname : string;
  search : string;
  href : string
}.

Record Document := mkDocument {
  nodes : list Node;
  body : option Ref;
  documentElement : option Ref;
  location : Location
}.

Definition getAttribute (n : Node) (a : string) : option string := attrs n !! a.

(** The reflecting properties [el.id] and [el.name]. *)
Definition prop_id (n : Node) : string := Js.nullish (getAttribute n "id") "".
Definition prop_name (n : Node) : string := Js.nullish (getAttribute n "name") "".

Definition node (d : Document) (r : Ref) : option Node := nodes d !! r.

(** [document.querySelectorAll] for a selector given as a predicate on
    elements: the matching references in document order. *)
Fixpoint select_from (i : nat) (p : Node -> bool) (l : list Node) : list Ref :=
  match l with
  | [] => []
  | n :: r => if p n then i :: select_from (S i) p r else select_from (S i) p r
  end.

Definition querySelectorAll (p : Node -> bool) (d : Document) : list Ref :=
  select_from 0 p (nodes d).

Definition querySelector (p : Node -> bool) (d : Document) : option Ref :=
  head (querySelectorAll p d).

(** [document.getElementById(id)]; no element has the empty id. *)
Definition getElementById (d : Document) (id : string) : option Ref :=
  if Js.truthy id
  then querySelector (fun n => bool_decide (getAttribute n "id" = Some id)) d
  else None.

Definition pageKey (d : Document) : string :=
  origin (location d) +:+ pathname (location d) +:+ search (location d).

(** ** Control classifier *)

Definition input_type (n : Node) : string :=
  Js.toLowerCase (Js.or_else (getAttribute n "type") "text").

Definition isUsableControl (n : Node) : bool :=
  if disabled n then false
  else if String.eqb (tagName n) "INPUT" then
    if existsb (String.eqb (input_type n))
         ["submit"; "button"; "image"; "reset"; "file"]
    then false else true
  else String.eqb (tagName n) "TEXTAREA" || String.eqb (tagName n) "SELECT".

(** ** Identity resolver *)

Inductive StableId :=
| ById (value : string)
| ByName (value : string) (tag : string)
| ByPath (value : string).

(** [parent.children] restricted to the elements with the tag of [cur]. *)
Definition same_tag_children (d : Document) (parent : Ref) (tag : string) : list Ref :=
  querySelectorAll
    (fun c => bool_decide (parentElement c = Some parent) && String.eqb (tagName c) tag) d.

(** [siblings.indexOf(cur) + 1]; [indexOf] answers -1 when [cur] is absent. *)
Fixpoint indexOf_succ (cur : Ref) (l : list Ref) : nat :=
  match l with
  | [] => 0
  | x :: r =>
      if Nat.eqb x cur then 1
      else match indexOf_succ cur r with 0 => 0 | S i => S (S i) end
  end.

(** The loop of [cssPath]; the parent chain of a document is finite, so the
    number of elements bounds the number of iterations. *)
Fixpoint cssPath_loop (fuel : nat) (d : Document) (cur : Ref) (parts : list string)
  : list string :=
  match fuel with
  | 0 => parts
  | S fuel' =>
      match node d cur with
      | None => parts
      | Some n =>
          if bool_decide (Some cur = body d) || bool_decide (Some cur = documentElement d)
          then parts
          else
            match parentElement n with
            | None => parts
            | Some parent =>
                let tag := Js.toLowerCase (tagName n) in
                let siblings := same_tag_children d parent (tagName n) in
                let idx := indexOf_succ cur siblings in
                cssPath_loop fuel' d parent
                  ((tag +:+ ":nth-of-type(" +:+ pretty idx +:+ ")") :: parts)
            end
      end
  end.

Definition cssPath (d : Document) (el : Ref) : string :=
  Js.join " > " (cssPath_loop (length (nodes d)) d el []).

Definition getStableId (d : Document) (el : Ref) (n : Node) : StableId :=
  if Js.truthy (prop_id n) then ById (prop_id n)
  else if Js.truthy (prop_name n) then ByName (prop_name n) (tagName n)
  else ByPath (cssPath d el).

(** [stableKey(stable)]; the argument is [None] for a missing identity. *)
Definition stableKey (stable : option StableId) : string :=
  match stable with
  | None => "unknown"
  | Some (ById v) => "id:" +:+ v
  | Some (ByName v tag) => "name:" +:+ tag +:+ ":" +:+ v
  | Some (ByPath v) => "path:" +:+ v
  end.

(** ** Fingerprint builder *)

Definition normalizeText (s : string) : string :=
  Js.slice0 160 (Js.collapse_spaces false (Js.toLowerCase (Js.trim s))).

(** [el.closest("label")]: the nearest inclusive ancestor that is a label. *)
Fixpoint closest_label (fuel : nat) (d : Document) (cur : Ref) : option Ref :=
  match fuel with
  | 0 => None
  | S fuel' =>
      match node d cur with
      | None => None
      | Some n =>
          if String.eqb (tagName n) "LABEL" then Some cur
          else match parentElement n with
               | None => None
               | Some p => closest_label fuel' d p
               end
      end
  end.

(** The truthy [innerText] of a referenced element, if the element exists. *)
Definition innerText_of (d : Document) (r : option Ref) : option string :=
  match r with
  | None => None
  | Some i =>
      match node d i with
      | Some n => if Js.truthy (innerText n) then Some (innerText n) else None
      | None => None
      end
  end.

(** [document.querySelector(`label[for="${CSS.escape(id)}"]`)]. *)
Definition label_for (d : Document) (id : string) : option Ref :=
  querySelector
    (fun n => String.eqb (tagName n) "LABEL"
              && bool_decide (getAttribute n "for" = Some id)) d.

Definition getLabelText (d : Document) (el : Ref) : string :=
  match node d el with
  | None => ""
  | Some n =>
      let by_for :=
        if Js.truthy (prop_id n) then innerText_of d (label_for d (prop_id n))
        else None in
      match by_for with
      | Some txt => normalizeText txt
      | None =>
          match innerText_of d (closest_label (S (length (nodes d))) d el) with
          | Some txt => normalizeText txt
          | None =>
              let labelledBy := Js.or_else (getAttribute n "aria-labelledby") "" in
              if Js.truthy labelledBy then
                let ids := Js.words labelledBy in
                let texts :=
                  omap (fun id => innerText_of d (getElementById d id)) ids in
                match texts with
                | [] => ""
                | _ => normalizeText (Js.join " " texts)
                end
              else ""
          end
      end
  end.

Record Fingerprint := mkFingerprint {
  fp_tag : string;
  fp_type : string;
  fp_name : string;
  fp_autocomplete : string;
  fp_placeholder : string;
  fp_ariaLabel : string;
  fp_ariaLabelledBy : string;
  fp_labelText : string;
  fp_testid : string;
  fp_formAction : string
}.

(** [getAttribute("data-testid") || getAttribute("data-qa") ||
    getAttribute("data-cy") || ""]. *)
Definition testid_of (n : Node) : string :=
  let a := Js.or_else (getAttribute n "data-testid") "" in
  if Js.truthy a then a
  else let b := Js.or_else (getAttribute n "data-qa") "" in
       if Js.truthy b then b
       else Js.or_else (getAttribute n "data-cy") "".

(** [(form && (form.getAttribute("action") || "")) || location.pathname]. *)
Definition formAction_of (d : Document) (n : Node) : string :=
  match form n with
  | None => pathname (location d)
  | Some f =>
      match node d f with
      | None => pathname (location d)
      | Some fn =>
          let a := Js.or_else (getAttribute fn "action") "" in
          if Js.truthy a then a else pathname (location d)
      end
  end.

Definition getFingerprint (d : Document) (el : Ref) (n : Node) : Fingerprint :=
  {| fp_tag := tagName n;
     fp_type := Js.toLowerCase (Js.or_else (getAttribute n "type") "");
     fp_name := Js.or_else (getAttribute n "name") "";
     fp_autocomplete := Js.or_else (getAttribute n "autocomplete") "";
     fp_placeholder := Js.or_else (getAttribute n "placeholder") "";
     fp_ariaLabel := Js.or_else (getAttribute n "aria-label") "";
     fp_ariaLabelledBy := Js.or_else (getAttribute n "aria-labelledby") "";
     fp_labelText := getLabelText d el;
     fp_testid := testid_of n;
     fp_formAction := formAction_of d n |}.

(** ** Value codec *)

Inductive ControlValue :=
| VCheckbox (checked : bool)
| VRadio (checked : bool) (value : string)
| VInput (value : option string)
| VTextarea (value : option string)
| VSelect (selectedIndex : option Z) (value : option string)
| VSelectMultiple (selectedIndexes : list nat) (values : list string).

(** The discriminant [data.t]. *)
Definition shape (v : ControlValue) : string :=
  match v with
  | VCheckbox _ => "checkbox"
  | VRadio _ _ => "radio"
  | VInput _ => "input"
  | VTextarea _ => "textarea"
  | VSelect _ _ => "select"
  | VSelectMultiple _ _ => "select-multiple"
  end.

(** Property setters on an element. *)
Definition set_checked (b : bool) (n : Node) : Node :=
  {| tagName := tagName n; attrs := attrs n; parentElement := parentElement n;
     form := form n; innerText := innerText n; disabled := disabled n;
     checked := b; value := value n; multiple := multiple n;
     options := options n |}.

Definition set_value (s : string) (n : Node) : Node :=
  {| tagName := tagName n; attrs := attrs n; parentElement := parentElement n;
     form := form n; innerText := innerText n; disabled := disabled n;
     checked := checked n; value := s; multiple := multiple n;
     options := options n |}.

Definition set_options (os : list OptionEl) (n : Node) : Node :=
  {| tagName := tagName n; attrs := attrs n; parentElement := parentElement n;
     form := form n; innerText := innerText n; disabled := disabled n;
     checked := checked n; value := value n; multiple := multiple n;
     options := os |}.

(** The [select] element as the platform defines it: [selectedIndex] is the
    position of the first selected option or -1, [value] is the value of that
    option or the empty string; assigning [value] clears every selectedness and
    then selects the first option carrying the given value, assigning
    [selectedIndex] clears every selectedness and then selects the option at
    that position. *)
Module Select.

Fixpoint first_selected (i : nat) (os : list OptionEl) : option (nat * OptionEl) :=
  match os with
  | [] => None
  | o :: r => if opt_selected o then Some (i, o) else first_selected (S i) r
  end.

Definition selectedIndex (os : list OptionEl) : Z :=
  match first_selected 0 os with
  | Some (i, _) => Z.of_nat i
  | None => (-1)%Z
  end.

Definition get_value (os : list OptionEl) : string :=
  match first_selected 0 os with
  | Some (_, o) => opt_value o
  | None => ""
  end.

Definition deselect (o : OptionEl) : OptionEl :=
  {| opt_value := opt_value o; opt_selected := false |}.

Fixpoint set_value (v : string) (os : list OptionEl) : list OptionEl :=
  match os with
  | [] => []
  | o :: r =>
      if String.eqb (opt_value o) v
      then {| opt_value := opt_value o; opt_selected := true |} :: map deselect r
      else deselect o :: set_value v r
  end.

Definition set_selectedIndex (i : Z) (os : list OptionEl) : list OptionEl :=
  imap (fun j o => {| opt_value := opt_value o;
                      opt_selected := bool_decide (Z.of_nat j = i) |}) os.

(** [Array.from(el.options).map((opt, i) => opt.selected ? i : -1)
      .filter(i => i !== -1)]. *)
Fixpoint selected_indexes (i : nat) (os : list OptionEl) : list nat :=
  match os with
  | [] => []
  | o :: r =>
      if opt_selected o then i :: selected_indexes (S i) r
      else selected_indexes (S i) r
  end.

(** [options.forEach((opt, i) => opt.selected = idxSet.has(i))]. *)
Definition select_set (idx : list nat) (os : list OptionEl) : list OptionEl :=
  imap (fun j o => {| opt_value := opt_value o;
                      opt_selected := bool_decide (j ∈ idx) |}) os.

End Select.

(** [el.value] read from an element. *)
Definition prop_value (n : Node) : string :=
  if String.eqb (tagName n) "SELECT" then Select.get_value (options n) else value n.

Definition readControlValue (n : Node) : option ControlValue :=
  if String.eqb (tagName n) "INPUT" then
    if String.eqb (input_type n) "checkbox" then Some (VCheckbox (checked n))
    else if String.eqb (input_type n) "radio" then Some (VRadio (checked n) (value n))
    else Some (VInput (Some (value n)))
  else if String.eqb (tagName n) "TEXTAREA" then Some (VTextarea (Some (value n)))
  else if String.eqb (tagName n) "SELECT" then
    if multiple n then
      let selected := Select.selected_indexes 0 (options n) in
      Some (VSelectMultiple selected
              (omap (fun i => opt_value <$> options n !! i) selected))
    else Some (VSelect (Some (Select.selectedIndex (options n)))
                       (Some (Select.get_value (options n))))
  else None.

(** The branches of [writeControlValue] once [data] is known not to be null;
    each [Some] is a branch that assigns and returns, [None] falls through. *)
Definition write_input (n : Node) (data : ControlValue) : option Node :=
  match data with
  | VCheckbox c =>
      if String.eqb (input_type n) "checkbox" then Some (set_checked c n) else None
  | VRadio c _ =>
      if String.eqb (input_type n) "radio" then Some (set_checked c n) else None
  | VInput v => Some (set_value (Js.nullish v "") n)
  | _ => None
  end.

Definition write_select (n : Node) (data : ControlValue) : option Node :=
  match data with
  | VSelectMultiple idx _ =>
      if multiple n then Some (set_options (Select.select_set idx (options n)) n)
      else None
  | VSelect idx v =>
      if multiple n then None
      else match v, idx with
           | Some s, _ => Some (set_options (Select.set_value s (options n)) n)
           | None, Some i => Some (set_options (Select.set_selectedIndex i (options n)) n)
           | None, None => Some n
           end
  | _ => None
  end.

Definition write_textarea (n : Node) (data : ControlValue) : option Node :=
  match data with
  | VTextarea v => Some (set_value (Js.nullish v "") n)
  | _ => None
  end.

Definition writeControlValue (n : Node) (data : option ControlValue) : Node :=
  match data with
  | None => n
  | Some data =>
      match (if String.eqb (tagName n) "INPUT" then write_input n data else None) with
      | Some n' => n'
      | None =>
          match (if String.eqb (tagName n) "TEXTAREA" then write_textarea n data
                 else None) with
          | Some n' => n'
          | None =>
              match (if String.eqb (tagName n) "SELECT" then write_select n data
                     else None) with
              | Some n' => n'
              | None => n
              end
          end
      end
  end.

(** ** Fingerprint scoring *)

Definition scoreMatch (d : Document) (fp : Fingerprint) (el : Ref) : nat :=
  match node d el with
  | None => 0
  | Some n =>
      let s := 0 in
      let s := if String.eqb (tagName n) (fp_tag fp) then s + 3 else s in
      let type := Js.toLowerCase (Js.or_else (getAttribute n "type") "") in
      let s := if String.eqb type (fp_type fp) then s + 3 else s in
      let formAction := formAction_of d n in
      let s := if Js.truthy (fp_formAction fp) && String.eqb formAction (fp_formAction fp)
               then s + 2 else s in
      let name := Js.or_else (getAttribute n "name") "" in
      let s := if Js.truthy (fp_name fp) && String.eqb name (fp_name fp)
               then s + 10 else s in
      let testid := testid_of n in
      let s := if Js.truthy (fp_testid fp) && String.eqb testid (fp_testid fp)
               then s + 12 else s in
      let placeholder := Js.or_else (getAttribute n "placeholder") "" in
      let s := if Js.truthy (fp_placeholder fp)
                  && String.eqb placeholder (fp_placeholder fp)
               then s + 5 else s in
      let autocomplete := Js.or_else (getAttribute n "autocomplete") "" in
      let s := if Js.truthy (fp_autocomplete fp)
                  && String.eqb autocomplete (fp_autocomplete fp)
               then s + 3 else s in
      let aria := Js.or_else (getAttribute n "aria-label") "" in
      let s := if Js.truthy (fp_ariaLabel fp) && String.eqb aria (fp_ariaLabel fp)
               then s + 6 else s in
      let label := getLabelText d el in
      let s := if Js.truthy (fp_labelText fp) && Js.truthy label
                  && String.eqb label (normalizeText (fp_labelText fp))
               then s + 10 else s in
      s
  end.

(** The selector [input,textarea,select]. *)
Definition is_form_tag (n : Node) : bool :=
  String.eqb (tagName n) "INPUT" || String.eqb (tagName n) "TEXTAREA"
  || String.eqb (tagName n) "SELECT".

Definition usable_at (d : Document) (r : Ref) : bool :=
  match node d r with
  | Some n => isUsableControl n
  | None => false
  end.

(** [Array.from(document.querySelectorAll("input,textarea,select"))
      .filter(isUsableControl)]. *)
Definition candidates (d : Document) : list Ref :=
  filter (fun r => Is_true (usable_at d r)) (querySelectorAll is_form_tag d).

(** The [for] loop of [findBestByFingerprint] over the remaining candidates,
    threading [best] and [bestScore]. *)
Fixpoint best_loop (d : Document) (fp : Fingerprint) (all : list Ref)
    (best : option Ref) (bestScore : nat) : option Ref * nat :=
  match all with
  | [] => (best, bestScore)
  | el :: rest =>
      let sc := scoreMatch d fp el in
      if (bestScore <? sc)%nat then best_loop d fp rest (Some el) sc
      else best_loop d fp rest best bestScore
  end.

Definition findBestByFingerprint (d : Document) (fp : option Fingerprint) : option Ref :=
  match fp with
  | None => None
  | Some fp =>
      let '(best, bestScore) := best_loop d fp (candidates d) None 0 in
      if (12 <=? bestScore)%nat then best else None
  end.

(** ** Records *)

Record FieldRecord := mkField {
  item_id : option StableId;
  item_tag : string;
  item_type : option string;
  item_value : option ControlValue;
  item_fingerprint : option Fingerprint
}.

Record PageRecord := mkPage {
  updatedAt : option Z;
  url : string;
  data : option (list FieldRecord)
}.

Abbreviation Pages := (JsMap.t PageRecord) (only parsing).

(** ** The world of the content script

    [storage] is the value kept under [STORAGE_KEY] in the extension's local
    storage, absent before the first save.  [faults] scripts the storage
    calls still to come: a call takes the head, [true] making it reject, and
    an exhausted script means that no further call fails.  [persisted] logs
    the argument of every [saveAllPages] that succeeded and [dispatched] the
    synthetic events sent to elements, both oldest first. *)
Record World := mkWorld {
  doc : Document;
  dispatched : list (Ref * string);
  storage : option Pages;
  faults : list bool;
  persisted : list Pages;
  changedMap : JsMap.t FieldRecord;
  restoring : bool;
  saveTimer : bool;
  now : Z
}.

Definition with_doc (d : Document) (w : World) : World :=
  mkWorld d (dispatched w) (storage w) (faults w) (persisted w) (changedMap w)
          (restoring w) (saveTimer w) (now w).
Definition with_dispatched (ev : list (Ref * string)) (w : World) : World :=
  mkWorld (doc w) ev (storage w) (faults w) (persisted w) (changedMap w)
          (restoring w) (saveTimer w) (now w).
Definition with_storage (s : option Pages) (w : World) : World :=
  mkWorld (doc w) (dispatched w) s (faults w) (persisted w) (changedMap w)
          (restoring w) (saveTimer w) (now w).
Definition with_faults (fs : list bool) (w : World) : World :=
  mkWorld (doc w) (dispatched w) (storage w) fs (persisted w) (changedMap w)
          (restoring w) (saveTimer w) (now w).
Definition with_persisted (ps : list Pages) (w : World) : World :=
  mkWorld (doc w) (dispatched w) (storage w) (faults w) ps (changedMap w)
          (restoring w) (saveTimer w) (now w).
Definition with_changedMap (m : JsMap.t FieldRecord) (w : World) : World :=
  mkWorld (doc w) (dispatched w) (storage w) (faults w) (persisted w) m
          (restoring w) (saveTimer w) (now w).
Definition with_restoring (b : bool) (w : World) : World :=
  mkWorld (doc w) (dispatched w) (storage w) (faults w) (persisted w) (changedMap w)
          b (saveTimer w) (now w).
Definition with_saveTimer (b : bool) (w : World) : World :=
  mkWorld (doc w) (dispatched w) (storage w) (faults w) (persisted w) (changedMap w)
          (restoring w) b (now w).

(** Computations that may throw and that change the world. *)
Inductive Outcome (A : Type) :=
| Ok (a : A)
| Throw.
Arguments Ok {A} a.
Arguments Throw {A}.

Definition M (A : Type) : Type := World -> Outcome A * World.

Definition ret {A} (a : A) : M A := fun w => (Ok a, w).

Definition bind {A B} (k : A -> M B) (m : M A) : M B :=
  fun w => match m w with
           | (Ok a, w') => k a w'
           | (Throw, w') => (Throw, w')
           end.

#[global] Instance M_ret : MRet M := @ret.
#[global] Instance M_bind : MBind M := @bind.

Definition gets {A} (f : World -> A) : M A := fun w => (Ok (f w), w).
Definition modify (f : World -> World) : M unit := fun w => (Ok tt, f w).

(** [try { m } catch { }]. *)
Definition try_ignore (m : M unit) : M unit :=
  fun w => match m w with
           | (Ok a, w') => (Ok a, w')
           | (Throw, w') => (Ok tt, w')
           end.

(** [try { m } finally { f }]. *)
Definition finally {A} (m : M A) (f : World -> World) : M A :=
  fun w => let '(r, w') := m w in (r, f w').

(** One call into [chrome.storage.local]. *)
Definition storage_call {A} (op : World -> A * World) : M A :=
  fun w => match faults w with
           | true :: fs => (Throw, with_faults fs w)
           | false :: fs => let '(a, w') := op (with_faults fs w) in (Ok a, w')
           | [] => let '(a, w') := op w in (Ok a, w')
           end.

Definition loadAllPages : M Pages :=
  storage_call (fun w => (default [] (storage w), w)).

Definition saveAllPages (pages : Pages) : M unit :=
  storage_call (fun w =>
    (tt, with_persisted (persisted w ++ [pages]) (with_storage (Some pages) w))).

(** ** Staging, flushing, eviction and restore

    The platform enters through three parameters: the storage capacity
    [chrome.storage.local.QUOTA_BYTES] ([None] when it is not a number), the
    byte count [chrome.storage.local.getBytesInUse(null)] as a function of the
    stored pages object, and [document.querySelector] on a selector given as
    text, which answers [None] both when nothing matches and when the text is
    not a selector (every caller catches that exception and continues with
    [null]). *)

Section ContentScript.

Variable QUOTA_BYTES : option Z.
Variable getBytesInUse : option Pages -> Z.
Variable querySelectorText : Document -> string -> option Ref.

Definition getBytesUsed : M Z :=
  storage_call (fun w => (getBytesInUse (storage w), w)).

Definition scheduleSave : M unit := modify (with_saveTimer true).

(** *** Eviction *)

(** [pages[k]?.updatedAt || 0]. *)
Definition age (pages : Pages) (k : string) : Z :=
  default 0%Z (JsMap.get k pages ≫= updatedAt).

(** [keys.sort((a, b) => age(a) - age(b))]; the sort is stable. *)
Fixpoint sort_insert (f : string -> Z) (k : string) (sorted : list string)
  : list string :=
  match sorted with
  | [] => [k]
  | k' :: rest =>
      if (f k <=? f k')%Z then k :: sorted else k' :: sort_insert f k rest
  end.

Fixpoint sort_by (f : string -> Z) (ks : list string) : list string :=
  match ks with
  | [] => []
  | k :: rest => sort_insert f k (sort_by f rest)
  end.

(** [Math.floor(quota * TARGET_RATIO)] with [TARGET_RATIO = 0.90]; on byte
    counts the rounded product has the floor of nine tenths. *)
Definition target_of (quota : Z) : Z := (quota * 9 / 10)%Z.

Fixpoint evict_loop (keys : list string) (pages : Pages) (used target : Z)
  : M unit :=
  match keys with
  | [] => mret tt
  | k :: rest =>
      if (used <=? target)%Z then mret tt
      else
        let pages := JsMap.delete k pages in
        saveAllPages pages;;
        used ← getBytesUsed;
        evict_loop rest pages used target
  end.

Definition cleanupIfNeeded : M unit :=
  match QUOTA_BYTES with
  | None => mret tt
  | Some quota =>
      if (quota <=? 0)%Z then mret tt
      else
        used ← getBytesUsed;
        let target := target_of quota in
        if (used <=? target)%Z then mret tt
        else
          pages ← loadAllPages;
          let keys := sort_by (age pages) (JsMap.keys pages) in
          evict_loop keys pages used target
  end.

(** *** Flush *)

(** The merge of [saveCurrentPage]: previously persisted items first, keyed
    by their stable key, then the staged entries. *)
Definition merge_items (existing : option (list FieldRecord))
    (changed : JsMap.t FieldRecord) : JsMap.t FieldRecord :=
  let merged := [] in
  let merged :=
    match existing with
    | Some items =>
        JsMap.set_all (map (fun item => (stableKey (item_id item), item)) items) merged
    | None => merged
    end in
  JsMap.set_all changed merged.

Definition saveCurrentPage : M unit :=
  fun w =>
    if (JsMap.size (changedMap w) =? 0)%nat then (Ok tt, w)
    else
      try_ignore (
        key ← gets (fun w => pageKey (doc w));
        pages ← loadAllPages;
        let existing := JsMap.get key pages ≫= data in
        changed ← gets changedMap;
        let merged := merge_items existing changed in
        stamp ← gets now;
        link ← gets (fun w => href (location (doc w)));
        let pages :=
          JsMap.set key {| updatedAt := Some stamp; url := link;
                           data := Some (JsMap.values merged) |} pages in
        saveAllPages pages;;
        modify (with_changedMap []);;
        cleanupIfNeeded) w.

(** *** Staging *)

Definition recordChange (el : Ref) (n : Node) : M unit :=
  d ← gets doc;
  let id := getStableId d el n in
  modify (fun w =>
    with_changedMap
      (JsMap.set (stableKey (Some id))
         {| item_id := Some id;
            item_tag := tagName n;
            item_type := Js.or_null (getAttribute n "type");
            item_value := readControlValue n;
            item_fingerprint := Some (getFingerprint d el n) |}
         (changedMap w)) w).

(** The [input] and [change] listeners, which are the same function. *)
Definition onEdit (isTrusted : bool) (target : Ref) : M unit :=
  fun w =>
    if restoring w then (Ok tt, w)
    else if negb isTrusted then (Ok tt, w)
    else match node (doc w) target with
         | None => (Ok tt, w)
         | Some n =>
             if negb (isUsableControl n) then (Ok tt, w)
             else (recordChange target n;; scheduleSave) w
         end.

(** *** Restore *)

(** The selector [`${tag.toLowerCase()}[name="${CSS.escape(value)}"]`] for a
    [tag] that is an element's [tagName], as every recorded identity has
    it: the elements of that tag whose [name] attribute is [value]. *)
Definition select_by_name (d : Document) (tag value : string) : list Ref :=
  querySelectorAll
    (fun n => String.eqb (Js.toLowerCase (tagName n)) (Js.toLowerCase tag)
              && bool_decide (getAttribute n "name" = Some value)) d.

Definition findElementByStableId (d : Document) (stable : option StableId)
  : option Ref :=
  match stable with
  | None => None
  | Some (ById v) => getElementById d v
  | Some (ByName v tag) => head (select_by_name d tag v)
  | Some (ByPath v) => querySelectorText d v
  end.

(** The states of the [type] attribute of an [input]. *)
Definition input_type_keywords : list string :=
  ["hidden"; "text"; "search"; "tel"; "url"; "email"; "password"; "date";
   "month"; "week"; "time"; "datetime-local"; "number"; "range"; "color";
   "checkbox"; "radio"; "file"; "submit"; "image"; "reset"; "button"].

(** The property [el.type] of an [input]: the keyword the attribute
    names, [text] when it names none. *)
Definition prop_type (n : Node) : string :=
  let t := Js.toLowerCase (Js.nullish (getAttribute n "type") "") in
  if existsb (String.eqb t) input_type_keywords then t else "text".

(** The document after element [r] took the state [n']. *)
Definition replace_node (r : Ref) (n' : Node) (d : Document) : Document :=
  mkDocument (<[r := n']> (nodes d)) (body d) (documentElement d) (location d).

Definition dispatchInputChange (el : Ref) (w : World) : World :=
  with_dispatched (dispatched w ++ [(el, "input"); (el, "change")]) w.

(** [item.value?.t === "radio"], with the stored radio value. *)
Definition stored_radio_value (item : FieldRecord) : option string :=
  match item_value item with
  | Some (VRadio _ v) => Some v
  | _ => None
  end.

Definition applyToElement (el : option Ref) (item : FieldRecord) (w : World)
  : bool * World :=
  match el with
  | None => (false, w)
  | Some r =>
      match node (doc w) r with
      | None => (false, w)
      | Some n =>
          if negb (isUsableControl n) then (false, w)
          else
            let refused :=
              if String.eqb (tagName n) "INPUT"
                 && String.eqb (Js.toLowerCase (prop_type n)) "radio"
              then match stored_radio_value item with
                   | Some v => negb (String.eqb (prop_value n) v)
                   | None => false
                   end
              else false in
            if refused then (false, w)
            else
              let n' := writeControlValue n (item_value item) in
              (true, dispatchInputChange r (with_doc (replace_node r n' (doc w)) w))
      end
  end.

(** [for (const el of all) if (applyToElement(el, item)) any = true]. *)
Fixpoint apply_each (all : list Ref) (item : FieldRecord) (any : bool) (w : World)
  : bool * World :=
  match all with
  | [] => (any, w)
  | el :: rest =>
      let '(applied, w') := applyToElement (Some el) item w in
      apply_each rest item (if applied then true else any) w'
  end.

(** One iteration of the loop of [tryRestoreItems]. *)
Definition restore_entry (k : string) (item : FieldRecord)
    (st : JsMap.t FieldRecord * bool * World) : JsMap.t FieldRecord * bool * World :=
  let '(pending, changed, w) := st in
  let stable := item_id item in
  let '(any, w1) :=
    match stable with
    | Some (ByName v tag) =>
        if Js.truthy v && Js.truthy tag then
          let all := filter (fun r => Is_true (usable_at (doc w) r))
                       (select_by_name (doc w) tag v) in
          apply_each all item false w
        else (false, w)
    | _ => (false, w)
    end in
  if any then (JsMap.delete k pending, true, w1)
  else
    let el := findElementByStableId (doc w1) stable in
    let '(direct, w2) := applyToElement el item w1 in
    if direct then (JsMap.delete k pending, true, w2)
    else
      let byFp := findBestByFingerprint (doc w2) (item_fingerprint item) in
      let '(fuzzy, w3) := applyToElement byFp item w2 in
      if fuzzy then (JsMap.delete k pending, true, w3)
      else (pending, changed, w3).

Definition tryRestoreItems (pending : JsMap.t FieldRecord) (w : World)
  : JsMap.t FieldRecord * bool * World :=
  fold_left (fun st e => restore_entry (fst e) (snd e) st) pending
            (pending, false, w).

Record RestoreResult := mkResult {
  ok : bool;
  reason : option string;
  missing : option nat
}.

Definition settled : RestoreResult := mkResult true None None.

Definition timed_out (pending : JsMap.t FieldRecord) : RestoreResult :=
  mkResult (JsMap.size pending =? 0)%nat None (Some (JsMap.size pending)).

(** The observer callback run on each batch of DOM mutations that arrives
    before the timeout; a batch is the change the page makes to the
    document. *)
Fixpoint observe_loop (batches : list (Document -> Document))
    (pending : JsMap.t FieldRecord) (w : World) : RestoreResult * World :=
  match batches with
  | [] => (timed_out pending, w)
  | batch :: rest =>
      let '(pending', _, w') := tryRestoreItems pending (with_doc (batch (doc w)) w) in
      if (JsMap.size pending' =? 0)%nat then (settled, w')
      else observe_loop rest pending' w'
  end.

Definition restoreWithRetries (items : list FieldRecord) (observe_ok : bool)
    (batches : list (Document -> Document)) (w : World) : RestoreResult * World :=
  let pending :=
    JsMap.set_all (map (fun item => (stableKey (item_id item), item)) items) [] in
  let '(pending, _, w) := tryRestoreItems pending w in
  if (JsMap.size pending =? 0)%nat then (settled, w)
  else if observe_ok then observe_loop batches pending w
  else (timed_out pending, w).

Definition no_saved_data : RestoreResult :=
  mkResult false (Some "No saved data for this page.") None.

Definition restoreCurrentPage (observe_ok : bool)
    (batches : list (Document -> Document)) : M RestoreResult :=
  key ← gets (fun w => pageKey (doc w));
  pages ← loadAllPages;
  match JsMap.get key pages ≫= data with
  | None => mret no_saved_data
  | Some items =>
      modify (with_restoring true);;
      finally
        (fun w => let '(r, w') := restoreWithRetries items observe_ok batches w in
                  (Ok r, w'))
        (with_restoring false)
  end.

(** *** Messages from the popup *)

Inductive Message :=
| FORM_SAVER_RESTORE
| FORM_SAVER_PING
| OtherMessage.

Inductive Response :=
| RestoreResponse (result : RestoreResult)
| PingResponse (page : string)
| NotOk.

(** The listener of [chrome.runtime.onMessage]; the answer is what it hands to
    [sendResponse]. *)
Definition onMessage (msg : Message) (observe_ok : bool)
    (batches : list (Document -> Document)) : M Response :=
  match msg with
  | FORM_SAVER_RESTORE =>
      result ← restoreCurrentPage observe_ok batches;
      mret (RestoreResponse result)
  | FORM_SAVER_PING =>
      page ← gets (fun w => pageKey (doc w));
      mret (PingResponse page)
  | OtherMessage => mret NotOk
  end.

End ContentScript.

(** ** The popup

    The part of [popup.js] that turns the saved records into the text of the
    popup page. *)

Module Popup.

(** [s.replaceAll(c, r)] for a pattern [c] of one character and a
    replacement [r] without a dollar sign. *)
Fixpoint replaceAll (c : ascii) (r : string) (s : string) : string :=
  match s with
  | EmptyString => EmptyString
  | String x rest =>
      if Ascii.eqb x c then r +:+ replaceAll c r rest
      else String x (replaceAll c r rest)
  end.

Definition escapeHtml (s : string) : string :=
  replaceAll "'"%char "&#039;"
    (replaceAll "034"%char "&quot;"
       (replaceAll ">"%char "&gt;"
          (replaceAll "<"%char "&lt;"
             (replaceAll "&"%char "&amp;" s)))).

(** A string holding one double quote. *)
Definition dquote : string := String "034"%char "".

(** The constant [target] of [summarizeValue]. *)
Definition summary_target (stable : option StableId) : string :=
  match stable with
  | Some (ById v) => "#" +:+ v
  | Some (ByName v tag) =>
      Js.toLowerCase (Js.or_else (Some tag) "")
        +:+ "[name=" +:+ dquote +:+ v +:+ dquote +:+ "]"
  | Some (ByPath v) => v
  | None => "(unknown)"
  end.

Definition summarizeValue (item : FieldRecord) : string :=
  let target := summary_target (item_id item) in
  let word (c : bool) := if c then "checked" else "unchecked" in
  match item_value item with
  | Some (VCheckbox c) => target +:+ "  =>  checkbox: " +:+ word c
  | Some (VRadio c v) =>
      target +:+ "  =>  radio(" +:+ escapeHtml v +:+ "): " +:+ word c
  | Some (VInput v) => target +:+ "  =>  input: " +:+ escapeHtml (Js.nullish v "")
  | Some (VTextarea v) =>
      target +:+ "  =>  textarea: " +:+ escapeHtml (Js.nullish v "")
  | Some (VSelect _ v) => target +:+ "  =>  select: " +:+ escapeHtml (Js.nullish v "")
  | Some (VSelectMultiple _ vs) =>
      target +:+ "  =>  select-multiple: [" +:+ Js.join ", " (map escapeHtml vs) +:+ "]"
  | None => target +:+ "  =>  (unknown)"
  end.

(** The text [renderSavedData] puts between the tags of the line of a
    field. *)
Definition field_line (item : FieldRecord) : string :=
  escapeHtml (summarizeValue item).

(** The constant [keys] of [renderSavedData]:
    [Object.keys(pages || {}).sort((a, b) =>
       (pages[b]?.updatedAt || 0) - (pages[a]?.updatedAt || 0))]. *)
Definition render_keys (pages : Pages) : list string :=
  sort_by (fun k => (- age pages k)%Z) (JsMap.keys pages).

End Popup.

(** ** Specification-side definitions *)

Definition weight (b : bool) (w : nat) : nat := if b then w else 0.


(** A tag without the separator that [stableKey] puts after it. *)
Fixpoint colon_free (s : string) : bool :=
  match s with
  | EmptyString => true
  | String c r => negb (Ascii.eqb c ":"%char) && colon_free r
  end.

(** When assigning a single-selection [select] its own value keeps the
    selection: the selected option is the first one that carries its value
    and no later option is selected too; with nothing selected, no option
    carries the empty value. *)
Definition selection_roundtrips (os : list OptionEl) : Prop :=
  match Select.first_selected 0 os with
  | Some (i, o) =>
      (forall j p, os !! j = Some p -> j < i -> opt_value p <> opt_value o)
      /\ (forall j p, os !! j = Some p -> i < j -> opt_selected p = false)
  | None => forall p, p ∈ os -> opt_value p <> ""
  end.

(** The order in which [cleanupIfNeeded] visits the pages, the store after
    the first [n] of them are deleted, the usage reported at that point
    ([used] before any deletion) and the world the [n] deletions leave. *)
Definition eviction_order (pages : Pages) : list string :=
  sort_by (age pages) (JsMap.keys pages).

Definition after_evicting (n : nat) (order : list string) (pages : Pages) : Pages :=
  JsMap.delete_all (take n order) pages.

Definition usage_after (bytes : option Pages -> Z) (used : Z) (n : nat)
    (order : list string) (pages : Pages) : Z :=
  match n with
  | 0 => used
  | S _ => bytes (Some (after_evicting n order pages))
  end.

Definition evicted (n : nat) (order : list string) (pages : Pages) (w : World)
  : World :=
  match n with
  | 0 => w
  | S _ =>
      with_persisted
        (persisted w ++ map (fun i => after_evicting i order pages) (seq 1 n))
        (with_storage (Some (after_evicting n order pages)) w)
  end.


(** The items persisted for the current page before a flush, the pages
    object a flush writes, and the world right after that write. *)
Definition existing_items (w : World) : option (list FieldRecord) :=
  JsMap.get (pageKey (doc w)) (default [] (storage w)) ≫= data.

Definition flushed_pages (w : World) : Pages :=
  JsMap.set (pageKey (doc w))
    {| updatedAt := Some (now w);
       url := href (location (doc w));
       data := Some (JsMap.values (merge_items (existing_items w) (changedMap w))) |}
    (default [] (storage w)).

Definition flushed_world (w : World) : World :=
  with_changedMap []
    (with_persisted (persisted w ++ [flushed_pages w])
       (with_storage (Some (flushed_pages w)) w)).

(** What storage traffic cannot do: it leaves the staged changes, the page
    and the event log alone, and the log of writes only grows. *)
Definition keeps_staged (w w' : World) : Prop :=
  changedMap w' = changedMap w /\ doc w' = doc w /\ dispatched w' = dispatched w
  /\ exists later, persisted w' = persisted w ++ later.

(** ** Sample elements and pages *)

Definition element (tag : string) (a : list (string * string))
    (parent : option Ref) : Node :=
  mkNode tag (list_to_map a) parent None "" false false "" false [].

(** A [select] whose two options carry the same value, the second selected. *)
Definition dup_select : Node :=
  mkNode "SELECT" ∅ None None "" false false "" false
         [mkOption "x" false; mkOption "x" true].

Definition plan_select : Node :=
  mkNode "SELECT" ∅ None None "" false false "" false
         [mkOption "basic" false; mkOption "pro" true].

(** An unchecked [<input type="checkbox" value="on">]. *)
Definition agree_box : Node :=
  mkNode "INPUT" {["type" := "checkbox"]} None None "" false false "on" false [].

(** A subscription form: a labelled e-mail field, a radio group, a select
    and a submit button. *)
Definition email_input : Node :=
  mkNode "INPUT" (list_to_map [("id", "email"); ("placeholder", "you@example.com")])
         (Some 2) (Some 2) "" false false "" false [].

Definition radio_basic : Node :=
  mkNode "INPUT" (list_to_map [("type", "radio"); ("name", "plan")])
         (Some 2) (Some 2) "" false false "basic" false [].

Definition radio_pro : Node :=
  mkNode "INPUT" (list_to_map [("type", "radio"); ("name", "plan")])
         (Some 2) (Some 2) "" false false "pro" false [].

Definition sample_page : Document :=
  mkDocument
    [ element "HTML" [] None;
      element "BODY" [] (Some 0);
      element "FORM" [("action", "/subscribe")] (Some 1);
      mkNode "LABEL" (list_to_map [("for", "email")]) (Some 2) None
             "  E-mail   Address " false false "" false [];
      email_input;
      radio_basic;
      radio_pro;
      mkNode "SELECT" (list_to_map [("name", "country")]) (Some 2) (Some 2) ""
             false false "" false [mkOption "de" true; mkOption "fr" false];
      mkNode "INPUT" (list_to_map [("type", "submit")]) (Some 2) (Some 2) ""
             false false "Send" false [] ]
    (Some 1) (Some 0)
    (mkLocation "https://example.com" "/signup" "?lang=en"
                "https://example.com/signup?lang=en#top").

(** The same page after the user typed an address and chose the second
    radio. *)
Definition edited_page : Document :=
  replace_node 6 (set_checked true radio_pro)
    (replace_node 4 (set_value "a@b.com" email_input) sample_page).

Definition fresh_world (d : Document) (stored : option Pages) : World :=
  mkWorld d [] stored [] [] [] false false 1700000000000%Z.

(** No selector given as text matches anything. *)
Definition no_text_selector (d : Document) (selector : string) : option Ref := None.

(** A stored radio choice. *)
Definition pro_choice : FieldRecord :=
  {| item_id := Some (ByName "plan" "INPUT");
     item_tag := "INPUT";
     item_type := Some "radio";
     item_value := Some (VRadio true "pro");
     item_fingerprint := None |}.

(** The fingerprint of the e-mail field taken on a page of another path,
    without its label: tag, subtype and placeholder match for 11. *)
Definition email_fp_11 : Fingerprint :=
  {| fp_tag := "INPUT"; fp_type := ""; fp_name := ""; fp_autocomplete := "";
     fp_placeholder := "you@example.com"; fp_ariaLabel := ""; fp_ariaLabelledBy := "";
     fp_labelText := ""; fp_testid := ""; fp_formAction := "/other" |}.

(** The same with the form action of the page: 13. *)
Definition email_fp_13 : Fingerprint :=
  {| fp_tag := "INPUT"; fp_type := ""; fp_name := ""; fp_autocomplete := "";
     fp_placeholder := "you@example.com"; fp_ariaLabel := ""; fp_ariaLabelledBy := "";
     fp_labelText := ""; fp_testid := ""; fp_formAction := "/subscribe" |}.

(** A fingerprint without any identifying attribute. *)
Definition blank_fp : Fingerprint :=
  {| fp_tag := "INPUT"; fp_type := "radio"; fp_name := ""; fp_autocomplete := "";
     fp_placeholder := ""; fp_ariaLabel := ""; fp_ariaLabelledBy := "";
     fp_labelText := ""; fp_testid := ""; fp_formAction := "/subscribe" |}.

(** A store of two pages of 475 bytes each under a capacity of 1000 bytes. *)
Definition two_pages : Pages :=
  [ ("https://example.com/new", mkPage (Some 200%Z) "https://example.com/new" (Some []));
    ("https://example.com/old", mkPage (Some 100%Z) "https://example.com/old" (Some [])) ].

Definition bytes_475_per_page (stored : option Pages) : Z :=
  (475 * Z.of_nat (length (default [] stored)))%Z.

(** A world with one staged change for the e-mail field. *)
Definition staged_world (fs : list bool) : World :=
  mkWorld edited_page [] None fs []
    [ ("id:email",
       {| item_id := Some (ById "email"); item_tag := "INPUT"; item_type := None;
          item_value := Some (VInput (Some "a@b.com"));
          item_fingerprint := None |}) ]
    false true 1700000000000%Z.

(** ** Further specification-side definitions *)

(** Two states of one element: everything but the checkedness, the value and
    the selectedness of the options is the same. *)
Definition same_shell (n n' : Node) : Prop :=
  tagName n' = tagName n /\ attrs n' = attrs n
  /\ parentElement n' = parentElement n /\ form n' = form n
  /\ innerText n' = innerText n /\ disabled n' = disabled n
  /\ multiple n' = multiple n
  /\ map opt_value (options n') = map opt_value (options n).

(** [n] is the element [m] as a reload of the page renders it again: the
    same shell, and for a radio the same value attribute. *)
Definition fresh_copy (n m : Node) : Prop :=
  same_shell m n
  /\ (tagName m = "INPUT" -> input_type m = "radio" -> value n = value m).

(** Every character of a string passes a test. *)
Fixpoint string_all (p : ascii -> bool) (s : string) : bool :=
  match s with
  | EmptyString => true
  | String c r => p c && string_all p r
  end.

(** An ASCII capital letter. *)
Definition is_upper (c : ascii) : bool :=
  let n := nat_of_ascii c in (65 <=? n)%nat && (n <=? 90)%nat.

(** A fingerprint that carries an autocomplete hint and nothing stronger. *)
Definition autocomplete_fp : Fingerprint :=
  {| fp_tag := "INPUT"; fp_type := ""; fp_name := ""; fp_autocomplete := "email";
     fp_placeholder := ""; fp_ariaLabel := ""; fp_ariaLabelledBy := "";
     fp_labelText := ""; fp_testid := ""; fp_formAction := "/subscribe" |}.

(** What a pass of the restore engine may do to the world: nothing to the
    storage side and the staging map; on the page, every element keeps its
    shell, elements that are not trackable stay as they are, no element
    appears or disappears; the event log grows by [input] and [change] events
    on trackable elements. *)
Definition restore_frame (w w' : World) : Prop :=
  storage w' = storage w /\ faults w' = faults w /\ persisted w' = persisted w
  /\ changedMap w' = changedMap w /\ restoring w' = restoring w
  /\ saveTimer w' = saveTimer w /\ now w' = now w
  /\ body (doc w') = body (doc w)
  /\ documentElement (doc w') = documentElement (doc w)
  /\ location (doc w') = location (doc w)
  /\ length (nodes (doc w')) = length (nodes (doc w))
  /\ (forall r n, node (doc w) r = Some n ->
        exists n', node (doc w') r = Some n' /\ same_shell n n'
                   /\ (isUsableControl n = false -> n' = n))
  /\ exists events,
        dispatched w' = dispatched w ++ events
        /\ Forall (fun e => usable_at (doc w) (fst e) = true
                             /\ (snd e = "input" \/ snd e = "change")) events.

(** Two worlds with the same storage, staging map, guard and timer. *)
Definition same_store_side (w w' : World) : Prop :=
  storage w' = storage w /\ faults w' = faults w /\ persisted w' = persisted w
  /\ changedMap w' = changedMap w /\ restoring w' = restoring w
  /\ saveTimer w' = saveTimer w.

(** A staging map as the listeners build it: every record sits under its own
    stable key and carries a value and a fingerprint. *)
Definition well_staged (m : JsMap.t FieldRecord) : Prop :=
  forall k v, (k, v) ∈ m ->
    k = stableKey (item_id v) /\ item_value v <> None /\ item_fingerprint v <> None.

(** The entries the restore engine makes of a list of stored fields. *)
Definition keyed_items (items : list FieldRecord) : list (string * FieldRecord) :=
  map (fun item => (stableKey (item_id item), item)) items.

(** The characters [escapeHtml] replaces, and those among them that open or
    close a tag or an attribute value. *)
Definition is_special (c : ascii) : bool :=
  Ascii.eqb c "&" || Ascii.eqb c "<" || Ascii.eqb c ">"
  || Ascii.eqb c "034" || Ascii.eqb c "'".

Definition is_markup (c : ascii) : bool :=
  Ascii.eqb c "<" || Ascii.eqb c ">" || Ascii.eqb c "034" || Ascii.eqb c "'".

(** The character reference that stands for a character. *)
Definition entity (c : ascii) : string :=
  if Ascii.eqb c "&" then "&amp;"
  else if Ascii.eqb c "<" then "&lt;"
  else if Ascii.eqb c ">" then "&gt;"
  else if Ascii.eqb c "034" then "&quot;"
  else if Ascii.eqb c "'" then "&#039;"
  else String c "".

(** Every character replaced by its reference, in one pass. *)
Fixpoint escape_chars (s : string) : string :=
  match s with
  | EmptyString => EmptyString
  | String c r => entity c +:+ escape_chars r
  end.

(** ** Further samples *)

(** A text of 162 characters whose 160th character is a space: 159 times
    the letter a, a space and the letter b. *)
Definition long_label : string :=
  string_of_list_ascii (replicate 159 "a"%char) +:+ " b".

(** The plan select as a reload renders it, with its first option
    selected. *)
Definition plan_select_reloaded : Node :=
  mkNode "SELECT" ∅ None None "" false false "" false
         [mkOption "basic" true; mkOption "pro" false].

(** A world whose fourth storage call fails. *)
Definition failing_world : World :=
  mkWorld sample_page [] (Some two_pages) [false; false; false; true] [] []
          false false 1700000000000%Z.

(** A stored text holding a character that markup reserves. *)
Definition comparison_item : FieldRecord :=
  {| item_id := Some (ById "note"); item_tag := "INPUT"; item_type := None;
     item_value := Some (VInput (Some "a<b")); item_fingerprint := None |}.

(** The world after the user typed the address into the e-mail field. *)
Definition typed_world : World :=
  snd (onEdit true 4 (fresh_world edited_page None)).

(** * Properties *)

(** ** Trackable controls *)

Lemma usable_tagName n :
  isUsableControl n = true ->
  tagName n = "INPUT" \/ tagName n = "TEXTAREA" \/ tagName n = "SELECT".
Proof.
  unfold isUsableControl. destruct (disabled n); [done|].
  destruct (String.eqb_spec (tagName n) "INPUT"); [auto|].
  destruct (String.eqb_spec (tagName n) "TEXTAREA"); [auto|].
  destruct (String.eqb_spec (tagName n) "SELECT"); [auto|done].
Qed.

Lemma usable_is_form_tag n : isUsableControl n = true -> is_form_tag n = true.
Proof.
  intros [H|[H|H]]%usable_tagName; unfold is_form_tag; rewrite H; reflexivity.
Qed.

Lemma select_from_elem i p l r :
  r ∈ select_from i p l
  <-> exists n, i <= r /\ l !! (r - i) = Some n /\ p n = true.
Proof.
  revert i. induction l as [|x l IH]; intros i; simpl.
  - split; [by intros ?%elem_of_nil|]. by intros (? & _ & ? & _).
  - assert (Htail : r ∈ select_from (S i) p l
                    <-> exists n, S i <= r /\ l !! (r - S i) = Some n /\ p n = true)
      by apply IH.
    destruct (p x) eqn:Hx; [rewrite elem_of_cons|]; rewrite Htail; split.
    + intros [->|(n & Hle & Hr & Hn)].
      * exists x. rewrite Nat.sub_diag. by repeat split.
      * exists n. split; [lia|]. by replace (r - i) with (S (r - S i)) by lia.
    + intros (n & Hle & Hr & Hn).
      destruct (decide (r = i)) as [->|Hne]; [by left|right].
      exists n. split; [lia|]. by replace (r - i) with (S (r - S i)) in Hr by lia.
    + intros (n & Hle & Hr & Hn). exists n. split; [lia|].
      by replace (r - i) with (S (r - S i)) by lia.
    + intros (n & Hle & Hr & Hn).
      destruct (decide (r = i)) as [->|Hne].
      * rewrite Nat.sub_diag in Hr. simpl in Hr. congruence.
      * exists n. split; [lia|]. by replace (r - i) with (S (r - S i)) in Hr by lia.
Qed.

(** The candidates of the fingerprint fallback are the live trackable
    controls. *)
Lemma candidates_trackable d c :
  c ∈ candidates d <-> exists n, node d c = Some n /\ isUsableControl n = true.
Proof.
  unfold candidates, querySelectorAll, usable_at, node.
  rewrite list_elem_of_filter, select_from_elem. split.
  - intros [Hu (n & _ & Hn & _)]. rewrite Nat.sub_0_r in Hn. rewrite Hn in Hu.
    exists n. split; [done|]. by apply Is_true_eq_true.
  - intros (n & Hn & Hu). rewrite Hn. split; [by rewrite Hu|].
    exists n. rewrite Nat.sub_0_r. split; [lia|]. split; [done|].
    by apply usable_is_form_tag.
Qed.

(** ** Fingerprint fallback *)

Section Fingerprint.

Variable d : Document.
Variable fp : Fingerprint.

(** The references [querySelectorAll] answers come in document order. *)
Lemma select_from_sorted i p l :
  StronglySorted lt (select_from i p l)
  /\ Forall (fun r => i <= r) (select_from i p l).
Proof.
  revert i. induction l as [|n l IH]; intros i; simpl.
  - split; constructor.
  - destruct (IH (S i)) as [Hs Hb].
    assert (Hb' : Forall (fun r => i <= r) (select_from (S i) p l)).
    { eapply Forall_impl; [exact Hb|]. simpl. lia. }
    destruct (p n); [|by split].
    split; constructor; auto.
Qed.



(** What the loop of [findBestByFingerprint] leaves in [best] and
    [bestScore]: either nothing beat the incoming score, or [best] is the
    first of the candidates that carries the largest score. *)
Lemma best_loop_spec all best bs best' bs' :
  best_loop d fp all best bs = (best', bs') ->
  bs <= bs'
  /\ (forall c, c ∈ all -> scoreMatch d fp c <= bs')
  /\ ((best' = best /\ bs' = bs)
      \/ (exists pre e post,
            all = pre ++ e :: post /\ best' = Some e /\ scoreMatch d fp e = bs'
            /\ bs < bs' /\ forall c, c ∈ pre -> scoreMatch d fp c < bs')).
Proof.
  revert best bs. induction all as [|el rest IH]; intros best bs; simpl.
  - intros [= <- <-]. split; [lia|]. split; [|by left].
    intros c Hc. by apply elem_of_nil in Hc.
  - destruct (Nat.ltb_spec bs (scoreMatch d fp el)) as [Hlt|Hge]; intros Hrun.
    + apply IH in Hrun as (Hle & Hmax & Hcase).
      split; [lia|]. split.
      { intros c [->|Hc]%elem_of_cons; [lia|auto]. }
      right. destruct Hcase as [[-> ->]|(pre & e & post & -> & -> & He & Hlt' & Hpre)].
      * exists [], el, rest. repeat split; auto.
        intros c Hc. by apply elem_of_nil in Hc.
      * exists (el :: pre), e, post. repeat split; auto; [lia|].
        intros c [->|Hc]%elem_of_cons; [lia|auto].
    + apply IH in Hrun as (Hle & Hmax & Hcase).
      split; [lia|]. split.
      { intros c [->|Hc]%elem_of_cons; [lia|auto]. }
      destruct Hcase as [[-> ->]|(pre & e & post & -> & -> & He & Hlt' & Hpre)].
      * by left.
      * right. exists (el :: pre), e, post. repeat split; auto.
        intros c [->|Hc]%elem_of_cons; [lia|auto].
Qed.




(** C10. A fingerprint whose name, test id, placeholder, autocomplete, aria
    label and label text are all empty scores at most 3 + 3 + 2 = 8 against
    any element, so the fallback selects no candidate. *)
Theorem empty_fingerprint_selects_nothing :
  fp_name fp = "" -> fp_testid fp = "" -> fp_placeholder fp = "" ->
  fp_autocomplete fp = "" -> fp_ariaLabel fp = "" -> fp_labelText fp = "" ->
  (forall el, scoreMatch d fp el <= 8)
  /\ findBestByFingerprint d (Some fp) = None.
Proof.
  intros Hname Htest Hph Hac Haria Hlabel.
  assert (Hle : forall el, scoreMatch d fp el <= 8).
  { intros el. unfold scoreMatch. destruct (node d el) as [n|]; [|lia].
    rewrite Hname, Htest, Hph, Hac, Haria, Hlabel. simpl.
    repeat match goal with |- context [if ?b then _ else _] => destruct b end; lia. }
  split; [exact Hle|].
  unfold findBestByFingerprint.
  destruct (best_loop d fp (candidates d) None 0) as [best bs] eqn:Hrun.
  apply best_loop_spec in Hrun as (_ & _ & Hcase).
  destruct Hcase as [[-> ->]|(pre & e & post & _ & _ & He & _)]; [done|].
  specialize (Hle e).
  destruct (Nat.leb_spec 12 bs); [lia|done].
Qed.

End Fingerprint.

(** ** Stable keys *)

Lemma append_nil s : "" +:+ s = s.
Proof. reflexivity. Qed.

Lemma append_cons c r s : String c r +:+ s = String c (r +:+ s).
Proof. reflexivity. Qed.

Ltac string_unfold H := rewrite ?append_cons, ?append_nil in H.

Lemma tag_colon_value_inj t1 v1 t2 v2 :
  colon_free t1 = true -> colon_free t2 = true ->
  t1 +:+ ":" +:+ v1 = t2 +:+ ":" +:+ v2 -> t1 = t2 /\ v1 = v2.
Proof.
  revert t2. induction t1 as [|c t1 IH]; intros [|c2 t2]; simpl;
    intros H1 H2 Heq; string_unfold Heq.
  - by injection Heq as ->.
  - injection Heq as <- _. by rewrite Ascii.eqb_refl in H2.
  - injection Heq as -> _. by rewrite Ascii.eqb_refl in H1.
  - injection Heq as -> Heq.
    apply andb_true_iff in H1 as [_ H1]. apply andb_true_iff in H2 as [_ H2].
    destruct (IH _ H1 H2 Heq) as [-> ->]. done.
Qed.

(** The three kinds carry distinct prefixes, and inside a kind the parts can
    be read back as long as the tag holds no colon. *)
Lemma stableKey_inj a b :
  (forall v t, a = ByName v t -> colon_free t = true) ->
  (forall v t, b = ByName v t -> colon_free t = true) ->
  stableKey (Some a) = stableKey (Some b) -> a = b.
Proof.
  intros Ha Hb. destruct a as [v1|v1 t1|v1], b as [v2|v2 t2|v2]; simpl;
    intros Heq; string_unfold Heq; try discriminate.
  - by injection Heq as ->.
  - injection Heq as Heq.
    destruct (tag_colon_value_inj t1 v1 t2 v2) as [-> ->]; eauto.
  - by injection Heq as ->.
Qed.

Lemma getStableId_tag_colon_free d el n v t :
  isUsableControl n = true -> getStableId d el n = ByName v t -> colon_free t = true.
Proof.
  intros Hu. unfold getStableId.
  destruct (Js.truthy (prop_id n)); [done|].
  destruct (Js.truthy (prop_name n)); [|done].
  intros [= _ <-]. destruct (usable_tagName n Hu) as [->|[->| ->]]; reflexivity.
Qed.

(** C2. For the identities that identity resolution gives to trackable
    controls, of the same page or of different pages, the stable keys are
    equal exactly when the identities are: equal identities have the same
    key and different identities have different keys. *)
Theorem stableKey_deterministic_injective d1 el1 n1 d2 el2 n2 :
  isUsableControl n1 = true -> isUsableControl n2 = true ->
  stableKey (Some (getStableId d1 el1 n1)) = stableKey (Some (getStableId d2 el2 n2))
  <-> getStableId d1 el1 n1 = getStableId d2 el2 n2.
Proof.
  intros H1 H2. split; [|by intros ->].
  apply stableKey_inj; intros v t; by apply getStableId_tag_colon_free.
Qed.

(** Outside the tags of trackable controls the key is ambiguous: a colon in
    the tag can be read as the separator. *)
Example stableKey_colon_tag_collides :
  stableKey (Some (ByName "c" "a:b")) = stableKey (Some (ByName "b:c" "a")).
Proof. reflexivity. Qed.

(** ** Value codec *)

Lemma set_checked_same n : set_checked (checked n) n = n.
Proof. by destruct n. Qed.

Lemma set_value_same n : set_value (value n) n = n.
Proof. by destruct n. Qed.

Lemma set_options_same n : set_options (options n) n = n.
Proof. by destruct n. Qed.

Lemma deselect_unselected p : opt_selected p = false -> Select.deselect p = p.
Proof. destruct p as [v b]; simpl. by intros ->. Qed.

Lemma map_deselect_unselected l :
  Forall (fun p => opt_selected p = false) l -> map Select.deselect l = l.
Proof.
  induction 1 as [|p l Hp _ IH]; simpl; [done|].
  by rewrite deselect_unselected, IH.
Qed.

Lemma map_deselect_fixed l :
  map Select.deselect l = l -> Forall (fun p => opt_selected p = false) l.
Proof.
  induction l as [|p l IH]; simpl; [constructor|].
  intros [= Hp Hl]. constructor; [|auto]. by rewrite <- Hp.
Qed.

(** Where the first selected option sits. *)
Lemma first_selected_split i os :
  match Select.first_selected i os with
  | Some (j, o) =>
      exists pre post,
        os = pre ++ o :: post /\ j = i + length pre
        /\ Forall (fun p => opt_selected p = false) pre /\ opt_selected o = true
  | None => Forall (fun p => opt_selected p = false) os
  end.
Proof.
  revert i. induction os as [|o os IH]; intros i; simpl; [constructor|].
  destruct (opt_selected o) eqn:Ho.
  - exists [], os. simpl. repeat split; [lia|constructor|done].
  - specialize (IH (S i)). destruct (Select.first_selected (S i) os) as [[j o']|].
    + destruct IH as (pre & post & -> & -> & Hpre & Ho').
      exists (o :: pre), post. simpl. repeat split; [lia|by constructor|done].
    + by constructor.
Qed.

(** Assigning a value walks past the options that carry another value. *)
Lemma set_value_skip v pre r :
  Forall (fun p => opt_value p <> v) pre ->
  Select.set_value v (pre ++ r) = map Select.deselect pre ++ Select.set_value v r.
Proof.
  induction 1 as [|p pre Hp _ IH]; simpl; [done|].
  destruct (String.eqb_spec (opt_value p) v); [done|]. by rewrite IH.
Qed.

(** If assigning a value leaves a run of unselected options as it was, none
    of them carries the value. *)
Lemma set_value_prefix_fixed v pre r r' :
  Forall (fun p => opt_selected p = false) pre ->
  Select.set_value v (pre ++ r) = pre ++ r' ->
  Forall (fun p => opt_value p <> v) pre.
Proof.
  induction 1 as [|p pre Hp _ IH]; simpl; [constructor|].
  destruct (String.eqb_spec (opt_value p) v) as [Hv|Hv].
  - intros [= Habs _]. destruct p as [pv pb]. simpl in *. congruence.
  - intros [= _ Hrest]. constructor; auto.
Qed.

Lemma set_value_idem v os :
  Select.set_value v (Select.set_value v os) = Select.set_value v os.
Proof.
  induction os as [|o os IH]; simpl; [done|].
  destruct (String.eqb_spec (opt_value o) v) as [Hv|Hv]; simpl.
  - rewrite <- Hv, String.eqb_refl. f_equal.
    rewrite map_map. by apply map_ext.
  - destruct (String.eqb_spec (opt_value o) v); [done|]. by rewrite IH.
Qed.

(** On a single-selection [select], assigning its own value changes nothing
    exactly under [selection_roundtrips]. *)
Lemma select_value_roundtrip os :
  Select.set_value (Select.get_value os) os = os <-> selection_roundtrips os.
Proof.
  unfold Select.get_value, selection_roundtrips.
  pose proof (first_selected_split 0 os) as Hsplit.
  destruct (Select.first_selected 0 os) as [[i o]|].
  - destruct Hsplit as (pre & post & -> & -> & Hpre & Ho). simpl. split.
    + intros Heq.
      pose proof (set_value_prefix_fixed _ _ _ _ Hpre Heq) as Hne.
      rewrite set_value_skip in Heq by done. simpl in Heq.
      rewrite String.eqb_refl in Heq.
      apply app_inj_1 in Heq as [_ Heq]; [|by rewrite length_map].
      injection Heq as _ Hpost. apply map_deselect_fixed in Hpost.
      split.
      * intros j p Hj Hlt. rewrite lookup_app_l in Hj by done.
        rewrite Forall_forall in Hne. apply Hne. by eapply list_elem_of_lookup_2.
      * intros j p Hj Hlt.
        rewrite lookup_app_r in Hj by lia.
        destruct (j - length pre) as [|k] eqn:Hk; [lia|]. simpl in Hj.
        rewrite Forall_forall in Hpost. apply Hpost. by eapply list_elem_of_lookup_2.
    + intros [Hbefore Hafter].
      assert (Hne : Forall (fun p => opt_value p <> opt_value o) pre).
      { apply Forall_forall. intros p [j Hj]%list_elem_of_lookup_1.
        apply (Hbefore j); [by apply lookup_app_l_Some|].
        by eapply lookup_lt_Some. }
      assert (Hpost : Forall (fun p => opt_selected p = false) post).
      { apply Forall_forall. intros p [j Hj]%list_elem_of_lookup_1.
        apply (Hafter (length pre + S j)); [|lia].
        rewrite lookup_app_r by lia.
        by replace (length pre + S j - length pre) with (S j) by lia. }
      rewrite set_value_skip by done. simpl. rewrite String.eqb_refl.
      rewrite !map_deselect_unselected by done.
      destruct o as [ov ob]. simpl in *. by subst.
  - split.
    + intros Heq p Hp.
      assert (Hne : Forall (fun p => opt_value p <> "") os).
      { apply (set_value_prefix_fixed "" os [] []); [done|].
        by rewrite !app_nil_r. }
      rewrite Forall_forall in Hne. by apply Hne.
    + intros Hne.
      rewrite <- (app_nil_r os) at 1. rewrite set_value_skip.
      * simpl. rewrite app_nil_r. by apply map_deselect_unselected.
      * by apply Forall_forall.
Qed.

(** Reading which options are selected and selecting exactly those. *)
Lemma selected_indexes_elem i os k :
  k ∈ Select.selected_indexes i os
  <-> exists o, i <= k /\ os !! (k - i) = Some o /\ opt_selected o = true.
Proof.
  revert i. induction os as [|o os IH]; intros i; simpl.
  - split; [by intros ?%elem_of_nil|]. by intros (? & _ & ? & _).
  - assert (Htail : k ∈ Select.selected_indexes (S i) os
                    <-> exists o', S i <= k /\ os !! (k - S i) = Some o'
                                   /\ opt_selected o' = true) by apply IH.
    destruct (opt_selected o) eqn:Ho; [rewrite elem_of_cons|]; rewrite Htail; split.
    + intros [->|(o' & Hle & Hk & Hs)].
      * exists o. rewrite Nat.sub_diag. by repeat split.
      * exists o'. split; [lia|].
        by replace (k - i) with (S (k - S i)) by lia.
    + intros (o' & Hle & Hk & Hs).
      destruct (decide (k = i)) as [->|Hne]; [by left|right].
      exists o'. split; [lia|].
      by replace (k - i) with (S (k - S i)) in Hk by lia.
    + intros (o' & Hle & Hk & Hs). exists o'. split; [lia|].
      by replace (k - i) with (S (k - S i)) by lia.
    + intros (o' & Hle & Hk & Hs).
      destruct (decide (k = i)) as [->|Hne].
      * rewrite Nat.sub_diag in Hk. simpl in Hk. congruence.
      * exists o'. split; [lia|].
        by replace (k - i) with (S (k - S i)) in Hk by lia.
Qed.

Lemma select_set_roundtrip os :
  Select.select_set (Select.selected_indexes 0 os) os = os.
Proof.
  apply list_eq. intros j. unfold Select.select_set. rewrite list_lookup_imap.
  destruct (os !! j) as [o|] eqn:Hj; simpl; [|done]. f_equal.
  destruct o as [v b]. simpl. f_equal.
  destruct b.
  - apply bool_decide_eq_true. apply selected_indexes_elem.
    exists (mkOption v true). rewrite Nat.sub_0_r. repeat split; [lia|done].
  - apply bool_decide_eq_false. intros (o & _ & Ho & Hs)%selected_indexes_elem.
    rewrite Nat.sub_0_r in Ho. rewrite Hj in Ho. injection Ho as <-. done.
Qed.

Lemma set_selectedIndex_idem i os :
  Select.set_selectedIndex i (Select.set_selectedIndex i os)
  = Select.set_selectedIndex i os.
Proof.
  apply list_eq. intros j. unfold Select.set_selectedIndex.
  rewrite !list_lookup_imap. by destruct (os !! j).
Qed.

Lemma select_set_idem idx os :
  Select.select_set idx (Select.select_set idx os) = Select.select_set idx os.
Proof.
  apply list_eq. intros j. unfold Select.select_set.
  rewrite !list_lookup_imap. by destruct (os !! j).
Qed.

(** The branches of [writeControlValue], one per shape of the value. *)
Lemma writeControlValue_cases n data :
  writeControlValue n (Some data) =
  match data with
  | VCheckbox c =>
      if String.eqb (tagName n) "INPUT" && String.eqb (input_type n) "checkbox"
      then set_checked c n else n
  | VRadio c _ =>
      if String.eqb (tagName n) "INPUT" && String.eqb (input_type n) "radio"
      then set_checked c n else n
  | VInput v =>
      if String.eqb (tagName n) "INPUT" then set_value (Js.nullish v "") n else n
  | VTextarea v =>
      if String.eqb (tagName n) "TEXTAREA" then set_value (Js.nullish v "") n else n
  | VSelect idx v =>
      if String.eqb (tagName n) "SELECT" && negb (multiple n)
      then match v, idx with
           | Some s, _ => set_options (Select.set_value s (options n)) n
           | None, Some i => set_options (Select.set_selectedIndex i (options n)) n
           | None, None => n
           end
      else n
  | VSelectMultiple idx _ =>
      if String.eqb (tagName n) "SELECT" && multiple n
      then set_options (Select.select_set idx (options n)) n else n
  end.
Proof.
  unfold writeControlValue, write_input, write_textarea, write_select.
  destruct (String.eqb_spec (tagName n) "INPUT") as [Hi|Hi].
  { rewrite Hi. destruct data; simpl; repeat case_match; by simplify_eq. }
  destruct (String.eqb_spec (tagName n) "TEXTAREA") as [Ht|Ht].
  { rewrite Ht. destruct data; simpl; repeat case_match; by simplify_eq. }
  destruct (String.eqb (tagName n) "SELECT");
    destruct data; simpl; repeat case_match; by simplify_eq.
Qed.

Lemma input_type_set_checked c n : input_type (set_checked c n) = input_type n.
Proof. reflexivity. Qed.

(** Writing the same value a second time changes nothing more. *)
Lemma writeControlValue_idem n data :
  writeControlValue (writeControlValue n data) data = writeControlValue n data.
Proof.
  destruct data as [data|]; [|done].
  rewrite (writeControlValue_cases n data).
  destruct data as [c|c rv|v|v|idx v|idx vs].
  - destruct (_ && _) eqn:Hc; rewrite writeControlValue_cases; simpl;
      rewrite ?input_type_set_checked, Hc; done.
  - destruct (_ && _) eqn:Hc; rewrite writeControlValue_cases; simpl;
      rewrite ?input_type_set_checked, Hc; done.
  - destruct (String.eqb _ _) eqn:Hc; rewrite writeControlValue_cases; simpl;
      rewrite Hc; done.
  - destruct (String.eqb _ _) eqn:Hc; rewrite writeControlValue_cases; simpl;
      rewrite Hc; done.
  - destruct (_ && _) eqn:Hc; [|by rewrite writeControlValue_cases, Hc].
    destruct v as [s|]; [|destruct idx as [i|]];
      rewrite writeControlValue_cases; simpl; rewrite Hc; simpl; [| |done].
    + by rewrite set_value_idem.
    + by rewrite set_selectedIndex_idem.
  - destruct (_ && _) eqn:Hc; rewrite writeControlValue_cases; simpl;
      rewrite Hc; [|done]. simpl. by rewrite select_set_idem.
Qed.

(** The only way back from an unchanged single-selection [select]. *)
Lemma writeback_select_tight n :
  tagName n = "SELECT" -> multiple n = false ->
  writeControlValue n (readControlValue n) = n ->
  selection_roundtrips (options n).
Proof.
  intros Ht Hm. unfold readControlValue, writeControlValue, write_select.
  rewrite Ht, Hm. simpl. intros Heq.
  apply select_value_roundtrip. by apply (f_equal options) in Heq.
Qed.

(** C3 (amended). On every trackable control, writing the value just read
    back twice is the same as writing it back once.  The write-back leaves
    the element as it was for every checkbox, radio, text-like input,
    textarea and multi-select, and for a single-selection select exactly
    when its selected option is the first option carrying its value and the
    only selected one (with nothing selected: when no option carries the
    empty value). *)
Theorem writeback_roundtrip n :
  isUsableControl n = true ->
  writeControlValue (writeControlValue n (readControlValue n)) (readControlValue n)
  = writeControlValue n (readControlValue n)
  /\ ((tagName n = "SELECT" -> multiple n = false -> selection_roundtrips (options n))
      <-> writeControlValue n (readControlValue n) = n).
Proof.
  intros _. split; [apply writeControlValue_idem|].
  split; [|intros Heq Ht Hm; by apply writeback_select_tight].
  intros Hsel. unfold readControlValue.
  destruct (String.eqb (tagName n) "INPUT") eqn:Hi.
  - destruct (String.eqb (input_type n) "checkbox") eqn:Hc;
      [|destruct (String.eqb (input_type n) "radio") eqn:Hr];
      rewrite writeControlValue_cases, Hi, ?Hc, ?Hr; simpl;
      auto using set_checked_same, set_value_same.
  - destruct (String.eqb (tagName n) "TEXTAREA") eqn:Ht.
    { rewrite writeControlValue_cases, Ht. apply set_value_same. }
    destruct (String.eqb_spec (tagName n) "SELECT") as [Hs|Hs]; [|done].
    destruct (multiple n) eqn:Hm; rewrite writeControlValue_cases, Hs, Hm; simpl.
    + rewrite select_set_roundtrip. apply set_options_same.
    + rewrite (proj2 (select_value_roundtrip (options n))) by auto.
      apply set_options_same.
Qed.

(** C3 as stated fails on a single-selection select with two options of the
    same value, the later one selected: the write-back moves the selection
    to the earlier option. *)
Lemma writeback_moves_duplicate_selection :
  isUsableControl dup_select = true
  /\ readControlValue dup_select = Some (VSelect (Some 1%Z) (Some "x"))
  /\ Select.selectedIndex
       (options (writeControlValue dup_select (readControlValue dup_select))) = 0%Z
  /\ writeControlValue dup_select (readControlValue dup_select) <> dup_select.
Proof.
  split; [reflexivity|]. split; [reflexivity|]. split; [reflexivity|].
  intros Heq. apply (f_equal options) in Heq. vm_compute in Heq. discriminate.
Qed.

(** A value of another shape than the element's is ignored, except when a
    text-like value meets an [input]. *)
Lemma writeControlValue_mismatch_noop n data :
  (forall v, readControlValue n = Some v -> shape v <> shape data) ->
  (tagName n = "INPUT" -> shape data <> "input") ->
  writeControlValue n (Some data) = n.
Proof.
  intros Hshape Hin. rewrite writeControlValue_cases. revert Hshape.
  unfold readControlValue.
  destruct (String.eqb_spec (tagName n) "INPUT") as [Hi|Hi].
  - specialize (Hin Hi).
    destruct (String.eqb_spec (input_type n) "checkbox") as [Hc|Hc].
    { intros Hshape. specialize (Hshape _ eq_refl). rewrite Hc.
      destruct data; simpl in *; rewrite ?Hi; done. }
    destruct (String.eqb_spec (input_type n) "radio") as [Hr|Hr];
      intros Hshape; specialize (Hshape _ eq_refl);
      destruct data; simpl in *; rewrite ?Hi; done.
  - destruct (String.eqb_spec (tagName n) "TEXTAREA") as [Ht|Ht].
    { intros Hshape. specialize (Hshape _ eq_refl). rewrite Ht.
      destruct data; simpl in *; done. }
    destruct (String.eqb_spec (tagName n) "SELECT") as [Hs|Hs];
      [|intros _; destruct data; simpl; repeat case_match; done].
    destruct (multiple n) eqn:Hm; intros Hshape; specialize (Hshape _ eq_refl);
      destruct data; simpl in *; done.
Qed.

(** C4 at the failing input. An unchecked checkbox reads as the checkbox
    shape; writing a text-like value to it is not ignored but lands in the
    element's [value]. *)
Theorem writeControlValue_text_into_checkbox :
  isUsableControl agree_box = true
  /\ readControlValue agree_box = Some (VCheckbox false)
  /\ shape (VInput (Some "hello")) <> shape (VCheckbox false)
  /\ value (writeControlValue agree_box (Some (VInput (Some "hello")))) = "hello"
  /\ writeControlValue agree_box (Some (VInput (Some "hello"))) <> agree_box.
Proof.
  split; [reflexivity|]. split; [reflexivity|]. split; [discriminate|].
  split; [reflexivity|].
  intros Heq. apply (f_equal value) in Heq. discriminate.
Qed.

(** ** Restore *)

Lemma input_type_radio_prop_type n :
  input_type n = "radio" -> Js.toLowerCase (prop_type n) = "radio".
Proof.
  unfold input_type, prop_type, Js.or_else, Js.nullish.
  destruct (getAttribute n "type") as [s|]; [|discriminate].
  destruct (Js.truthy s); [|discriminate].
  intros ->. reflexivity.
Qed.

(** C6. Applying a stored radio value to a live radio element goes through
    only when the element is trackable and its value equals the stored
    radio's value: then the element takes the stored checkedness, the two
    synthetic events are sent and the application reports success.  When the
    values differ the application reports failure and neither the page nor
    the event log changes. *)
Theorem applyToElement_radio w r n item c v :
  node (doc w) r = Some n ->
  tagName n = "INPUT" -> input_type n = "radio" ->
  item_value item = Some (VRadio c v) ->
  applyToElement (Some r) item w =
    (if isUsableControl n && String.eqb (value n) v
     then (true, dispatchInputChange r
                   (with_doc (replace_node r (set_checked c n) (doc w)) w))
     else (false, w))
  /\ (value n <> v -> applyToElement (Some r) item w = (false, w))
  /\ (fst (applyToElement (Some r) item w) = true -> value n = v).
Proof.
  intros Hn Htag Htype Hitem.
  assert (Heq : applyToElement (Some r) item w =
    (if isUsableControl n && String.eqb (value n) v
     then (true, dispatchInputChange r
                   (with_doc (replace_node r (set_checked c n) (doc w)) w))
     else (false, w))).
  { unfold applyToElement, stored_radio_value, prop_value.
    rewrite Hn, Hitem, writeControlValue_cases.
    rewrite Htag, Htype, (input_type_radio_prop_type n Htype). simpl.
    destruct (isUsableControl n); simpl; [|done].
    destruct (String.eqb (value n) v); done. }
  rewrite Heq. split; [done|]. split.
  - intros Hne. apply String.eqb_neq in Hne. rewrite Hne.
    by rewrite andb_false_r.
  - destruct (isUsableControl n); simpl; [|done].
    destruct (String.eqb_spec (value n) v); done.
Qed.

(** Running the monad: one storage call. *)
Lemma storage_call_ok {A} (op : World -> A * World) w :
  head (faults w) <> Some true ->
  storage_call op w =
    (Ok (fst (op (with_faults (tail (faults w)) w))),
     snd (op (with_faults (tail (faults w)) w))).
Proof.
  unfold storage_call. destruct w as [d ev st fs ps cm rs tm nw]. simpl.
  destruct fs as [|[] fs]; simpl; intros Hok; [|done|].
  - by destruct (op _).
  - by destruct (op _).
Qed.

Lemma storage_call_fails {A} (op : World -> A * World) w fs :
  faults w = true :: fs -> storage_call op w = (Throw, with_faults fs w).
Proof. unfold storage_call. by intros ->. Qed.

(** C5. When the persisted store holds no record under the key of the page
    and the read of the store succeeds, a restore request answers that there
    is no saved data for this page, and neither an element nor the log of
    synthetic events changes. *)
Theorem restore_without_record qs observe_ok batches w :
  head (faults w) <> Some true ->
  JsMap.get (pageKey (doc w)) (default [] (storage w)) = None ->
  restoreCurrentPage qs observe_ok batches w
    = (Ok (mkResult false (Some "No saved data for this page.") None),
       with_faults (tail (faults w)) w)
  /\ onMessage qs FORM_SAVER_RESTORE observe_ok batches w
    = (Ok (RestoreResponse
             (mkResult false (Some "No saved data for this page.") None)),
       with_faults (tail (faults w)) w)
  /\ doc (snd (restoreCurrentPage qs observe_ok batches w)) = doc w
  /\ dispatched (snd (restoreCurrentPage qs observe_ok batches w)) = dispatched w.
Proof.
  intros Hok Hnone.
  assert (Hrun : restoreCurrentPage qs observe_ok batches w
                 = (Ok no_saved_data, with_faults (tail (faults w)) w)).
  { unfold restoreCurrentPage, mbind, M_bind, bind, gets, loadAllPages.
    rewrite storage_call_ok by done. simpl. by rewrite Hnone. }
  unfold onMessage, mbind, M_bind, bind. rewrite Hrun. done.
Qed.

(** ** Insertion-ordered maps *)

Section JsMapFacts.

Context {V : Type}.
Implicit Types (m : JsMap.t V) (k : string) (v : V).

Lemma jsmap_get_set k k' v m :
  JsMap.get k' (JsMap.set k v m) = if String.eqb k' k then Some v else JsMap.get k' m.
Proof.
  induction m as [|[k0 v0] m IH]; simpl; [done|].
  destruct (String.eqb_spec k k0) as [->|Hne]; simpl.
  - by destruct (String.eqb k' k0).
  - rewrite IH. destruct (String.eqb_spec k' k0) as [->|]; [|done].
    apply String.eqb_neq in Hne. by rewrite String.eqb_sym, Hne.
Qed.

Lemma jsmap_keys_set k v m :
  JsMap.keys (JsMap.set k v m)
  = if bool_decide (k ∈ JsMap.keys m) then JsMap.keys m else JsMap.keys m ++ [k].
Proof.
  induction m as [|[k0 v0] m IH]; simpl; [done|].
  destruct (String.eqb_spec k k0) as [->|Hne]; simpl.
  - rewrite bool_decide_eq_true_2; [done|]. apply list_elem_of_here.
  - rewrite IH. destruct (decide (k ∈ JsMap.keys m)) as [Hin|Hout].
    + rewrite !bool_decide_eq_true_2; [done| |done]. by apply list_elem_of_further.
    + rewrite !bool_decide_eq_false_2; [done| |done].
      by intros [?|?]%elem_of_cons.
Qed.

Lemma jsmap_set_NoDup k v m :
  NoDup (JsMap.keys m) -> NoDup (JsMap.keys (JsMap.set k v m)).
Proof.
  intros Hnd. rewrite jsmap_keys_set. case_bool_decide as Hin; [done|].
  apply NoDup_app. split; [done|]. split; [|apply NoDup_singleton].
  intros x Hx ->%list_elem_of_singleton. done.
Qed.



Lemma jsmap_set_all_NoDup entries m :
  NoDup (JsMap.keys m) -> NoDup (JsMap.keys (JsMap.set_all entries m)).
Proof.
  revert m. induction entries as [|e entries IH]; intros m Hnd; [done|].
  apply IH. by apply jsmap_set_NoDup.
Qed.

Lemma jsmap_get_elem k v m : JsMap.get k m = Some v -> (k, v) ∈ m.
Proof.
  induction m as [|[k0 v0] m IH]; simpl; [done|].
  destruct (String.eqb_spec k k0) as [->|_].
  - intros [= ->]. apply list_elem_of_here.
  - intros H. by apply list_elem_of_further, IH.
Qed.

Lemma jsmap_elem_get k v m :
  NoDup (JsMap.keys m) -> (k, v) ∈ m -> JsMap.get k m = Some v.
Proof.
  induction m as [|[k0 v0] m IH]; simpl; [by intros _ ?%elem_of_nil|].
  intros [Hk0 Hnd]%NoDup_cons [[= -> ->]|Hin]%elem_of_cons.
  - by rewrite String.eqb_refl.
  - destruct (String.eqb_spec k k0) as [->|_]; [|auto].
    destruct Hk0. apply list_elem_of_fmap. by exists (k0, v).
Qed.

(** The values of a map are what its keys hold. *)
Lemma jsmap_elem_values v m :
  NoDup (JsMap.keys m) ->
  v ∈ JsMap.values m <-> exists k, JsMap.get k m = Some v.
Proof.
  intros Hnd. unfold JsMap.values. rewrite list_elem_of_fmap. split.
  - intros ([k v'] & -> & Hin). exists k. by apply jsmap_elem_get.
  - intros (k & Hk). exists (k, v). split; [done|]. by apply jsmap_get_elem.
Qed.

Lemma jsmap_delete_all_elem ks m e :
  e ∈ JsMap.delete_all ks m <-> e ∈ m /\ fst e ∉ ks.
Proof.
  revert m. induction ks as [|k ks IH]; intros m; simpl.
  - split; [intros ?; split; [done|apply not_elem_of_nil]|by intros [? _]].
  - unfold JsMap.delete_all in *. simpl. rewrite IH.
    unfold JsMap.delete. rewrite list_elem_of_filter, not_elem_of_cons.
    destruct (String.eqb_spec k (fst e)) as [->|Hne]; simpl; intuition congruence.
Qed.

Lemma jsmap_delete_all_keys ks m :
  (forall k, k ∈ JsMap.keys m -> k ∈ ks) -> JsMap.delete_all ks m = [].
Proof.
  intros Hall. destruct (JsMap.delete_all ks m) as [|e r] eqn:Heq; [done|].
  assert (He : e ∈ JsMap.delete_all ks m) by (rewrite Heq; apply list_elem_of_here).
  apply jsmap_delete_all_elem in He as [Hin Hout]. destruct Hout.
  apply Hall. apply list_elem_of_fmap. by exists e.
Qed.

End JsMapFacts.

(** ** Eviction *)

Lemma sort_insert_perm f k l : sort_insert f k l ≡ₚ k :: l.
Proof.
  induction l as [|k' l IH]; simpl; [done|].
  destruct (f k <=? f k')%Z; [done|].
  rewrite IH. apply Permutation_swap.
Qed.

Lemma sort_by_perm f l : sort_by f l ≡ₚ l.
Proof.
  induction l as [|k l IH]; simpl; [done|].
  by rewrite sort_insert_perm, IH.
Qed.

Lemma sort_insert_sorted f k l :
  StronglySorted (fun a b => (f a <= f b)%Z) l ->
  StronglySorted (fun a b => (f a <= f b)%Z) (sort_insert f k l).
Proof.
  induction 1 as [|k' l Hs IH Hall]; simpl; [repeat constructor|].
  destruct (Z.leb_spec (f k) (f k')) as [Hle|Hgt].
  - constructor; [by constructor|].
    constructor; [done|]. eapply Forall_impl; [exact Hall|]. simpl. lia.
  - constructor; [done|].
    rewrite sort_insert_perm. constructor; [lia|done].
Qed.

Lemma sort_by_sorted f l : StronglySorted (fun a b => (f a <= f b)%Z) (sort_by f l).
Proof.
  induction l as [|k l IH]; simpl; [constructor|]. by apply sort_insert_sorted.
Qed.

Lemma storage_call_nofault {A} (op : World -> A * World) w :
  faults w = [] -> storage_call op w = (Ok (fst (op w)), snd (op w)).
Proof. unfold storage_call. intros ->. by destruct (op w). Qed.

Lemma after_evicting_cons i k rest pages :
  after_evicting (S i) (k :: rest) pages = after_evicting i rest (JsMap.delete k pages).
Proof. reflexivity. Qed.

Lemma evicted_cons n k rest pages w :
  evicted n rest (JsMap.delete k pages)
    (with_persisted (persisted w ++ [JsMap.delete k pages])
       (with_storage (Some (JsMap.delete k pages)) w))
  = evicted (S n) (k :: rest) pages w.
Proof.
  destruct n as [|n]; [reflexivity|].
  unfold evicted, with_persisted, with_storage. simpl. f_equal.
  rewrite <- app_assoc. simpl. do 3 f_equal.
  rewrite <- (seq_shift n 2), map_map. by apply map_ext.
Qed.

(** The loop of [cleanupIfNeeded] deletes a prefix of the visiting order,
    the shortest one after which the usage is within the target. *)
Lemma evict_loop_run bytes order pages used target w :
  faults w = [] ->
  exists n, n <= length order
    /\ evict_loop bytes order pages used target w = (Ok tt, evicted n order pages w)
    /\ (forall m, m < n -> (target < usage_after bytes used m order pages)%Z)
    /\ ((usage_after bytes used n order pages <= target)%Z \/ n = length order).
Proof.
  revert pages used w. induction order as [|k rest IH]; intros pages used w Hf; simpl.
  - exists 0. split; [done|]. split; [done|]. split; [intros m Hm; lia|by right].
  - destruct (Z.leb_spec used target) as [Hle|Hgt].
    + exists 0. split; [lia|]. split; [done|]. split; [intros m Hm; lia|by left].
    + unfold mbind, M_bind, bind, saveAllPages, getBytesUsed.
      rewrite storage_call_nofault by done. simpl.
      rewrite storage_call_nofault by done. simpl.
      set (pages' := JsMap.delete k pages).
      set (w1 := with_persisted _ _).
      destruct (IH pages' (bytes (Some pages')) w1) as (n & Hn & Hrun & Hover & Hstop);
        [done|].
      exists (S n). split; [lia|]. split.
      { rewrite Hrun. unfold w1, pages'. by rewrite evicted_cons. }
      split.
      * intros [|m] Hm; [done|]. specialize (Hover m ltac:(lia)).
        destruct m; exact Hover.
      * destruct Hstop as [Hstop | ->]; [left|by right].
        destruct n; exact Hstop.
Qed.

Lemma target_of_ninety used q : (used <= target_of q)%Z <-> (10 * used <= 9 * q)%Z.
Proof.
  unfold target_of. split; intros; Z.to_euclidean_division_equations; lia.
Qed.

(** ** Flush *)

Lemma keeps_staged_refl w : keeps_staged w w.
Proof. repeat split. exists []. by rewrite app_nil_r. Qed.

Lemma keeps_staged_trans w1 w2 w3 :
  keeps_staged w1 w2 -> keeps_staged w2 w3 -> keeps_staged w1 w3.
Proof.
  intros (Hc1 & Hd1 & He1 & l1 & Hp1) (Hc2 & Hd2 & He2 & l2 & Hp2).
  repeat split; [congruence..|]. exists (l1 ++ l2). by rewrite Hp2, Hp1, app_assoc.
Qed.

Lemma storage_call_keeps {A} (op : World -> A * World) w r w' :
  (forall u, keeps_staged u (snd (op u))) ->
  storage_call op w = (r, w') -> keeps_staged w w'.
Proof.
  intros Hop. unfold storage_call.
  destruct (faults w) as [|[] fs] eqn:Hf.
  - specialize (Hop w). destruct (op w) as [a u]. by intros [= _ <-].
  - intros [= _ <-]. repeat split. exists []. simpl. by rewrite app_nil_r.
  - specialize (Hop (with_faults fs w)). destruct (op _) as [a u].
    intros [= _ <-]. eapply keeps_staged_trans; [|exact Hop].
    repeat split. exists []. simpl. by rewrite app_nil_r.
Qed.

Lemma saveAllPages_keeps pages w r w' :
  saveAllPages pages w = (r, w') -> keeps_staged w w'.
Proof.
  apply storage_call_keeps. intros u. simpl. repeat split. by exists [pages].
Qed.

Lemma evict_loop_keeps bytes keys pages used target w r w' :
  evict_loop bytes keys pages used target w = (r, w') -> keeps_staged w w'.
Proof.
  revert pages used w. induction keys as [|k rest IH]; intros pages used w; simpl.
  - intros [= _ <-]. apply keeps_staged_refl.
  - destruct (used <=? target)%Z; [intros [= _ <-]; apply keeps_staged_refl|].
    unfold mbind, M_bind, bind.
    destruct (saveAllPages _ w) as [[[]|] w1] eqn:Hsave;
      apply saveAllPages_keeps in Hsave; [|by intros [= _ <-]].
    destruct (getBytesUsed bytes w1) as [[used'|] w2] eqn:Hused;
      apply storage_call_keeps in Hused; try (intros u; apply keeps_staged_refl).
    + intros Hrun%IH. eauto using keeps_staged_trans.
    + intros [= _ <-]. eauto using keeps_staged_trans.
Qed.

Lemma cleanupIfNeeded_keeps quota bytes w r w' :
  cleanupIfNeeded quota bytes w = (r, w') -> keeps_staged w w'.
Proof.
  unfold cleanupIfNeeded. destruct quota as [q|]; [|intros [= _ <-]; apply keeps_staged_refl].
  destruct (q <=? 0)%Z; [intros [= _ <-]; apply keeps_staged_refl|].
  unfold mbind, M_bind, bind.
  destruct (getBytesUsed bytes w) as [[used|] w1] eqn:Hused;
    apply storage_call_keeps in Hused; try (intros u; apply keeps_staged_refl);
    [|by intros [= _ <-]].
  destruct (used <=? target_of q)%Z; [by intros [= _ <-]|].
  destruct (loadAllPages w1) as [[pages|] w2] eqn:Hload;
    apply storage_call_keeps in Hload; try (intros u; apply keeps_staged_refl).
  - intros Hrun%evict_loop_keeps. eauto using keeps_staged_trans.
  - intros [= _ <-]. eauto using keeps_staged_trans.
Qed.

(** With no storage failure the eviction ends normally on a world of the
    form [evicted]. *)
Lemma cleanupIfNeeded_nofault quota bytes w :
  faults w = [] ->
  exists n, cleanupIfNeeded quota bytes w
            = (Ok tt, evicted n (eviction_order (default [] (storage w)))
                        (default [] (storage w)) w).
Proof.
  intros Hf. unfold cleanupIfNeeded.
  destruct quota as [q|]; [|by exists 0].
  destruct (q <=? 0)%Z; [by exists 0|].
  unfold mbind, M_bind, bind, getBytesUsed, loadAllPages.
  rewrite storage_call_nofault by done. simpl.
  destruct (_ <=? _)%Z; [by exists 0|].
  rewrite storage_call_nofault by done. simpl.
  destruct (evict_loop_run bytes (eviction_order (default [] (storage w)))
              (default [] (storage w)) (bytes (storage w)) (target_of q) w Hf)
    as (n & _ & Hrun & _).
  by exists n.
Qed.

(** The three ways a flush with staged changes can go: the read fails, the
    write fails, or both succeed and the eviction runs on the flushed world. *)
Lemma saveCurrentPage_cases quota bytes w :
  changedMap w <> [] ->
  saveCurrentPage quota bytes w =
    if bool_decide (head (faults w) = Some true)
    then (Ok tt, with_faults (tail (faults w)) w)
    else if bool_decide (head (tail (faults w)) = Some true)
         then (Ok tt, with_faults (tail (tail (faults w))) w)
         else try_ignore (cleanupIfNeeded quota bytes)
                (flushed_world (with_faults (tail (tail (faults w))) w)).
Proof.
  intros Hne. unfold saveCurrentPage.
  destruct (changedMap w) as [|e cm] eqn:Hcm; [done|]. simpl.
  unfold try_ignore, mbind, M_bind, bind, gets, modify, loadAllPages, saveAllPages,
    storage_call.
  destruct w as [d ev st fs ps cm' rs tm nw]. simpl in *. subst cm'.
  destruct fs as [|[] [|[] fs]]; reflexivity.
Qed.

Lemma with_faults_nil w : faults w = [] -> with_faults [] w = w.
Proof. destruct w. simpl. by intros ->. Qed.

(** A flush whose storage calls succeed ends with the eviction, run on the
    world its write leaves. *)
Lemma saveCurrentPage_nofault quota bytes w :
  faults w = [] -> changedMap w <> [] ->
  saveCurrentPage quota bytes w = cleanupIfNeeded quota bytes (flushed_world w).
Proof.
  intros Hf Hne. rewrite saveCurrentPage_cases by done. rewrite Hf. simpl.
  rewrite with_faults_nil by done.
  destruct (cleanupIfNeeded_nofault quota bytes (flushed_world w)) as [n Hrun]; [done|].
  unfold try_ignore. by rewrite Hrun.
Qed.

(** C7. Eviction visits the pages oldest [updatedAt] first.  With a known
    capacity it deletes a prefix of that order and persists the store after
    each deletion; before each deletion the usage exceeds 90% of the capacity,
    and it stops as soon as the usage is at most 90% of the capacity or no
    page remains.  With the capacity unknown (or not positive) it neither
    deletes nor writes.  A flush whose storage calls succeed ends with this
    eviction, run on the world its write leaves. *)
Theorem cleanup_evicts_oldest_first quota bytes w :
  faults w = [] ->
  let pages := default [] (storage w) in
  let order := eviction_order pages in
  let usage := fun m => usage_after bytes (bytes (storage w)) m order pages in
  (StronglySorted (fun a b => (age pages a <= age pages b)%Z) order
   /\ order ≡ₚ JsMap.keys pages)
  /\ (forall q, quota = Some q -> (0 < q)%Z ->
      exists n, n <= length order
        /\ cleanupIfNeeded quota bytes w = (Ok tt, evicted n order pages w)
        /\ (forall m, m < n -> (9 * q < 10 * usage m)%Z)
        /\ ((10 * usage n <= 9 * q)%Z
            \/ (n = length order /\ after_evicting n order pages = [])))
  /\ (quota = None -> cleanupIfNeeded quota bytes w = (Ok tt, w))
  /\ (forall q, quota = Some q -> (q <= 0)%Z ->
      cleanupIfNeeded quota bytes w = (Ok tt, w))
  /\ (forall w0, faults w0 = [] -> changedMap w0 <> [] ->
      saveCurrentPage quota bytes w0 = cleanupIfNeeded quota bytes (flushed_world w0)).
Proof.
  intros Hf pages order usage.
  split; [split; [apply sort_by_sorted|apply sort_by_perm]|].
  split; [|split; [|split]]; [| | |exact (saveCurrentPage_nofault quota bytes)].
  - intros q -> Hq. unfold cleanupIfNeeded.
    destruct (Z.leb_spec q 0) as [|_]; [lia|].
    unfold mbind, M_bind, bind, getBytesUsed, loadAllPages.
    rewrite storage_call_nofault by done. simpl.
    destruct (Z.leb_spec (bytes (storage w)) (target_of q)) as [Hle|Hgt].
    + exists 0. split; [lia|]. split; [done|]. split; [lia|].
      left. by apply target_of_ninety.
    + rewrite storage_call_nofault by done. simpl.
      destruct (evict_loop_run bytes order pages (bytes (storage w)) (target_of q) w Hf)
        as (n & Hn & Hrun & Hover & Hstop).
      exists n. split; [done|]. split; [exact Hrun|]. split.
      * intros m Hm. specialize (Hover m Hm).
        pose proof (target_of_ninety (usage m) q). unfold usage in *. lia.
      * destruct Hstop as [Hstop | ->]; [left; by apply target_of_ninety|right].
        split; [done|]. unfold after_evicting. rewrite firstn_all.
        apply jsmap_delete_all_keys. intros k Hk.
        unfold order, eviction_order. by rewrite sort_by_perm.
  - by intros ->.
  - intros q -> Hq. unfold cleanupIfNeeded.
    by destruct (Z.leb_spec q 0) as [_|]; [|lia].
Qed.




Lemma merge_items_NoDup existing changed :
  NoDup (JsMap.keys (merge_items existing changed)).
Proof.
  unfold merge_items. apply jsmap_set_all_NoDup.
  destruct existing; [apply jsmap_set_all_NoDup|]; constructor.
Qed.


(** C8. When the read or the write of a flush fails, the flush ends without
    an exception and leaves the staged changes, the store and the log of
    writes as they were; if no later storage call fails, the next flush
    persists those staged changes.  Whatever the storage does, a flush never
    throws, and the staging map changes only by being emptied after a write
    that succeeded. *)
Theorem failed_flush_keeps_staged quota bytes w fs :
  faults w = true :: fs \/ faults w = false :: true :: fs ->
  changedMap w <> [] ->
  (saveCurrentPage quota bytes w = (Ok tt, with_faults fs w)
   /\ changedMap (with_faults fs w) = changedMap w
   /\ storage (with_faults fs w) = storage w
   /\ persisted (with_faults fs w) = persisted w)
  /\ (fs = [] ->
      exists w'' later,
        saveCurrentPage quota bytes (with_faults fs w) = (Ok tt, w'')
        /\ persisted w'' = persisted w ++ flushed_pages w :: later
        /\ changedMap w'' = [])
  /\ (forall u r u',
        saveCurrentPage quota bytes u = (r, u') ->
        r = Ok tt
        /\ (changedMap u' = changedMap u
            \/ (changedMap u' = []
                /\ exists later, persisted u' = persisted u ++ flushed_pages u :: later))).
Proof.
  intros Hfail Hne. split; [|split].
  - rewrite saveCurrentPage_cases by done.
    by destruct Hfail as [-> | ->].
  - intros ->. rewrite saveCurrentPage_cases by done. simpl.
    destruct (cleanupIfNeeded_nofault quota bytes
                (flushed_world (with_faults [] (with_faults [] w)))) as [n Hrun]; [done|].
    unfold try_ignore. rewrite Hrun.
    destruct n as [|n]; eexists _, _; (split; [reflexivity|]); simpl;
      (split; [|done]); [reflexivity|by rewrite <- app_assoc].
  - intros u r u'. destruct (decide (changedMap u = [])) as [Hempty|Hstaged].
    { unfold saveCurrentPage. rewrite Hempty. simpl. intros [= <- <-]. auto. }
    rewrite saveCurrentPage_cases by done.
    case_bool_decide; [intros [= <- <-]; auto|].
    case_bool_decide; [intros [= <- <-]; auto|].
    unfold try_ignore.
    destruct (cleanupIfNeeded quota bytes _) as [[[]|] u2] eqn:Hrun;
      apply cleanupIfNeeded_keeps in Hrun as (Hcm & _ & _ & later & Hlog);
      intros [= <- <-]; (split; [done|]); right; simpl in *;
      (split; [done|]); exists later; by rewrite Hlog, <- app_assoc.
Qed.

(** ** The properties on the sample page *)

(** The e-mail field and a radio of the plan group get different keys. *)
Lemma stableKey_sample_keys :
  stableKey (Some (getStableId sample_page 4 email_input))
  = stableKey (Some (getStableId sample_page 5 radio_basic))
  <-> getStableId sample_page 4 email_input = getStableId sample_page 5 radio_basic.
Proof.
  apply (stableKey_deterministic_injective sample_page 4 email_input
           sample_page 5 radio_basic); reflexivity.
Defined.

(** A select with distinct option values survives the write-back. *)
Lemma writeback_plan_select :
  writeControlValue plan_select (readControlValue plan_select) = plan_select
  /\ writeControlValue (writeControlValue plan_select (readControlValue plan_select))
       (readControlValue plan_select)
     = writeControlValue plan_select (readControlValue plan_select).
Proof.
  destruct (writeback_roundtrip plan_select eq_refl) as [Hidem [Hsame _]].
  split; [|exact Hidem]. apply Hsame. intros _ _.
  unfold selection_roundtrips. simpl. split.
  - intros [|j] p Hp Hj; [|lia]. injection Hp as <-. discriminate.
  - intros [|[|j]] p Hp Hj; [lia|lia|discriminate].
Defined.

(** A page never saved has nothing to restore. *)
Lemma restore_unsaved_sample_page :
  restoreCurrentPage no_text_selector true [] (fresh_world edited_page None)
    = (Ok (mkResult false (Some "No saved data for this page.") None),
       with_faults (tail (faults (fresh_world edited_page None)))
                   (fresh_world edited_page None))
  /\ onMessage no_text_selector FORM_SAVER_RESTORE true []
       (fresh_world edited_page None)
     = (Ok (RestoreResponse
              (mkResult false (Some "No saved data for this page.") None)),
        with_faults (tail (faults (fresh_world edited_page None)))
                    (fresh_world edited_page None))
  /\ doc (snd (restoreCurrentPage no_text_selector true []
                 (fresh_world edited_page None)))
     = doc (fresh_world edited_page None)
  /\ dispatched (snd (restoreCurrentPage no_text_selector true []
                        (fresh_world edited_page None)))
     = dispatched (fresh_world edited_page None).
Proof.
  apply (restore_without_record no_text_selector true []
           (fresh_world edited_page None)).
  - discriminate.
  - reflexivity.
Defined.

(** The stored choice "pro" is refused by the radio "basic". *)
Lemma apply_pro_choice_to_basic :
  applyToElement (Some 5) pro_choice (fresh_world sample_page None)
  = (false, fresh_world sample_page None).
Proof.
  refine (proj1 (proj2 (applyToElement_radio (fresh_world sample_page None) 5
                          radio_basic pro_choice true "pro" _ _ _ _)) _);
    try reflexivity.
  discriminate.
Defined.

(** At 950 of 1000 bytes the older of two pages goes and the usage drops to
    475 bytes. *)
Lemma cleanup_two_pages :
  let w := fresh_world sample_page (Some two_pages) in
  let pages := default [] (storage w) in
  let order := eviction_order pages in
  let usage := fun m => usage_after bytes_475_per_page
                          (bytes_475_per_page (storage w)) m order pages in
  (StronglySorted (fun a b => (age pages a <= age pages b)%Z) order
   /\ order ≡ₚ JsMap.keys pages)
  /\ (forall q, Some 1000%Z = Some q -> (0 < q)%Z ->
      exists n, n <= length order
        /\ cleanupIfNeeded (Some 1000%Z) bytes_475_per_page w
           = (Ok tt, evicted n order pages w)
        /\ (forall m, m < n -> (9 * q < 10 * usage m)%Z)
        /\ ((10 * usage n <= 9 * q)%Z
            \/ (n = length order /\ after_evicting n order pages = [])))
  /\ (Some 1000%Z = None ->
      cleanupIfNeeded (Some 1000%Z) bytes_475_per_page w = (Ok tt, w))
  /\ (forall q, Some 1000%Z = Some q -> (q <= 0)%Z ->
      cleanupIfNeeded (Some 1000%Z) bytes_475_per_page w = (Ok tt, w))
  /\ (forall w0, faults w0 = [] -> changedMap w0 <> [] ->
      saveCurrentPage (Some 1000%Z) bytes_475_per_page w0
      = cleanupIfNeeded (Some 1000%Z) bytes_475_per_page (flushed_world w0)).
Proof.
  exact (cleanup_evicts_oldest_first (Some 1000%Z) bytes_475_per_page
           (fresh_world sample_page (Some two_pages)) eq_refl).
Defined.

(** A flush whose read fails keeps the staged e-mail address. *)
Lemma failed_read_keeps_email :
  saveCurrentPage (Some 1000%Z) bytes_475_per_page (staged_world [true])
  = (Ok tt, with_faults [] (staged_world [true]))
  /\ changedMap (with_faults [] (staged_world [true])) = changedMap (staged_world [true])
  /\ storage (with_faults [] (staged_world [true])) = storage (staged_world [true])
  /\ persisted (with_faults [] (staged_world [true])) = persisted (staged_world [true]).
Proof.
  refine (proj1 (failed_flush_keeps_staged (Some 1000%Z) bytes_475_per_page
                   (staged_world [true]) [] _ _)).
  - left. reflexivity.
  - discriminate.
Defined.


(** The blank fingerprint finds nothing on the sample page. *)
Lemma blank_fingerprint_on_sample_page :
  (forall el, scoreMatch sample_page blank_fp el <= 8)
  /\ findBestByFingerprint sample_page (Some blank_fp) = None.
Proof.
  apply (empty_fingerprint_selects_nothing sample_page blank_fp); reflexivity.
Defined.

(** The acceptance threshold on the sample page: 11 is refused, 13 accepted. *)
Example score_eleven_refused :
  scoreMatch sample_page email_fp_11 4 = 11
  /\ findBestByFingerprint sample_page (Some email_fp_11) = None.
Proof. split; reflexivity. Qed.

Example score_thirteen_accepted :
  scoreMatch sample_page email_fp_13 4 = 13
  /\ findBestByFingerprint sample_page (Some email_fp_13) = Some 4.
Proof. split; reflexivity. Qed.

(** Both radios of the plan group score 18 against the fingerprint of the
    first; the first in document order wins. *)
Example tie_goes_to_first_radio :
  scoreMatch sample_page (getFingerprint sample_page 5 radio_basic) 5 = 18
  /\ scoreMatch sample_page (getFingerprint sample_page 5 radio_basic) 6 = 18
  /\ findBestByFingerprint sample_page
       (Some (getFingerprint sample_page 5 radio_basic)) = Some 5.
Proof. repeat split; reflexivity. Qed.

(** Edit, flush, reload, restore: the address is back in the e-mail field and
    of the two radios only "pro" is checked. *)
Example edit_flush_reload_restore :
  let edited := snd ((onEdit true 4;; onEdit true 6) (fresh_world edited_page None)) in
  let saved := snd (saveCurrentPage (Some 1000%Z) bytes_475_per_page edited) in
  let restored :=
    restoreCurrentPage no_text_selector true [] (fresh_world sample_page (storage saved)) in
  fst restored = Ok (mkResult true None None)
  /\ doc (snd restored) = edited_page
  /\ dispatched (snd restored) = [(4, "input"); (4, "change"); (6, "input"); (6, "change")].
Proof. vm_compute. repeat split; reflexivity. Qed.

(** The eviction on the two-page store deletes the older page only. *)
Example cleanup_deletes_older_page :
  let w := snd (cleanupIfNeeded (Some 1000%Z) bytes_475_per_page
                  (fresh_world sample_page (Some two_pages))) in
  option_map JsMap.keys (storage w) = Some ["https://example.com/new"]
  /\ length (persisted w) = 1.
Proof. vm_compute. split; reflexivity. Qed.

(** A flush whose write fails keeps the staged address as well. *)
Example failed_write_keeps_email :
  saveCurrentPage (Some 1000%Z) bytes_475_per_page (staged_world [false; true])
  = (Ok tt, with_faults [] (staged_world [false; true])).
Proof. reflexivity. Qed.

(** * Further properties *)

(** ** What a write touches *)

Lemma set_value_opt_values v os :
  map opt_value (Select.set_value v os) = map opt_value os.
Proof.
  induction os as [|o os IH]; simpl; [done|].
  destruct (String.eqb (opt_value o) v); simpl; [|by rewrite IH].
  f_equal. rewrite map_map. by apply map_ext.
Qed.

Lemma imap_opt_values (f : nat -> OptionEl -> bool) os :
  map opt_value (imap (fun j o => {| opt_value := opt_value o;
                                     opt_selected := f j o |}) os)
  = map opt_value os.
Proof.
  revert f. induction os as [|o os IH]; intros f; simpl; [done|].
  f_equal. apply (IH (fun j => f (S j))).
Qed.

Lemma same_shell_refl n : same_shell n n.
Proof. by repeat split. Qed.

Lemma same_shell_trans n1 n2 n3 :
  same_shell n1 n2 -> same_shell n2 n3 -> same_shell n1 n3.
Proof.
  unfold same_shell. intros H1 H2.
  destruct H1 as (?&?&?&?&?&?&?&?), H2 as (?&?&?&?&?&?&?&?).
  repeat split; congruence.
Qed.

Lemma writeControlValue_same_shell n data :
  same_shell n (writeControlValue n data).
Proof.
  destruct data as [data|]; [|apply same_shell_refl].
  rewrite writeControlValue_cases.
  destruct data as [c|c rv|v|v|idx v|idx vs];
    repeat case_match; try apply same_shell_refl;
    unfold same_shell; simpl; repeat split;
    auto using set_value_opt_values;
    unfold Select.set_selectedIndex, Select.select_set; apply imap_opt_values.
Qed.

Lemma same_shell_usable n n' :
  same_shell n n' -> isUsableControl n' = isUsableControl n.
Proof.
  intros (Ht & Ha & _ & _ & _ & Hd & _ & _).
  unfold isUsableControl, input_type, getAttribute. by rewrite Ht, Ha, Hd.
Qed.


(** ** Saving a value and restoring it into a fresh copy *)

Lemma set_value_same_values v os os' :
  map opt_value os = map opt_value os' ->
  Select.set_value v os = Select.set_value v os'.
Proof.
  revert os'. induction os as [|o os IH]; intros [|o' os']; simpl; try done.
  intros [= Hv Hrest]. rewrite <- Hv.
  destruct (String.eqb (opt_value o) v).
  - f_equal. clear IH. revert os' Hrest.
    induction os as [|x os IH]; intros [|x' os']; simpl; try done.
    intros [= Hx Hr]. unfold Select.deselect at 1 3. rewrite Hx. f_equal. auto.
  - unfold Select.deselect at 1 2. rewrite Hv. f_equal. auto.
Qed.

Lemma lookup_same_opt_values os os' j :
  map opt_value os' = map opt_value os ->
  opt_value <$> os' !! j = opt_value <$> os !! j.
Proof.
  revert os j. induction os' as [|o' os' IH]; intros [|o os] j; simpl; try done.
  intros [= Hv Hrest]. destruct j as [|j]; simpl; [by rewrite Hv|auto].
Qed.

(** Selecting in [os'] exactly the positions selected in [os] gives [os]
    when both carry the same option values. *)
Lemma select_set_transfer os os' :
  map opt_value os' = map opt_value os ->
  Select.select_set (Select.selected_indexes 0 os) os' = os.
Proof.
  intros Hvals. apply list_eq. intros j. unfold Select.select_set.
  rewrite list_lookup_imap.
  pose proof (lookup_same_opt_values os os' j Hvals) as Hj.
  destruct (os' !! j) as [o'|], (os !! j) as [o|] eqn:Ho; simpl in *; try done.
  injection Hj as Hv. f_equal. destruct o as [v b]. simpl in *. subst. f_equal.
  destruct b.
  - apply bool_decide_eq_true. apply selected_indexes_elem.
    exists (mkOption (opt_value o') true). rewrite Nat.sub_0_r.
    split; [lia|]. by split.
  - apply bool_decide_eq_false. intros (o & _ & Hlook & Hs)%selected_indexes_elem.
    rewrite Nat.sub_0_r, Ho in Hlook. by injection Hlook as <-.
Qed.

(** Writing the value read from an element into a fresh copy of it and
    reading again gives that value. *)
Lemma write_read_fresh_copy n m :
  fresh_copy n m ->
  (tagName m = "SELECT" -> multiple m = false -> selection_roundtrips (options m)) ->
  readControlValue (writeControlValue n (readControlValue m)) = readControlValue m.
Proof.
  intros [(Ht & Ha & _ & _ & _ & _ & Hm & Hopts) Hradio] Hsel.
  assert (Hty : input_type n = input_type m).
  { unfold input_type, getAttribute. by rewrite Ha. }
  unfold readControlValue at 2 3.
  destruct (String.eqb (tagName m) "INPUT") eqn:Hi.
  { destruct (String.eqb (input_type m) "checkbox") eqn:Hc;
      [|destruct (String.eqb (input_type m) "radio") eqn:Hr];
      rewrite writeControlValue_cases, ?Ht, ?Hty, ?Hi, ?Hc, ?Hr; simpl;
      unfold readControlValue; simpl;
      rewrite ?input_type_set_checked;
      change (input_type (set_value ?s n)) with (input_type n);
      rewrite ?Ht, ?Hty, ?Hi, ?Hc, ?Hr; try done.
    rewrite Hradio; [done| |by apply String.eqb_eq].
    by apply String.eqb_eq. }
  destruct (String.eqb (tagName m) "TEXTAREA") eqn:Hta.
  { rewrite writeControlValue_cases, Ht, Hta. unfold readControlValue. simpl.
    by rewrite Ht, Hi, Hta. }
  destruct (String.eqb_spec (tagName m) "SELECT") as [Hs|Hs].
  - destruct (multiple m) eqn:Hmul;
      rewrite writeControlValue_cases, ?Ht, ?Hs, ?Hm, ?Hmul;
      simpl; unfold readControlValue; simpl; rewrite ?Ht, ?Hs, ?Hm, ?Hmul; simpl.
    + by rewrite select_set_transfer.
    + rewrite (set_value_same_values _ (options n) (options m)) by done.
      by rewrite (proj2 (select_value_roundtrip (options m))) by auto.
  - simpl. unfold readControlValue. rewrite Ht, Hi, Hta.
    by destruct (String.eqb_spec (tagName m) "SELECT").
Qed.

(** X2. Restoring a saved value into a fresh copy of the control reads back
    as the saved value: for every element [m] and every fresh copy [n] of it,
    reading after writing the value read from [m] gives the value read from
    [m], provided that a single-selection select keeps its selection through
    its own value. *)
Theorem restore_reads_back_saved_value n m :
  fresh_copy n m ->
  (tagName m = "SELECT" -> multiple m = false -> selection_roundtrips (options m)) ->
  readControlValue (writeControlValue n (readControlValue m)) = readControlValue m.
Proof. apply write_read_fresh_copy. Qed.

(** ** Text normalization *)

Lemma lower_ascii_idem c : Js.lower_ascii (Js.lower_ascii c) = Js.lower_ascii c.
Proof. destruct c as [[] [] [] [] [] [] [] []]; reflexivity. Qed.

Lemma is_space_lower c : Js.is_space (Js.lower_ascii c) = Js.is_space c.
Proof. destruct c as [[] [] [] [] [] [] [] []]; reflexivity. Qed.

Lemma lower_not_upper c : is_upper (Js.lower_ascii c) = false.
Proof. destruct c as [[] [] [] [] [] [] [] []]; reflexivity. Qed.

Lemma lower_space c : Js.is_space c = true -> Js.lower_ascii c = c.
Proof. destruct c as [[] [] [] [] [] [] [] []]; (reflexivity || discriminate). Qed.

Lemma truthy_empty s : Js.truthy s = false <-> s = "".
Proof. destruct s; [by split|]. by split. Qed.

Lemma truthy_lower s : Js.truthy (Js.toLowerCase s) = Js.truthy s.
Proof. by destruct s. Qed.

Lemma toLowerCase_idem s : Js.toLowerCase (Js.toLowerCase s) = Js.toLowerCase s.
Proof. induction s as [|c r IH]; simpl; [done|]. by rewrite lower_ascii_idem, IH. Qed.

Lemma toLowerCase_collapse b s :
  Js.toLowerCase (Js.collapse_spaces b s) = Js.collapse_spaces b (Js.toLowerCase s).
Proof.
  revert b. induction s as [|c r IH]; intros b; simpl; [done|].
  rewrite is_space_lower. destruct (Js.is_space c) eqn:Hc.
  - destruct b; simpl; by rewrite IH.
  - simpl. by rewrite IH.
Qed.

Lemma collapse_idem b s :
  Js.collapse_spaces b (Js.collapse_spaces b s) = Js.collapse_spaces b s.
Proof.
  revert b. induction s as [|c r IH]; intros b; simpl; [done|].
  destruct (Js.is_space c) eqn:Hc.
  - destruct b; simpl; by rewrite IH.
  - simpl. by rewrite Hc, IH.
Qed.

Lemma trimStart_idem s : Js.trimStart (Js.trimStart s) = Js.trimStart s.
Proof.
  induction s as [|c r IH]; simpl; [done|].
  destruct (Js.is_space c) eqn:Hc; [done|]. simpl. by rewrite Hc.
Qed.

Lemma trimEnd_idem s : Js.trimEnd (Js.trimEnd s) = Js.trimEnd s.
Proof.
  induction s as [|c r IH]; simpl; [done|].
  destruct (Js.is_space c && negb (Js.truthy (Js.trimEnd r))) eqn:Hc; [done|].
  simpl. by rewrite IH, Hc.
Qed.

Lemma trimEnd_lower s :
  Js.trimEnd (Js.toLowerCase s) = Js.toLowerCase (Js.trimEnd s).
Proof.
  induction s as [|c r IH]; simpl; [done|].
  rewrite IH, truthy_lower, is_space_lower.
  by destruct (Js.is_space c && negb (Js.truthy (Js.trimEnd r))).
Qed.

Lemma collapse_true_empty s :
  Js.collapse_spaces true s = "" -> Js.trimEnd s = "".
Proof.
  induction s as [|c r IH]; simpl; [done|].
  destruct (Js.is_space c); [|done]. intros H. by rewrite (IH H).
Qed.

Lemma trimEnd_collapse b s :
  Js.trimEnd (Js.collapse_spaces b s) = Js.collapse_spaces b (Js.trimEnd s).
Proof.
  revert b. induction s as [|c r IH]; intros b; simpl; [done|].
  destruct (Js.is_space c) eqn:Hc; simpl.
  - destruct (Js.truthy (Js.trimEnd r)) eqn:Htr; simpl; rewrite ?Hc.
    + destruct b; simpl; rewrite IH; [done|].
      destruct (Js.truthy (Js.collapse_spaces true (Js.trimEnd r))) eqn:Hcol; [done|].
      apply truthy_empty, collapse_true_empty in Hcol.
      rewrite trimEnd_idem in Hcol. rewrite Hcol in Htr. done.
    + apply truthy_empty in Htr.
      destruct b; simpl; rewrite IH, Htr; done.
  - by rewrite IH, Hc.
Qed.

Lemma trimStart_length s : String.length (Js.trimStart s) <= String.length s.
Proof.
  induction s as [|c r IH]; simpl; [lia|]. destruct (Js.is_space c); simpl; lia.
Qed.

Lemma trimEnd_length s : String.length (Js.trimEnd s) <= String.length s.
Proof.
  induction s as [|c r IH]; simpl; [lia|].
  destruct (Js.is_space c && negb (Js.truthy (Js.trimEnd r))); simpl; lia.
Qed.

Lemma collapse_length b s :
  String.length (Js.collapse_spaces b s) <= String.length s.
Proof.
  revert b. induction s as [|c r IH]; intros b; simpl; [lia|].
  destruct (Js.is_space c); [destruct b|]; simpl;
    [specialize (IH true)|specialize (IH true)|specialize (IH false)]; lia.
Qed.

(** A string fixed by [trimStart] is empty or starts with a character that
    is not white space. *)
Lemma trimStart_fixed_head c r :
  Js.trimStart (String c r) = String c r -> Js.is_space c = false.
Proof.
  simpl. destruct (Js.is_space c); [|done].
  intros H. apply (f_equal String.length) in H.
  pose proof (trimStart_length r). simpl in H. lia.
Qed.

Lemma trimStart_head c r : Js.is_space c = false -> Js.trimStart (String c r) = String c r.
Proof. simpl. by intros ->. Qed.

Lemma trimStart_fixed_trimEnd s :
  Js.trimStart s = s -> Js.trimStart (Js.trimEnd s) = Js.trimEnd s.
Proof.
  destruct s as [|c r]; [done|]. intros Hc%trimStart_fixed_head.
  simpl. rewrite Hc. simpl. by rewrite Hc.
Qed.

Lemma trimStart_fixed_lower s :
  Js.trimStart s = s -> Js.trimStart (Js.toLowerCase s) = Js.toLowerCase s.
Proof.
  destruct s as [|c r]; [done|]. intros Hc%trimStart_fixed_head.
  simpl. by rewrite is_space_lower, Hc.
Qed.

Lemma trimStart_fixed_collapse s :
  Js.trimStart s = s ->
  Js.trimStart (Js.collapse_spaces false s) = Js.collapse_spaces false s.
Proof.
  destruct s as [|c r]; [done|]. intros Hc%trimStart_fixed_head.
  simpl. rewrite Hc. simpl. by rewrite Hc.
Qed.

(** The cut [slice(0, n)]. *)
Lemma slice0_length n s :
  String.length (Js.slice0 n s) = Nat.min n (String.length s).
Proof.
  unfold Js.slice0. revert s. induction n as [|n IH]; intros [|c r]; simpl; auto.
Qed.

Lemma slice0_short n s : String.length s <= n -> Js.slice0 n s = s.
Proof.
  unfold Js.slice0. revert s. induction n as [|n IH]; intros [|c r]; simpl;
    try done; [lia|]. intros H. f_equal. apply IH. lia.
Qed.

Lemma slice0_string_all p n s :
  string_all p s = true -> string_all p (Js.slice0 n s) = true.
Proof.
  unfold Js.slice0. revert s. induction n as [|n IH]; intros [|c r]; simpl; try done.
  intros [Hc Hr]%andb_true_iff. rewrite Hc. simpl. auto.
Qed.

Lemma slice0_lower n s :
  Js.toLowerCase (Js.slice0 n s) = Js.slice0 n (Js.toLowerCase s).
Proof.
  unfold Js.slice0. revert s. induction n as [|n IH]; intros [|c r]; simpl; try done.
  by rewrite IH.
Qed.

Lemma slice0_trimStart_fixed n s :
  Js.trimStart s = s -> Js.trimStart (Js.slice0 n s) = Js.slice0 n s.
Proof.
  destruct s as [|c r]; [by destruct n|]. intros Hc%trimStart_fixed_head.
  destruct n as [|n]; [done|]. unfold Js.slice0. simpl. by rewrite Hc.
Qed.

(** A prefix of a string without runs of white space has none either. *)
Lemma slice0_collapse_fixed b n s :
  Js.collapse_spaces b s = s ->
  Js.collapse_spaces b (Js.slice0 n s) = Js.slice0 n s.
Proof.
  unfold Js.slice0. revert b s. induction n as [|n IH]; intros b [|c r]; simpl;
    try done.
  destruct (Js.is_space c) eqn:Hc.
  - destruct b.
    + intros H. apply (f_equal String.length) in H.
      pose proof (collapse_length true r). simpl in H. lia.
    + intros [= <- Hr]. f_equal. by apply IH.
  - intros [= Hr]. f_equal. by apply IH.
Qed.

Lemma toLowerCase_not_upper s :
  string_all (fun c => negb (is_upper c)) (Js.toLowerCase s) = true.
Proof.
  induction s as [|c r IH]; simpl; [done|]. by rewrite lower_not_upper, IH.
Qed.

Lemma collapse_not_upper b s :
  string_all (fun c => negb (is_upper c)) s = true ->
  string_all (fun c => negb (is_upper c)) (Js.collapse_spaces b s) = true.
Proof.
  revert b. induction s as [|c r IH]; intros b; simpl; [done|].
  intros [Hc Hr]%andb_true_iff.
  destruct (Js.is_space c); [destruct b|]; simpl; rewrite ?Hc; simpl; auto.
Qed.

Lemma collapse_plain_spaces b s :
  string_all (fun c => negb (Js.is_space c) || Ascii.eqb c " ")
             (Js.collapse_spaces b s) = true.
Proof.
  revert b. induction s as [|c r IH]; intros b; simpl; [done|].
  destruct (Js.is_space c) eqn:Hc; [destruct b|]; simpl; rewrite ?Hc; simpl; auto.
Qed.

(** The string that [normalizeText] cuts to length. *)
Lemma uncut_fixed s :
  let t := Js.collapse_spaces false (Js.toLowerCase (Js.trim s)) in
  Js.trimStart t = t /\ Js.trimEnd t = t /\ Js.toLowerCase t = t
  /\ Js.collapse_spaces false t = t.
Proof.
  intros t. subst t. unfold Js.trim. split; [|split; [|split]].
  - apply trimStart_fixed_collapse, trimStart_fixed_lower, trimStart_fixed_trimEnd,
      trimStart_idem.
  - by rewrite trimEnd_collapse, trimEnd_lower, trimEnd_idem.
  - by rewrite toLowerCase_collapse, toLowerCase_idem.
  - apply collapse_idem.
Qed.

(** X3. A normalized text is at most 160 characters long, holds no ASCII
    capital, holds no white space other than the plain space, holds no run of
    spaces and does not start with one. *)
Theorem normalizeText_shape s :
  String.length (normalizeText s) <= 160
  /\ string_all (fun c => negb (is_upper c)) (normalizeText s) = true
  /\ string_all (fun c => negb (Js.is_space c) || Ascii.eqb c " ") (normalizeText s)
     = true
  /\ Js.collapse_spaces false (normalizeText s) = normalizeText s
  /\ Js.trimStart (normalizeText s) = normalizeText s.
Proof.
  destruct (uncut_fixed s) as (Hstart & _ & _ & Hcol). unfold normalizeText.
  split; [rewrite slice0_length; lia|].
  split; [apply slice0_string_all, collapse_not_upper, toLowerCase_not_upper|].
  split; [apply slice0_string_all, collapse_plain_spaces|].
  split; [by apply slice0_collapse_fixed|by apply slice0_trimStart_fixed].
Qed.

Lemma normalizeText_trimEnd s :
  normalizeText (normalizeText s) = Js.trimEnd (normalizeText s).
Proof.
  destruct (uncut_fixed s) as (Hstart & Hend & Hlow & Hcol).
  set (t := Js.collapse_spaces false (Js.toLowerCase (Js.trim s))) in *.
  change (normalizeText s) with (Js.slice0 160 t).
  unfold normalizeText at 1. unfold Js.trim.
  rewrite slice0_trimStart_fixed by done.
  rewrite <- trimEnd_lower, <- trimEnd_collapse.
  rewrite slice0_lower, Hlow, slice0_collapse_fixed by done.
  apply slice0_short. etrans; [apply trimEnd_length|].
  rewrite slice0_length. lia.
Qed.

(** X4. Normalizing a normalized text strips the white space that the cut at
    160 characters may have left at its end, and nothing else; a normalized
    text shorter than 160 characters is a fixed point.  The function is not
    idempotent: there is a text, cut at 160 characters, whose normalized
    form changes when it is normalized again. *)
Theorem normalizeText_twice s :
  normalizeText (normalizeText s) = Js.trimEnd (normalizeText s)
  /\ (String.length (normalizeText s) < 160 ->
      normalizeText (normalizeText s) = normalizeText s)
  /\ exists t, String.length (normalizeText t) = 160
       /\ normalizeText (normalizeText t) <> normalizeText t.
Proof.
  split; [apply normalizeText_trimEnd|]. split.
  - rewrite normalizeText_trimEnd.
    destruct (uncut_fixed s) as (_ & Hend & _ & _).
    set (t := Js.collapse_spaces false (Js.toLowerCase (Js.trim s))) in *.
    change (normalizeText s) with (Js.slice0 160 t).
    rewrite slice0_length. intros Hlen.
    rewrite slice0_short by lia. exact Hend.
  - exists long_label. split; [by vm_compute|].
    intros Heq. apply (f_equal String.length) in Heq. vm_compute in Heq. discriminate.
Qed.

(** ** Fingerprints against the page they were taken from *)

Lemma getLabelText_normalized d el :
  exists txt, getLabelText d el = normalizeText txt.
Proof.
  unfold getLabelText. repeat case_match; eauto; by exists "".
Qed.

(** X5. An element scores against its own fingerprint 6 for tag and subtype,
    plus the weight of every attribute it carries: 2 for the form action, 10
    for the name, 12 for the test id, 5 for the placeholder, 3 for the
    autocomplete, 6 for the aria label; its label adds 10 when it is not
    empty and does not end in white space, which a label shorter than 160
    characters never does. *)
Theorem own_fingerprint_score d el n :
  node d el = Some n ->
  scoreMatch d (getFingerprint d el n) el
  = 6 + weight (Js.truthy (formAction_of d n)) 2
    + weight (Js.truthy (Js.or_else (getAttribute n "name") "")) 10
    + weight (Js.truthy (testid_of n)) 12
    + weight (Js.truthy (Js.or_else (getAttribute n "placeholder") "")) 5
    + weight (Js.truthy (Js.or_else (getAttribute n "autocomplete") "")) 3
    + weight (Js.truthy (Js.or_else (getAttribute n "aria-label") "")) 6
    + weight (Js.truthy (getLabelText d el)
              && String.eqb (getLabelText d el) (Js.trimEnd (getLabelText d el))) 10
  /\ (String.length (getLabelText d el) < 160 ->
      String.eqb (getLabelText d el) (Js.trimEnd (getLabelText d el)) = true).
Proof.
  intros Hn. destruct (getLabelText_normalized d el) as [txt Htxt]. split.
  - unfold scoreMatch, getFingerprint. rewrite Hn. simpl.
    rewrite !String.eqb_refl, !andb_true_r.
    rewrite Htxt, normalizeText_trimEnd. unfold weight.
    destruct (Js.truthy (normalizeText txt)),
      (String.eqb (normalizeText txt) (Js.trimEnd (normalizeText txt))); simpl;
      repeat match goal with |- context [if ?b then _ else _] => destruct b end;
      simpl; lia.
  - rewrite Htxt. intros Hlen. apply String.eqb_eq.
    rewrite <- normalizeText_trimEnd.
    destruct (uncut_fixed txt) as (_ & Hend & _ & _).
    set (t := Js.collapse_spaces false (Js.toLowerCase (Js.trim txt))) in *.
    change (normalizeText txt) with (Js.slice0 160 t) in *.
    rewrite slice0_length in Hlen. rewrite (slice0_short 160 t) by lia.
    unfold normalizeText, Js.trim.
    destruct (uncut_fixed txt) as (Hstart & _ & Hlow & Hcol). fold t in Hstart, Hlow, Hcol.
    rewrite Hstart, Hend, Hlow, Hcol. symmetry. apply slice0_short. lia.
Qed.

(** The score of any element is bounded by what the fingerprint carries. *)
Lemma scoreMatch_bound d fp el :
  scoreMatch d fp el
  <= 8 + weight (Js.truthy (fp_name fp)) 10 + weight (Js.truthy (fp_testid fp)) 12
     + weight (Js.truthy (fp_placeholder fp)) 5
     + weight (Js.truthy (fp_autocomplete fp)) 3
     + weight (Js.truthy (fp_ariaLabel fp)) 6
     + weight (Js.truthy (fp_labelText fp)) 10.
Proof.
  unfold scoreMatch, weight. destruct (node d el) as [n|]; [|lia].
  destruct (Js.truthy (fp_name fp)), (Js.truthy (fp_testid fp)),
    (Js.truthy (fp_placeholder fp)), (Js.truthy (fp_autocomplete fp)),
    (Js.truthy (fp_ariaLabel fp)), (Js.truthy (fp_labelText fp)); simpl;
    repeat match goal with |- context [if ?b then _ else _] => destruct b end; lia.
Qed.

(** X6. A fingerprint without name, test id, placeholder, aria label and
    label text never matches, whatever its autocomplete hint: no element of
    any page scores more than 11 against it and the fallback answers
    nothing. *)
Theorem fingerprint_needs_strong_attribute d fp :
  fp_name fp = "" -> fp_testid fp = "" -> fp_placeholder fp = "" ->
  fp_ariaLabel fp = "" -> fp_labelText fp = "" ->
  (forall el, scoreMatch d fp el <= 11)
  /\ findBestByFingerprint d (Some fp) = None.
Proof.
  intros Hname Htest Hph Haria Hlabel.
  assert (Hle : forall el, scoreMatch d fp el <= 11).
  { intros el. pose proof (scoreMatch_bound d fp el) as Hb.
    rewrite Hname, Htest, Hph, Haria, Hlabel in Hb. unfold weight in Hb. simpl in Hb.
    destruct (Js.truthy (fp_autocomplete fp)); lia. }
  split; [exact Hle|].
  unfold findBestByFingerprint.
  destruct (best_loop d fp (candidates d) None 0) as [best bs] eqn:Hrun.
  apply best_loop_spec in Hrun as (_ & _ & Hcase).
  destruct Hcase as [[-> ->]|(pre & e & post & _ & _ & He & _)]; [done|].
  specialize (Hle e). destruct (Nat.leb_spec 12 bs); [lia|done].
Qed.

(** X7. When one trackable control scores at least 12 against a fingerprint
    and every other trackable control scores strictly less, the fallback
    answers that control. *)
Theorem findBestByFingerprint_unique_best d fp el n :
  node d el = Some n -> isUsableControl n = true ->
  12 <= scoreMatch d fp el ->
  (forall c, c ∈ candidates d -> c <> el -> scoreMatch d fp c < scoreMatch d fp el) ->
  findBestByFingerprint d (Some fp) = Some el.
Proof.
  intros Hn Hu Hscore Hothers.
  assert (Hel : el ∈ candidates d) by (apply candidates_trackable; eauto).
  unfold findBestByFingerprint.
  destruct (best_loop d fp (candidates d) None 0) as [best bs] eqn:Hrun.
  apply best_loop_spec in Hrun as (_ & Hmax & Hcase).
  pose proof (Hmax el Hel) as Hge.
  destruct Hcase as [[-> ->]|(pre & e & post & Hall & -> & He & _)]; [lia|].
  destruct (Nat.leb_spec 12 bs); [|lia]. f_equal.
  destruct (decide (e = el)) as [|Hne]; [done|].
  assert (He' : e ∈ candidates d).
  { rewrite Hall. apply elem_of_app. right. apply list_elem_of_here. }
  specialize (Hothers e He' Hne). lia.
Qed.

(** ** Locating an element by its identity *)

Lemma sorted_head_min (l : list nat) r :
  StronglySorted lt l ->
  head l = Some r <-> r ∈ l /\ forall c, c ∈ l -> r <= c.
Proof.
  intros Hs. destruct l as [|x rest]; simpl.
  - split; [done|]. by intros [?%elem_of_nil _].
  - apply StronglySorted_inv in Hs as [_ Hall]. rewrite Forall_forall in Hall.
    split.
    + intros [= ->]. split; [apply list_elem_of_here|].
      intros c [->|Hc]%elem_of_cons; [lia|]. apply Hall in Hc. lia.
    + intros [Hr Hmin]. f_equal.
      apply elem_of_cons in Hr as [->|Hr]; [done|].
      apply Hall in Hr. specialize (Hmin x (list_elem_of_here _ _)). lia.
Qed.

(** [querySelector] answers the first element in document order that the
    selector matches. *)
Lemma querySelector_first p d r :
  querySelector p d = Some r
  <-> (exists n, node d r = Some n /\ p n = true)
      /\ forall c m, node d c = Some m -> p m = true -> r <= c.
Proof.
  unfold querySelector, querySelectorAll, node.
  rewrite sorted_head_min by apply select_from_sorted.
  rewrite select_from_elem, Nat.sub_0_r. split.
  - intros [(n & _ & Hn & Hp) Hmin]. split; [eauto|].
    intros c m Hc Hm. apply Hmin, select_from_elem.
    exists m. rewrite Nat.sub_0_r. split; [lia|done].
  - intros [(n & Hn & Hp) Hmin]. split; [exists n; split; [lia|done]|].
    intros c (m & _ & Hc & Hm)%select_from_elem. rewrite Nat.sub_0_r in Hc. eauto.
Qed.

(** X8. The identity taken from an element leads back to it exactly when the
    element is the first in document order with its id, or, lacking an id,
    the first with its tag and name: the locator answers the first element
    that carries the id (the tag and the name). *)
Theorem findElementByStableId_leads_back qs d el n :
  node d el = Some n ->
  (Js.truthy (prop_id n) = true ->
   findElementByStableId qs d (Some (getStableId d el n)) = Some el
   <-> forall j m, node d j = Some m ->
                   getAttribute m "id" = getAttribute n "id" -> el <= j)
  /\ (Js.truthy (prop_id n) = false -> Js.truthy (prop_name n) = true ->
      findElementByStableId qs d (Some (getStableId d el n)) = Some el
      <-> forall j m, node d j = Some m ->
                      Js.toLowerCase (tagName m) = Js.toLowerCase (tagName n) ->
                      getAttribute m "name" = getAttribute n "name" -> el <= j).
Proof.
  intros Hn. split.
  - intros Hid. unfold getStableId. rewrite Hid. simpl.
    unfold getElementById. rewrite Hid.
    assert (Hattr : getAttribute n "id" = Some (prop_id n)).
    { unfold prop_id, Js.nullish in *. by destruct (getAttribute n "id"). }
    rewrite querySelector_first. split.
    + intros [_ Hmin] j m Hj Hsame. apply (Hmin j m Hj).
      apply bool_decide_eq_true. congruence.
    + intros Hmin. split; [exists n; split; [done|by apply bool_decide_eq_true]|].
      intros c m Hc Hm%bool_decide_eq_true. apply (Hmin c m Hc). congruence.
  - intros Hid Hname. unfold getStableId. rewrite Hid, Hname. simpl.
    assert (Hattr : getAttribute n "name" = Some (prop_name n)).
    { unfold prop_name, Js.nullish in *. by destruct (getAttribute n "name"). }
    unfold select_by_name.
    change (head (querySelectorAll ?p d)) with (querySelector p d).
    rewrite querySelector_first. split.
    + intros [_ Hmin] j m Hj Htag Hsame. apply (Hmin j m Hj).
      apply andb_true_iff. split; [by apply String.eqb_eq|].
      apply bool_decide_eq_true. congruence.
    + intros Hmin. split.
      * exists n. split; [done|]. rewrite String.eqb_refl. simpl.
        by apply bool_decide_eq_true.
      * intros c m Hc [Htag Hm%bool_decide_eq_true]%andb_true_iff.
        apply String.eqb_eq in Htag. apply (Hmin c m Hc Htag). congruence.
Qed.

(** ** What a restore pass does to the world *)

Lemma restore_frame_refl w : restore_frame w w.
Proof.
  unfold restore_frame. repeat split.
  - intros r n Hn. exists n. split; [done|]. split; [apply same_shell_refl|done].
  - exists []. by rewrite app_nil_r.
Qed.

Lemma restore_frame_usable_at w w' r :
  restore_frame w w' -> usable_at (doc w') r = usable_at (doc w) r.
Proof.
  intros (_&_&_&_&_&_&_&_&_&_& Hlen & Hnodes & _). unfold usable_at.
  destruct (node (doc w) r) as [n|] eqn:Hn.
  - destruct (Hnodes r n Hn) as (n' & -> & Hshell & _). by apply same_shell_usable.
  - destruct (node (doc w') r) as [n'|] eqn:Hn'; [|done].
    apply lookup_lt_Some in Hn'. apply lookup_ge_None in Hn. lia.
Qed.

Lemma restore_frame_trans w1 w2 w3 :
  restore_frame w1 w2 -> restore_frame w2 w3 -> restore_frame w1 w3.
Proof.
  intros H12 H23.
  pose proof (fun r => restore_frame_usable_at w1 w2 r H12) as Husable.
  destruct H12 as (?&?&?&?&?&?&?&?&?&?& Hlen1 & Hn1 & ev1 & Hev1 & Hall1).
  destruct H23 as (?&?&?&?&?&?&?&?&?&?& Hlen2 & Hn2 & ev2 & Hev2 & Hall2).
  unfold restore_frame. repeat split; try congruence.
  - intros r n Hn. destruct (Hn1 r n Hn) as (n' & Hn' & Hs1 & Hu1).
    destruct (Hn2 r n' Hn') as (n'' & Hn'' & Hs2 & Hu2).
    exists n''. split; [done|]. split; [by eapply same_shell_trans|].
    intros Hun. pose proof (Hu1 Hun) as Heq. subst n'. by apply Hu2.
  - exists (ev1 ++ ev2). split; [by rewrite Hev2, Hev1, app_assoc|].
    apply Forall_app. split; [done|].
    eapply Forall_impl; [exact Hall2|]. intros e [Hu Hk]. by rewrite <- Husable.
Qed.

Lemma applyToElement_frame el item w :
  restore_frame w (snd (applyToElement el item w)).
Proof.
  unfold applyToElement. destruct el as [r|]; [|apply restore_frame_refl].
  destruct (node (doc w) r) as [n|] eqn:Hn; [|apply restore_frame_refl].
  destruct (isUsableControl n) eqn:Hu; simpl; [|apply restore_frame_refl].
  match goal with |- context [if ?b then _ else _] => destruct b end;
    [apply restore_frame_refl|]. simpl.
  unfold restore_frame. simpl. repeat split.
  - apply length_insert.
  - intros r' n' Hn'. unfold node in *. simpl.
    destruct (decide (r = r')) as [<-|Hne].
    + rewrite list_lookup_insert_eq by (by eapply lookup_lt_Some).
      rewrite Hn in Hn'. injection Hn' as <-.
      eexists. split; [done|]. split; [apply writeControlValue_same_shell|].
      rewrite Hu. done.
    + rewrite list_lookup_insert_ne by done. exists n'.
      split; [done|]. split; [apply same_shell_refl|done].
  - eexists. split; [done|]. unfold usable_at.
    constructor; [simpl; rewrite Hn; by split; [|left]|].
    constructor; [simpl; rewrite Hn; by split; [|right]|constructor].
Qed.

Lemma apply_each_frame all item any w :
  restore_frame w (snd (apply_each all item any w)).
Proof.
  revert any w. induction all as [|el rest IH]; intros any w;
    [apply restore_frame_refl|]. cbn [apply_each].
  pose proof (applyToElement_frame (Some el) item w) as Hstep.
  destruct (applyToElement (Some el) item w) as [applied w1]. simpl in Hstep.
  exact (restore_frame_trans w w1 _ Hstep (IH _ w1)).
Qed.

(** One iteration either leaves the pending map and the flag alone or deletes
    the key of the entry and raises the flag. *)
Lemma restore_entry_step qs k item pending changed w :
  restore_frame w (snd (restore_entry qs k item (pending, changed, w)))
  /\ (fst (restore_entry qs k item (pending, changed, w)) = (pending, changed)
      \/ fst (restore_entry qs k item (pending, changed, w))
         = (JsMap.delete k pending, true)).
Proof.
  unfold restore_entry.
  set (first := match item_id item with
                | Some (ByName v tag) =>
                    if Js.truthy v && Js.truthy tag
                    then apply_each
                           (filter (fun r => Is_true (usable_at (doc w) r))
                                   (select_by_name (doc w) tag v)) item false w
                    else (false, w)
                | _ => (false, w)
                end).
  assert (H1 : restore_frame w (snd first)).
  { subst first. repeat case_match; try apply restore_frame_refl.
    apply apply_each_frame. }
  destruct first as [any w1]. simpl in H1.
  destruct any; [by split; [|right]|].
  pose proof (applyToElement_frame
                (findElementByStableId qs (doc w1) (item_id item)) item w1) as H2.
  destruct (applyToElement _ item w1) as [direct w2]. simpl in H2.
  assert (H12 : restore_frame w w2) by (by eapply restore_frame_trans).
  destruct direct; [by split; [|right]|].
  pose proof (applyToElement_frame
                (findBestByFingerprint (doc w2) (item_fingerprint item)) item w2) as H3.
  destruct (applyToElement _ item w2) as [fuzzy w3]. simpl in H3.
  assert (H13 : restore_frame w w3) by (by eapply restore_frame_trans).
  destruct fuzzy; [by split; [|right]|by split; [|left]].
Qed.

Lemma jsmap_delete_all_filter {V} ks (m : JsMap.t V) :
  JsMap.delete_all ks m = filter (fun e => fst e ∉ ks) m.
Proof.
  revert m. induction ks as [|k ks IH]; intros m.
  - simpl. symmetry. induction m as [|e m IHm]; [done|].
    rewrite filter_cons_True by apply not_elem_of_nil. by rewrite IHm.
  - change (JsMap.delete_all (k :: ks) m) with (JsMap.delete_all ks (JsMap.delete k m)).
    rewrite IH. unfold JsMap.delete. rewrite list_filter_filter.
    apply list_filter_iff. intros e. rewrite not_elem_of_cons.
    destruct (String.eqb_spec k (fst e)); simpl; intuition congruence.
Qed.

Lemma jsmap_size_set {V} k v (m : JsMap.t V) :
  JsMap.size (JsMap.set k v m) <= S (JsMap.size m).
Proof.
  unfold JsMap.size. induction m as [|[k0 v0] m IH]; simpl; [lia|].
  destruct (String.eqb k k0); simpl; lia.
Qed.

Lemma jsmap_size_set_all {V} entries (m : JsMap.t V) :
  JsMap.size (JsMap.set_all entries m) <= JsMap.size m + length entries.
Proof.
  revert m. induction entries as [|e entries IH]; intros m; simpl; [lia|].
  unfold JsMap.set_all in *. simpl. etrans; [apply IH|].
  pose proof (jsmap_size_set (fst e) (snd e) m). lia.
Qed.

(** The loop of [tryRestoreItems] over some entries, from any state. *)
Lemma tryRestore_fold qs entries p0 c0 w0 :
  let res := fold_left (fun st e => restore_entry qs (fst e) (snd e) st) entries
                       (p0, c0, w0) in
  restore_frame w0 (snd res)
  /\ exists ks, fst (fst res) = JsMap.delete_all ks p0
       /\ Forall (fun k => k ∈ map fst entries) ks
       /\ snd (fst res) = c0 || negb (bool_decide (ks = [])).
Proof.
  revert p0 c0 w0. induction entries as [|[k item] entries IH]; intros p0 c0 w0.
  - simpl. split; [apply restore_frame_refl|]. exists [].
    split; [done|]. split; [constructor|]. by rewrite orb_false_r.
  - cbn [fold_left fst snd].
    destruct (restore_entry_step qs k item p0 c0 w0) as [Hframe Hstep].
    destruct (restore_entry qs k item (p0, c0, w0)) as [[p1 c1] w1].
    cbn [fst snd] in Hframe, Hstep.
    destruct (IH p1 c1 w1) as (Hrest & ks & Hp & Hks & Hc). split.
    { by eapply restore_frame_trans. }
    assert (Hks' : Forall (fun k' => k' ∈ map fst ((k, item) :: entries)) ks).
    { eapply Forall_impl; [exact Hks|]. intros k' Hk'. simpl.
      by apply list_elem_of_further. }
    destruct Hstep as [[= -> ->]|[= -> ->]].
    + by exists ks.
    + exists (k :: ks). split; [exact Hp|]. split.
      * constructor; [simpl; apply list_elem_of_here|done].
      * rewrite Hc. simpl. by rewrite orb_true_r.
Qed.


(** X10. A pass of [tryRestoreItems] only removes entries from the pending
    map: what remains are entries of the map it was given, the map shrinks
    exactly when the pass reports a change, and a pass that reports none
    returns the map as it was. *)
Theorem tryRestoreItems_pending qs pending w :
  let p' := fst (fst (tryRestoreItems qs pending w)) in
  let changed := snd (fst (tryRestoreItems qs pending w)) in
  (exists ks, p' = JsMap.delete_all ks pending
              /\ forall k, k ∈ ks -> k ∈ JsMap.keys pending)
  /\ (forall e, e ∈ p' -> e ∈ pending)
  /\ (changed = false -> p' = pending)
  /\ (changed = true <-> JsMap.size p' < JsMap.size pending).
Proof.
  intros p' changed. subst p' changed. unfold tryRestoreItems.
  destruct (tryRestore_fold qs pending pending false w) as (_ & ks & Hp & Hks & Hc).
  rewrite Hp, Hc. rewrite Forall_forall in Hks. simpl.
  split; [by exists ks|]. split; [|split].
  - intros e He. by apply jsmap_delete_all_elem in He as [He _].
  - case_bool_decide as Hnil; [by subst|done].
  - unfold JsMap.size. rewrite jsmap_delete_all_filter.
    case_bool_decide as Hnil; simpl.
    + subst ks. split; [done|]. intros Hlt.
      rewrite <- (jsmap_delete_all_filter [] pending) in Hlt.
      unfold JsMap.delete_all in Hlt. simpl in Hlt. lia.
    + split; [intros _|done].
      destruct ks as [|k ks]; [done|].
      pose proof (Hks k (list_elem_of_here _ _)) as Hk.
      apply list_elem_of_fmap in Hk as (e & -> & He).
      apply (length_filter_lt _ _ e He). intros Hout. apply Hout, list_elem_of_here.
Qed.

(** ** The outcome of a restore *)

Lemma restore_frame_store_side w w' : restore_frame w w' -> same_store_side w w'.
Proof. intros (?&?&?&?&?&?&_). by repeat split. Qed.

Lemma tryRestoreItems_size qs pending w :
  JsMap.size (fst (fst (tryRestoreItems qs pending w))) <= JsMap.size pending.
Proof.
  unfold tryRestoreItems.
  destruct (tryRestore_fold qs pending pending false w) as (_ & ks & -> & _).
  unfold JsMap.size. rewrite jsmap_delete_all_filter. apply length_filter.
Qed.

Lemma observe_loop_result qs batches pending w :
  0 < JsMap.size pending ->
  (fst (observe_loop qs batches pending w) = settled
   \/ exists k, fst (observe_loop qs batches pending w) = mkResult false None (Some k)
                /\ 0 < k <= JsMap.size pending)
  /\ same_store_side w (snd (observe_loop qs batches pending w)).
Proof.
  revert pending w. induction batches as [|batch rest IH]; intros pending w Hpos.
  - simpl. split; [|by repeat split]. right. exists (JsMap.size pending).
    unfold timed_out. split; [|lia].
    by destruct (Nat.eqb_spec (JsMap.size pending) 0); [lia|].
  - cbn [observe_loop].
    pose proof (tryRestoreItems_size qs pending (with_doc (batch (doc w)) w)) as Hsize.
    pose proof (tryRestore_fold qs pending pending false (with_doc (batch (doc w)) w))
      as [Hframe%restore_frame_store_side _].
    fold (tryRestoreItems qs pending (with_doc (batch (doc w)) w)) in Hframe.
    destruct (tryRestoreItems qs pending (with_doc (batch (doc w)) w))
      as [[pending' changed] w'].
    cbn [fst snd] in Hsize, Hframe.
    destruct (Nat.eqb_spec (JsMap.size pending') 0) as [Hzero|Hmore].
    + split; [by left|exact Hframe].
    + destruct (IH pending' w') as [Hres Hstore]; [lia|]. split.
      * destruct Hres as [Hres|(k & Hres & Hk)]; [by left|].
        right. exists k. split; [done|lia].
      * destruct Hframe as (?&?&?&?&?&?), Hstore as (?&?&?&?&?&?).
        simpl in *. repeat split; congruence.
Qed.

Lemma restoreWithRetries_store qs items observe_ok batches w :
  same_store_side w (snd (restoreWithRetries qs items observe_ok batches w)).
Proof.
  unfold restoreWithRetries.
  set (pending := JsMap.set_all
                    (map (fun item => (stableKey (item_id item), item)) items) []).
  pose proof (tryRestore_fold qs pending pending false w)
    as [Hframe%restore_frame_store_side _].
  fold (tryRestoreItems qs pending w) in Hframe.
  destruct (tryRestoreItems qs pending w) as [[pending' changed] w1].
  cbn [fst snd] in Hframe.
  destruct (Nat.eqb_spec (JsMap.size pending') 0) as [Hzero|Hmore]; [done|].
  destruct observe_ok; [|done].
  destruct (observe_loop_result qs batches pending' w1) as [_ Hstore]; [lia|].
  destruct Hframe as (?&?&?&?&?&?), Hstore as (?&?&?&?&?&?).
  repeat split; congruence.
Qed.

(** X11. A restore of some stored fields reports either success, with no
    count of missing fields, or failure with the count of the fields still
    pending, which is at least one and at most the number of stored fields;
    it never gives a reason.  It leaves the storage, the staging map, the
    guard and the timer alone, and with no stored field it succeeds at once
    without touching the world. *)
Theorem restoreWithRetries_result qs items observe_ok batches w :
  let r := fst (restoreWithRetries qs items observe_ok batches w) in
  let w' := snd (restoreWithRetries qs items observe_ok batches w) in
  reason r = None
  /\ ((ok r = true /\ missing r = None)
      \/ (ok r = false /\ exists k, missing r = Some k /\ 0 < k <= length items))
  /\ same_store_side w w'
  /\ (items = [] -> r = settled /\ w' = w).
Proof.
  intros r w'. subst r w'. unfold restoreWithRetries.
  set (pending := JsMap.set_all
                    (map (fun item => (stableKey (item_id item), item)) items) []).
  assert (Hbound : JsMap.size pending <= length items).
  { subst pending. etrans; [apply jsmap_size_set_all|]. simpl. by rewrite length_map. }
  pose proof (tryRestoreItems_size qs pending w) as Hsize.
  pose proof (tryRestore_fold qs pending pending false w)
    as [Hframe%restore_frame_store_side _].
  fold (tryRestoreItems qs pending w) in Hframe.
  assert (Hempty : items = [] -> tryRestoreItems qs pending w = ([], false, w)).
  { intros ->. reflexivity. }
  destruct (tryRestoreItems qs pending w) as [[pending' changed] w1].
  cbn [fst snd] in Hsize, Hframe.
  destruct (Nat.eqb_spec (JsMap.size pending') 0) as [Hzero|Hmore].
  { cbn [fst snd]. split; [done|]. split; [by left|]. split; [done|].
    intros Hitems. by injection (Hempty Hitems) as _ _ ->. }
  assert (Hnot : items = [] -> False).
  { intros Hitems. injection (Hempty Hitems) as -> _ _. by apply Hmore. }
  destruct observe_ok.
  - destruct (observe_loop_result qs batches pending' w1) as [Hres Hstore]; [lia|].
    split; [by destruct Hres as [->|(k & -> & _)]|]. split; [|split; [|done]].
    + destruct Hres as [->|(k & -> & Hk)]; [by left|].
      right. split; [done|]. exists k. split; [done|lia].
    + destruct Hframe as (?&?&?&?&?&?), Hstore as (?&?&?&?&?&?).
      repeat split; congruence.
  - cbn [fst snd]. split; [done|]. split; [|split; [done|done]].
    right. unfold timed_out. simpl.
    split; [by destruct (Nat.eqb_spec (JsMap.size pending') 0)|].
    exists (JsMap.size pending'). split; [done|lia].
Qed.

(** X12. Whatever the store holds and whatever the page does meanwhile, a
    restore request never writes to the storage, never stages a change and
    never arms the save timer; if the guard was down before, it is down
    again afterwards; and the request throws exactly when the read of the
    store fails. *)
Theorem restoreCurrentPage_keeps_store qs observe_ok batches w :
  let res := restoreCurrentPage qs observe_ok batches w in
  storage (snd res) = storage w /\ persisted (snd res) = persisted w
  /\ changedMap (snd res) = changedMap w /\ saveTimer (snd res) = saveTimer w
  /\ (restoring w = false -> restoring (snd res) = false)
  /\ (fst res = Throw <-> head (faults w) = Some true).
Proof.
  intros res. subst res.
  unfold restoreCurrentPage, mbind, M_bind, bind, gets, modify, finally, loadAllPages,
    storage_call. simpl.
  destruct (faults w) as [|[] fs] eqn:Hf; simpl; [|by repeat split|].
  - match goal with |- context [match ?o with Some _ => _ | None => _ end] =>
      destruct o as [items|] end; [|by repeat split].
    pose proof (restoreWithRetries_store qs items observe_ok batches
                  (with_restoring true w)) as (?&?&?&?&?&?).
    destruct (restoreWithRetries qs items observe_ok batches _) as [r w1].
    simpl in *. by repeat split.
  - match goal with |- context [match ?o with Some _ => _ | None => _ end] =>
      destruct o as [items|] end; [|by repeat split].
    pose proof (restoreWithRetries_store qs items observe_ok batches
                  (with_restoring true (with_faults fs w))) as (?&?&?&?&?&?).
    destruct (restoreWithRetries qs items observe_ok batches _) as [r w1].
    simpl in *. by repeat split.
Qed.

(** ** Stable keys through staging, flush and restore *)

Lemma usable_readable n : isUsableControl n = true -> readControlValue n <> None.
Proof.
  intros Hu. unfold readControlValue.
  destruct (usable_tagName n Hu) as [->|[->| ->]]; simpl; repeat case_match; done.
Qed.

Lemma jsmap_set_elem {V} k v (m : JsMap.t V) e :
  e ∈ JsMap.set k v m -> e = (k, v) \/ e ∈ m.
Proof.
  induction m as [|[k0 v0] m IH]; simpl.
  - intros ->%list_elem_of_singleton. by left.
  - destruct (String.eqb_spec k k0) as [->|_].
    + intros [->|He]%elem_of_cons; [by left|right; by apply list_elem_of_further].
    + intros [->|He]%elem_of_cons; [right; apply list_elem_of_here|].
      destruct (IH He); [by left|right; by apply list_elem_of_further].
Qed.

Lemma jsmap_set_all_elem {V} entries (m : JsMap.t V) e :
  e ∈ JsMap.set_all entries m -> e ∈ entries \/ e ∈ m.
Proof.
  revert m. induction entries as [|[k v] entries IH]; intros m; [by right|].
  unfold JsMap.set_all in *. simpl. intros [He|He]%IH.
  - left. by apply list_elem_of_further.
  - apply jsmap_set_elem in He as [->|He]; [left; apply list_elem_of_here|by right].
Qed.

(** X13. The listeners keep the staging map well formed: if every staged
    record sits under its own stable key with a value and a fingerprint, and
    no key is staged twice, the same holds after any [input] or [change]
    event, trusted or not, on any target. *)
Theorem onEdit_keeps_staging_well_formed isTrusted target w :
  well_staged (changedMap w) -> NoDup (JsMap.keys (changedMap w)) ->
  well_staged (changedMap (snd (onEdit isTrusted target w)))
  /\ NoDup (JsMap.keys (changedMap (snd (onEdit isTrusted target w)))).
Proof.
  intros Hwell Hnd. unfold onEdit.
  destruct (restoring w); [done|]. destruct isTrusted; [|done]. simpl.
  destruct (node (doc w) target) as [n|]; [|done].
  destruct (isUsableControl n) eqn:Hu; [|done]. simpl. split.
  - intros k v [[= -> ->]|He]%jsmap_set_elem; [|by apply Hwell].
    simpl. split; [done|]. split; [by apply usable_readable|done].
  - by apply jsmap_set_NoDup.
Qed.

Lemma jsmap_set_all_fresh {V} entries (m : JsMap.t V) :
  NoDup (JsMap.keys m ++ map fst entries) ->
  JsMap.set_all entries m = m ++ entries.
Proof.
  revert m. induction entries as [|[k v] entries IH]; intros m Hnd.
  { by rewrite app_nil_r. }
  unfold JsMap.set_all in *. simpl.
  assert (Hfresh : k ∉ JsMap.keys m).
  { apply NoDup_app in Hnd as (_ & Hdisj & _). intros Hk.
    apply (Hdisj k Hk). apply list_elem_of_here. }
  assert (Hset : JsMap.set k v m = m ++ [(k, v)]).
  { clear -Hfresh. induction m as [|[k0 v0] m IHm]; simpl; [done|].
    simpl in Hfresh. apply not_elem_of_cons in Hfresh as [Hne Hrest].
    apply String.eqb_neq in Hne. rewrite Hne. f_equal. by apply IHm. }
  rewrite Hset, IH; [by rewrite <- app_assoc|].
  unfold JsMap.keys. rewrite map_app. simpl. by rewrite <- app_assoc.
Qed.

(** X14. A flush of a well-formed staging map persists a field list whose
    stable keys are pairwise distinct, each field sitting in the merge under
    its own key; the restore engine therefore gets from that list one pending
    entry per field, in the order of the list. *)
Theorem flush_persists_distinct_keys existing changed :
  well_staged changed ->
  let items := JsMap.values (merge_items existing changed) in
  NoDup (map (fun item => stableKey (item_id item)) items)
  /\ (forall item, item ∈ items ->
        JsMap.get (stableKey (item_id item)) (merge_items existing changed) = Some item)
  /\ JsMap.set_all (keyed_items items) [] = keyed_items items.
Proof.
  intros Hwell items.
  assert (Hkeyed : forall k v, (k, v) ∈ merge_items existing changed ->
                               k = stableKey (item_id v)).
  { intros k v He. unfold merge_items in He.
    apply jsmap_set_all_elem in He as [He|He]; [by apply Hwell|].
    destruct existing as [old|]; [|by apply elem_of_nil in He].
    apply jsmap_set_all_elem in He as [He|He]; [|by apply elem_of_nil in He].
    apply list_elem_of_fmap in He as (item & [= -> ->] & _). done. }
  assert (Hkeys : map (fun item => stableKey (item_id item)) items
                  = JsMap.keys (merge_items existing changed)).
  { subst items. unfold JsMap.values, JsMap.keys. rewrite map_map.
    apply map_ext_in. intros [k v] Hin%list_elem_of_In. simpl.
    symmetry. by apply Hkeyed. }
  split; [rewrite Hkeys; apply merge_items_NoDup|]. split.
  - intros item (k & Hk)%jsmap_elem_values; [|apply merge_items_NoDup].
    pose proof (jsmap_get_elem _ _ _ Hk) as He. by rewrite <- (Hkeyed _ _ He).
  - rewrite jsmap_set_all_fresh; [done|]. simpl.
    unfold keyed_items. rewrite map_map. simpl. rewrite Hkeys.
    apply merge_items_NoDup.
Qed.

(** ** More on the eviction *)

Lemma jsmap_get_filter_keys {V} (P : string -> Prop) `{!forall k, Decision (P k)}
    k (m : JsMap.t V) :
  JsMap.get k (filter (fun e => P (fst e)) m)
  = if decide (P k) then JsMap.get k m else None.
Proof.
  induction m as [|[k0 v0] m IH]; simpl; [by destruct (decide (P k))|].
  rewrite filter_cons. simpl. destruct (decide (P k0)) as [Hk0|Hk0]; simpl.
  - destruct (String.eqb_spec k k0) as [->|_]; [by rewrite decide_True|exact IH].
  - rewrite IH. destruct (String.eqb_spec k k0) as [->|_]; [|done].
    by destruct (decide (P k0)).
Qed.

Lemma jsmap_get_delete_all {V} ks k (m : JsMap.t V) :
  JsMap.get k (JsMap.delete_all ks m)
  = if bool_decide (k ∈ ks) then None else JsMap.get k m.
Proof.
  rewrite jsmap_delete_all_filter.
  etrans; [exact (jsmap_get_filter_keys (fun k' => k' ∉ ks) k m)|].
  case_decide; case_bool_decide; done.
Qed.

(** The loop of the eviction under any fault script: what stays in the
    storage is the store after some number of deletions. *)
Lemma evict_loop_storage bytes order pages used target w r w' :
  evict_loop bytes order pages used target w = (r, w') ->
  exists n, n <= length order
    /\ storage w' = match n with 0 => storage w | S _ => Some (after_evicting n order pages) end.
Proof.
  revert pages used w. induction order as [|k rest IH]; intros pages used w; simpl.
  - intros [= _ <-]. by exists 0.
  - destruct (used <=? target)%Z; [intros [= _ <-]; exists 0; split; [lia|done]|].
    unfold mbind, M_bind, bind.
    destruct (saveAllPages _ w) as [[[]|] w1] eqn:Hsave.
    + assert (Hs1 : storage w1 = Some (JsMap.delete k pages)).
      { revert Hsave. unfold saveAllPages, storage_call.
        destruct (faults w) as [|[] fs]; simpl; by intros [= <-]. }
      destruct (getBytesUsed bytes w1) as [[used'|] w2] eqn:Hused.
      * assert (Hs2 : storage w2 = storage w1).
        { revert Hused. unfold getBytesUsed, storage_call.
          destruct (faults w1) as [|[] fs]; simpl; by intros [= _ <-]. }
        intros (n & Hn & Hs)%IH. exists (S n). split; [lia|].
        rewrite Hs. destruct n; [by rewrite Hs2, Hs1|done].
      * assert (Hs2 : storage w2 = storage w1).
        { revert Hused. unfold getBytesUsed, storage_call.
          destruct (faults w1) as [|[] fs]; simpl; by intros [= <-]. }
        intros [= _ <-]. exists 1. split; [lia|]. by rewrite Hs2, Hs1.
    + assert (Hs1 : storage w1 = storage w).
      { revert Hsave. unfold saveAllPages, storage_call.
        destruct (faults w) as [|[] fs]; simpl; by intros [= <-]. }
      intros [= _ <-]. exists 0. split; [lia|done].
Qed.

(** X15. Whatever storage call fails during the eviction, the storage ends
    up as the store with the first so many pages of the eviction order
    deleted: a page outside that prefix keeps its record unchanged, and no
    record is ever added or altered. *)
Theorem cleanupIfNeeded_only_deletes quota bytes w r w' :
  cleanupIfNeeded quota bytes w = (r, w') ->
  let pages := default [] (storage w) in
  let order := eviction_order pages in
  exists n, n <= length order
    /\ storage w' = storage (evicted n order pages w)
    /\ forall k, JsMap.get k (default [] (storage w'))
                 = if bool_decide (k ∈ take n order) then None else JsMap.get k pages.
Proof.
  intros Hrun pages order.
  assert (Hn : exists n, n <= length order
                 /\ storage w' = storage (evicted n order pages w)).
  { revert Hrun. unfold cleanupIfNeeded.
    destruct quota as [q|]; [|intros [= _ <-]; exists 0; split; [lia|done]].
    destruct (q <=? 0)%Z; [intros [= _ <-]; exists 0; split; [lia|done]|].
    unfold mbind, M_bind, bind.
    destruct (getBytesUsed bytes w) as [[used|] w1] eqn:Hused.
    - assert (Hs1 : storage w1 = storage w).
      { revert Hused. unfold getBytesUsed, storage_call.
        destruct (faults w) as [|[] fs]; simpl; by intros [= _ <-]. }
      destruct (used <=? target_of q)%Z;
        [intros [= _ <-]; exists 0; split; [lia|done]|].
      destruct (loadAllPages w1) as [[loaded|] w2] eqn:Hload.
      + assert (Hs2 : storage w2 = storage w1 /\ loaded = default [] (storage w1)).
        { revert Hload. unfold loadAllPages, storage_call.
          destruct (faults w1) as [|[] fs]; simpl; by intros [= <- <-]. }
        destruct Hs2 as [Hs2 ->]. rewrite Hs1. fold pages. fold order.
        intros (n & Hn & Hs)%evict_loop_storage. exists n. split; [done|].
        rewrite Hs. destruct n; [by rewrite Hs2, Hs1|done].
      + assert (Hs2 : storage w2 = storage w1).
        { revert Hload. unfold loadAllPages, storage_call.
          destruct (faults w1) as [|[] fs]; simpl; by intros [= <-]. }
        intros [= _ <-]. exists 0. split; [lia|]. by rewrite Hs2, Hs1.
    - assert (Hs1 : storage w1 = storage w).
      { revert Hused. unfold getBytesUsed, storage_call.
        destruct (faults w) as [|[] fs]; simpl; by intros [= <-]. }
      intros [= _ <-]. exists 0. split; [lia|done]. }
  destruct Hn as (n & Hn & Hs). exists n. split; [done|]. split; [done|].
  intros k. rewrite Hs. destruct n as [|n]; simpl.
  - done.
  - apply jsmap_get_delete_all.
Qed.

(** X16. The eviction order is stable: pages with the same [updatedAt] are
    visited in the order in which the store lists them. *)
Theorem eviction_order_stable pages a :
  filter (fun k => age pages k = a) (eviction_order pages)
  = filter (fun k => age pages k = a) (JsMap.keys pages).
Proof.
  unfold eviction_order. generalize (JsMap.keys pages) as ks. intros ks.
  induction ks as [|k ks IH]; simpl; [done|].
  rewrite filter_cons, <- IH. clear IH.
  generalize (sort_by (age pages) ks) as l. intros l.
  induction l as [|k' l IHl]; simpl; [by rewrite filter_cons|].
  destruct (Z.leb_spec (age pages k) (age pages k')) as [Hle|Hgt].
  - exact (filter_cons (fun k0 => age pages k0 = a) k (k' :: l)).
  - rewrite !(filter_cons (fun k0 => age pages k0 = a) k'), IHl.
    repeat case_decide; done || lia.
Qed.

(** In a sorted list the one element that is strictly greater than all
    others comes last. *)
Lemma sorted_last_max (f : string -> Z) l key :
  StronglySorted (fun a b => (f a <= f b)%Z) l ->
  key ∈ l ->
  (forall k, k ∈ l -> k <> key -> (f k < f key)%Z) ->
  last l = Some key.
Proof.
  induction 1 as [|x l Hs IH Hall]; intros Hin Hothers; [by apply elem_of_nil in Hin|].
  destruct l as [|y l].
  - by apply list_elem_of_singleton in Hin as ->.
  - change (last (x :: y :: l)) with (last (y :: l)). apply IH.
    + apply elem_of_cons in Hin as [Heq|Hin]; [subst x|done].
      destruct (decide (y = key)) as [->|Hne]; [apply list_elem_of_here|]. exfalso.
      rewrite Forall_forall in Hall.
      pose proof (Hall y (list_elem_of_here _ _)) as Hle.
      assert (Hy : y ∈ key :: y :: l) by set_solver.
      specialize (Hothers y Hy Hne). lia.
    + intros k Hk. apply Hothers. by apply list_elem_of_further.
Qed.

(** X17. The page a flush has just written is the last one in the eviction
    order, as long as its time stamp is later than that of every other
    stored page. *)
Theorem flushed_page_is_evicted_last w :
  (forall k, k ∈ JsMap.keys (default [] (storage w)) -> k <> pageKey (doc w) ->
             (age (default [] (storage w)) k < now w)%Z) ->
  last (eviction_order (flushed_pages w)) = Some (pageKey (doc w)).
Proof.
  intros Holder.
  set (key := pageKey (doc w)). set (fp := flushed_pages w).
  assert (Hage : age fp key = now w).
  { unfold age, fp, flushed_pages. fold key. by rewrite jsmap_get_set, String.eqb_refl. }
  assert (Hkeys : forall k, k ∈ JsMap.keys fp ->
            k = key \/ k ∈ JsMap.keys (default [] (storage w))).
  { intros k. unfold fp, flushed_pages. fold key. rewrite jsmap_keys_set.
    case_bool_decide; [by right|].
    intros [Hk| ->%list_elem_of_singleton]%elem_of_app; [by right|by left]. }
  pose proof (sort_by_perm (age fp) (JsMap.keys fp)) as Hperm.
  fold (eviction_order fp) in Hperm.
  apply (sorted_last_max (age fp)).
  - apply sort_by_sorted.
  - rewrite Hperm. unfold fp, flushed_pages. fold key. rewrite jsmap_keys_set.
    case_bool_decide; [done|]. apply elem_of_app. right. apply list_elem_of_here.
  - intros k Hk Hne. rewrite Hperm in Hk. rewrite Hage.
    destruct (Hkeys k Hk) as [->|Hold]; [done|].
    unfold age, fp, flushed_pages. fold key.
    rewrite jsmap_get_set. apply String.eqb_neq in Hne as Hne'. rewrite Hne'.
    by apply Holder.
Qed.

(** ** The text of the popup *)

Lemma append_assoc (a b c : string) : (a +:+ b) +:+ c = a +:+ (b +:+ c).
Proof. induction a as [|x a IH]; [done|]. rewrite !append_cons. by rewrite IH. Qed.

Lemma append_empty_r (a : string) : a +:+ "" = a.
Proof. induction a as [|x a IH]; [done|]. rewrite append_cons. by rewrite IH. Qed.

Lemma append_length (a b : string) :
  String.length (a +:+ b) = String.length a + String.length b.
Proof. induction a as [|x a IH]; [done|]. rewrite append_cons. simpl. by rewrite IH. Qed.

Lemma string_all_app p a b :
  string_all p (a +:+ b) = string_all p a && string_all p b.
Proof.
  induction a as [|x a IH]; [done|]. rewrite append_cons. simpl.
  by rewrite IH, andb_assoc.
Qed.

Lemma replaceAll_app c r a b :
  Popup.replaceAll c r (a +:+ b) = Popup.replaceAll c r a +:+ Popup.replaceAll c r b.
Proof.
  induction a as [|x a IH]; [done|]. rewrite append_cons. simpl.
  destruct (Ascii.eqb x c); by rewrite IH, ?append_assoc.
Qed.

Lemma escapeHtml_app a b :
  Popup.escapeHtml (a +:+ b) = Popup.escapeHtml a +:+ Popup.escapeHtml b.
Proof. unfold Popup.escapeHtml. by rewrite !replaceAll_app. Qed.

Lemma escapeHtml_cons c r :
  Popup.escapeHtml (String c r) = entity c +:+ Popup.escapeHtml r.
Proof.
  change (String c r) with (String c "" +:+ r). rewrite escapeHtml_app. f_equal.
  unfold entity, Popup.escapeHtml. simpl.
  destruct (Ascii.eqb_spec c "&") as [->|Hamp]; [done|]. simpl.
  destruct (Ascii.eqb_spec c "<") as [->|Hlt]; [done|]. simpl.
  destruct (Ascii.eqb_spec c ">") as [->|Hgt]; [done|]. simpl.
  destruct (Ascii.eqb_spec c "034") as [->|Hq]; [done|]. simpl.
  by destruct (Ascii.eqb_spec c "'") as [->|Hs].
Qed.

Lemma escapeHtml_escape_chars s : Popup.escapeHtml s = escape_chars s.
Proof.
  induction s as [|c r IH]; [done|]. rewrite escapeHtml_cons. simpl. by rewrite IH.
Qed.

(** X18. The five replacements of [escapeHtml], run one after the other,
    never touch what an earlier one has written: the result is the string
    with every character replaced by its own reference, in one pass, and so
    escaping goes through concatenation. *)
Theorem escapeHtml_one_pass s t :
  Popup.escapeHtml s = escape_chars s
  /\ Popup.escapeHtml (s +:+ t) = Popup.escapeHtml s +:+ Popup.escapeHtml t.
Proof. split; [apply escapeHtml_escape_chars|apply escapeHtml_app]. Qed.

Lemma entity_no_markup c : string_all (fun x => negb (is_markup x)) (entity c) = true.
Proof.
  unfold entity.
  destruct (Ascii.eqb_spec c "&") as [->|Hamp]; [done|].
  destruct (Ascii.eqb c "<") eqn:Hlt; [done|].
  destruct (Ascii.eqb c ">") eqn:Hgt; [done|].
  destruct (Ascii.eqb c "034") eqn:Hq; [done|].
  destruct (Ascii.eqb c "'") eqn:Hs; [done|].
  simpl. unfold is_markup. by rewrite Hlt, Hgt, Hq, Hs.
Qed.

Lemma entity_cases c :
  (is_special c = true /\ exists rest, entity c = String "&" rest /\ rest <> "")
  \/ (is_special c = false /\ entity c = String c "" /\ c <> "&"%char).
Proof.
  unfold entity, is_special.
  destruct (Ascii.eqb_spec c "&") as [->|Hamp]; [left; split; [done|]; by eexists|].
  destruct (Ascii.eqb_spec c "<") as [->|Hlt]; [left; split; [done|]; by eexists|].
  destruct (Ascii.eqb_spec c ">") as [->|Hgt]; [left; split; [done|]; by eexists|].
  destruct (Ascii.eqb_spec c "034") as [->|Hq]; [left; split; [done|]; by eexists|].
  destruct (Ascii.eqb_spec c "'") as [->|Hs]; [left; split; [done|]; by eexists|].
  by right.
Qed.

Lemma escape_chars_inj s t : escape_chars s = escape_chars t -> s = t.
Proof.
  revert t. induction s as [|c s IH]; intros [|c' t]; simpl.
  - done.
  - destruct (entity_cases c') as [(_ & rest & -> & _)|(_ & -> & _)]; done.
  - destruct (entity_cases c) as [(_ & rest & -> & _)|(_ & -> & _)]; done.
  - unfold entity.
    destruct (Ascii.eqb_spec c "&") as [->|Hamp];
      [|destruct (Ascii.eqb_spec c "<") as [->|Hlt];
        [|destruct (Ascii.eqb_spec c ">") as [->|Hgt];
          [|destruct (Ascii.eqb_spec c "034") as [->|Hq];
            [|destruct (Ascii.eqb_spec c "'") as [->|Hs]]]]];
    (destruct (Ascii.eqb_spec c' "&") as [->|Hamp'];
      [|destruct (Ascii.eqb_spec c' "<") as [->|Hlt'];
        [|destruct (Ascii.eqb_spec c' ">") as [->|Hgt'];
          [|destruct (Ascii.eqb_spec c' "034") as [->|Hq'];
            [|destruct (Ascii.eqb_spec c' "'") as [->|Hs']]]]]);
    rewrite ?append_cons, ?append_nil; intros Heq; simplify_eq;
    try (f_equal; by apply IH).
Qed.

Lemma escapeHtml_inj s t : Popup.escapeHtml s = Popup.escapeHtml t -> s = t.
Proof. rewrite !escapeHtml_escape_chars. apply escape_chars_inj. Qed.

(** X19. What [escapeHtml] returns holds no angle bracket and no quote, so
    inserted into markup it neither opens nor closes a tag or an attribute
    value; and escaping loses nothing: different strings have different
    escaped forms. *)
Theorem escapeHtml_safe_and_injective s :
  string_all (fun c => negb (is_markup c)) (Popup.escapeHtml s) = true
  /\ forall t, Popup.escapeHtml s = Popup.escapeHtml t -> s = t.
Proof.
  split.
  - rewrite escapeHtml_escape_chars. induction s as [|c r IH]; [done|]. simpl.
    by rewrite string_all_app, entity_no_markup, IH.
  - intros t. apply escapeHtml_inj.
Qed.

Lemma entity_length c : 1 <= String.length (entity c).
Proof.
  destruct (entity_cases c) as [(_ & rest & -> & _)|(_ & -> & _)]; simpl; lia.
Qed.

Lemma escape_chars_length s : String.length s <= String.length (escape_chars s).
Proof.
  induction s as [|c r IH]; simpl; [done|]. rewrite append_length.
  pose proof (entity_length c). lia.
Qed.

Lemma escape_chars_plain s :
  string_all (fun c => negb (is_special c)) s = true -> escape_chars s = s.
Proof.
  induction s as [|c r IH]; simpl; [done|]. intros [Hc Hr]%andb_prop.
  destruct (entity_cases c) as [(Hsp & _)|(_ & -> & _)];
    [by rewrite Hsp in Hc|]. by rewrite append_cons, append_nil, IH.
Qed.

Lemma escape_chars_grows s :
  string_all (fun c => negb (is_special c)) s = false ->
  String.length s < String.length (escape_chars s)
  /\ string_all (fun c => negb (is_special c)) (escape_chars s) = false.
Proof.
  induction s as [|c r IH]; simpl; [done|]. rewrite append_length, string_all_app.
  pose proof (escape_chars_length r) as Hlen.
  destruct (entity_cases c) as [(Hsp & rest & -> & Hrest)|(Hsp & -> & _)];
    rewrite Hsp; simpl.
  - intros _. split; [|done]. destruct rest; [done|]. simpl. lia.
  - intros Hr. destruct (IH Hr) as [Hlt Hall]. rewrite Hsp, Hall. simpl. split; [lia|done].
Qed.

Lemma escapeHtml_fixed t :
  Popup.escapeHtml t = t <-> string_all (fun c => negb (is_special c)) t = true.
Proof.
  rewrite escapeHtml_escape_chars. split; [|apply escape_chars_plain]. intros Heq.
  destruct (string_all _ t) eqn:Hall; [done|].
  apply escape_chars_grows in Hall as [Hlt _]. rewrite Heq in Hlt. lia.
Qed.

(** X20. Escaping never shortens a string, and it returns the string itself
    exactly when the string holds none of the five characters.  Escaping a
    second time changes the result again unless the first pass had nothing
    to replace. *)
Theorem escapeHtml_fixed_points s :
  String.length s <= String.length (Popup.escapeHtml s)
  /\ (Popup.escapeHtml s = s <-> string_all (fun c => negb (is_special c)) s = true)
  /\ (Popup.escapeHtml (Popup.escapeHtml s) = Popup.escapeHtml s
      <-> string_all (fun c => negb (is_special c)) s = true).
Proof.
  split; [rewrite escapeHtml_escape_chars; apply escape_chars_length|].
  split; [apply escapeHtml_fixed|]. split.
  - intros Heq. apply escapeHtml_fixed. by apply escapeHtml_inj.
  - intros Hall. apply escapeHtml_fixed in Hall. by rewrite !Hall.
Qed.

Lemma append_inj_l (a x y : string) : a +:+ x = a +:+ y -> x = y.
Proof.
  induction a as [|c a IH]; [done|]. rewrite !append_cons. intros [= Heq]. auto.
Qed.

(** X21. The line of a text field, a text area or a single select in the
    popup carries the stored value escaped twice, once by [summarizeValue]
    and once more by [renderSavedData]; it is the escaped form of the plain
    summary exactly when the value holds none of the five characters. *)
Theorem field_line_escapes_twice item data v :
  item_value item = Some data ->
  data = VInput (Some v) \/ data = VTextarea (Some v)
    \/ (exists i, data = VSelect i (Some v)) ->
  let target := Popup.summary_target (item_id item) in
  Popup.field_line item
  = Popup.escapeHtml target +:+ "  =&gt;  " +:+ shape data +:+ ": "
      +:+ Popup.escapeHtml (Popup.escapeHtml v)
  /\ (Popup.field_line item
      = Popup.escapeHtml (target +:+ "  =>  " +:+ shape data +:+ ": " +:+ v)
      <-> string_all (fun c => negb (is_special c)) v = true).
Proof.
  intros Hval Hshape target.
  assert (Hline : Popup.summarizeValue item
                  = target +:+ "  =>  " +:+ shape data +:+ ": " +:+ Popup.escapeHtml v).
  { unfold Popup.summarizeValue. rewrite Hval. fold target.
    destruct Hshape as [->|[->|[i ->]]]; reflexivity. }
  unfold Popup.field_line. rewrite Hline. split.
  - rewrite !escapeHtml_app.
    destruct Hshape as [->|[->|[i ->]]]; reflexivity.
  - split.
    + intros Heq. apply escapeHtml_inj in Heq.
      do 4 apply append_inj_l in Heq.
      exact (proj1 (escapeHtml_fixed v) Heq).
    + intros Hall. apply escapeHtml_fixed in Hall. by rewrite Hall.
Qed.

(** ** The order of the pages in the popup *)

(** A sorted list read backwards is sorted by the negated key. *)
Lemma sorted_rev (f : string -> Z) l :
  StronglySorted (fun a b => (f a <= f b)%Z) l ->
  StronglySorted (fun a b => (- f a <= - f b)%Z) (rev l).
Proof.
  induction 1 as [|x l Hs IH Hall]; simpl; [constructor|].
  apply StronglySorted_app. split; [|split; [done|repeat constructor]].
  intros a b Ha Hb. apply list_elem_of_singleton in Hb as ->.
  rewrite Forall_forall in Hall.
  assert (Hin : a ∈ l) by (by rewrite (Permutation_rev l)).
  specialize (Hall a Hin). lia.
Qed.

(** X22. The popup lists the pages newest first and the eviction deletes
    them oldest first: when no two pages carry the same time stamp, the
    list of the popup is the eviction order read backwards, so the eviction
    removes pages from the bottom of the list. *)
Theorem popup_lists_in_reverse_eviction_order pages :
  (forall a b, a ∈ JsMap.keys pages -> b ∈ JsMap.keys pages ->
               age pages a = age pages b -> a = b) ->
  Popup.render_keys pages = rev (eviction_order pages).
Proof.
  intros Hdistinct. unfold Popup.render_keys.
  pose proof (sort_by_perm (age pages) (JsMap.keys pages)) as Hperm.
  fold (eviction_order pages) in Hperm.
  apply (StronglySorted_unique_strong (fun a b => (- age pages a <= - age pages b)%Z)).
  - intros a b Ha Hb Hab Hba. rewrite sort_by_perm in Ha.
    rewrite <- Permutation_rev, Hperm in Hb. apply Hdistinct; [done|done|lia].
  - apply (sort_by_sorted (fun k => (- age pages k)%Z)).
  - apply sorted_rev, sort_by_sorted.
  - by rewrite sort_by_perm, <- Permutation_rev, Hperm.
Qed.

(** ** From an edit to the restored page *)

(** A trusted edit of a trackable control outside a restore stages the
    record of the control and arms the save timer. *)
Lemma onEdit_stages el n w :
  restoring w = false -> node (doc w) el = Some n -> isUsableControl n = true ->
  onEdit true el w
  = (Ok tt,
     with_saveTimer true
       (with_changedMap
          (JsMap.set (stableKey (Some (getStableId (doc w) el n)))
             {| item_id := Some (getStableId (doc w) el n);
                item_tag := tagName n;
                item_type := Js.or_null (getAttribute n "type");
                item_value := readControlValue n;
                item_fingerprint := Some (getFingerprint (doc w) el n) |}
             (changedMap w)) w)).
Proof.
  intros Hr Hn Hu. unfold onEdit. rewrite Hr, Hn, Hu. reflexivity.
Qed.

(** With the usage within the target the eviction does nothing. *)
Lemma cleanupIfNeeded_within quota bytes w :
  faults w = [] ->
  (forall q, quota = Some q -> (0 < q)%Z -> (bytes (storage w) <= target_of q)%Z) ->
  cleanupIfNeeded quota bytes w = (Ok tt, w).
Proof.
  intros Hf Hq. unfold cleanupIfNeeded.
  destruct quota as [q|]; [|done].
  destruct (Z.leb_spec q 0) as [Hle|Hgt]; [done|].
  unfold mbind, M_bind, bind, getBytesUsed.
  rewrite storage_call_nofault by done. simpl.
  destruct (Z.leb_spec (bytes (storage w)) (target_of q)) as [Hin|Hout]; [done|].
  specialize (Hq q eq_refl Hgt). lia.
Qed.

(** One iteration of the restore loop for a record without a name group
    whose stored identity finds a trackable element that takes the value. *)
Lemma restore_entry_direct qs k item pending changed w el m :
  (forall v tag, item_id item <> Some (ByName v tag)) ->
  findElementByStableId qs (doc w) (item_id item) = Some el ->
  node (doc w) el = Some m -> isUsableControl m = true ->
  (tagName m = "INPUT" -> Js.toLowerCase (prop_type m) = "radio" ->
   forall v, stored_radio_value item = Some v -> prop_value m = v) ->
  restore_entry qs k item (pending, changed, w)
  = (JsMap.delete k pending, true,
     dispatchInputChange el
       (with_doc (replace_node el (writeControlValue m (item_value item)) (doc w)) w)).
Proof.
  intros Hid Hfind Hm Hu Hradio.
  assert (Happly : applyToElement (Some el) item w
            = (true, dispatchInputChange el
                 (with_doc (replace_node el (writeControlValue m (item_value item)) (doc w))
                    w))).
  { unfold applyToElement. rewrite Hm, Hu. simpl.
    destruct (String.eqb_spec (tagName m) "INPUT") as [Ht|]; [|done].
    destruct (String.eqb_spec (Js.toLowerCase (prop_type m)) "radio") as [Hty|]; [|done].
    simpl. destruct (stored_radio_value item) as [v|] eqn:Hv; [|done].
    rewrite (Hradio Ht Hty v eq_refl). by rewrite String.eqb_refl. }
  unfold restore_entry.
  destruct (item_id item) as [[v|v tag|v]|] eqn:Hstable;
    [|by destruct (Hid v tag)| |]; cbv zeta; rewrite Hfind, Happly; reflexivity.
Qed.

(** The restore of a page whose record holds one field that its stored
    identity finds. *)
Lemma restore_single_direct qs observe_ok batches w item el m :
  faults w = [] ->
  existing_items w = Some [item] ->
  (forall v tag, item_id item <> Some (ByName v tag)) ->
  findElementByStableId qs (doc w) (item_id item) = Some el ->
  node (doc w) el = Some m -> isUsableControl m = true ->
  (tagName m = "INPUT" -> Js.toLowerCase (prop_type m) = "radio" ->
   forall v, stored_radio_value item = Some v -> prop_value m = v) ->
  restoreCurrentPage qs observe_ok batches w
  = (Ok settled,
     with_restoring false
       (dispatchInputChange el
          (with_doc (replace_node el (writeControlValue m (item_value item)) (doc w))
             (with_restoring true w)))).
Proof.
  intros Hf Hdata Hid Hfind Hm Hu Hradio.
  unfold restoreCurrentPage, mbind, M_bind, bind, gets, loadAllPages.
  rewrite storage_call_nofault by done.
  cbn [fst snd]. unfold existing_items, mbind in Hdata. rewrite Hdata.
  unfold modify, finally, restoreWithRetries.
  change (JsMap.set_all (map (fun item => (stableKey (item_id item), item)) [item]) [])
    with [(stableKey (item_id item), item)].
  unfold tryRestoreItems. cbn [fold_left fst snd].
  rewrite (restore_entry_direct qs _ item _ false (with_restoring true w) el m)
    by done.
  unfold JsMap.delete. rewrite filter_cons. simpl. rewrite String.eqb_refl. simpl.
  reflexivity.
Qed.

Lemma prop_type_radio_input_type n :
  Js.toLowerCase (prop_type n) = "radio" -> input_type n = "radio".
Proof.
  unfold input_type, prop_type, Js.or_else, Js.nullish.
  destruct (getAttribute n "type") as [s|]; [|discriminate].
  destruct (Js.truthy s) eqn:Hs.
  - destruct (existsb _ _); [|discriminate]. by rewrite toLowerCase_idem.
  - apply negb_false_iff, String.eqb_eq in Hs as ->. discriminate.
Qed.

(** X23. End to end.  The user edits a trackable control that has an id, on
    a page without a record; the flush succeeds and the eviction has nothing
    to delete.  When the page is loaded again with a fresh copy of the
    control under the same id, a restore settles at once, the control reads
    back the value it had at the edit and it receives one input and one
    change event.  Unless the control is a radio that was checked at the
    edit, no other element is touched; checking a radio makes the browser
    uncheck the other radios of its group, which this development leaves
    out. *)
Theorem edit_then_restore_reads_back quota bytes qs observe_ok batches w el n w3 el' n' :
  faults w = [] -> restoring w = false -> changedMap w = [] ->
  existing_items w = None ->
  node (doc w) el = Some n -> isUsableControl n = true ->
  Js.truthy (prop_id n) = true ->
  (forall q, quota = Some q -> (0 < q)%Z ->
     (bytes (Some (flushed_pages (snd (onEdit true el w)))) <= target_of q)%Z) ->
  let w1 := snd (onEdit true el w) in
  let w2 := snd (saveCurrentPage quota bytes w1) in
  faults w3 = [] -> storage w3 = storage w2 ->
  pageKey (doc w3) = pageKey (doc w) ->
  getElementById (doc w3) (prop_id n) = Some el' -> node (doc w3) el' = Some n' ->
  fresh_copy n' n ->
  (tagName n = "SELECT" -> multiple n = false -> selection_roundtrips (options n)) ->
  let res := restoreCurrentPage qs observe_ok batches w3 in
  fst res = Ok settled
  /\ (node (doc (snd res)) el' ≫= readControlValue) = readControlValue n
  /\ dispatched (snd res) = dispatched w3 ++ [(el', "input"); (el', "change")]
  /\ ((tagName n = "INPUT" -> input_type n = "radio" -> checked n = false) ->
      forall r, r <> el' -> node (doc (snd res)) r = node (doc w3) r).
Proof.
  intros Hf Hr Hcm Hex Hn Hu Hid Hquota w1 w2 Hf3 Hst3 Hkey Hfind Hn' Hcopy Hsel res.
  set (item := {| item_id := Some (ById (prop_id n));
                  item_tag := tagName n;
                  item_type := Js.or_null (getAttribute n "type");
                  item_value := readControlValue n;
                  item_fingerprint := Some (getFingerprint (doc w) el n) |}).
  assert (Hw1 : w1 = with_saveTimer true
                       (with_changedMap [(stableKey (Some (ById (prop_id n))), item)] w)).
  { unfold w1. rewrite (onEdit_stages el n w) by done. simpl.
    unfold getStableId. rewrite Hid, Hcm. reflexivity. }
  assert (Hw2 : storage w2 = Some (flushed_pages w1)).
  { unfold w2. rewrite saveCurrentPage_nofault; [| by rewrite Hw1 | by rewrite Hw1].
    rewrite cleanupIfNeeded_within; [done|by rewrite Hw1|].
    intros q Hq Hpos. exact (Hquota q Hq Hpos). }
  assert (Hitems : existing_items w3 = Some [item]).
  { unfold existing_items. rewrite Hst3, Hw2, Hkey. simpl.
    unfold flushed_pages.
    replace (pageKey (doc w1)) with (pageKey (doc w)) by (by rewrite Hw1).
    rewrite jsmap_get_set, String.eqb_refl. simpl.
    replace (existing_items w1) with (existing_items w) by (by rewrite Hw1).
    rewrite Hex, Hw1. reflexivity. }
  assert (Hu' : isUsableControl n' = true).
  { destruct Hcopy as [Hshell _]. by rewrite (same_shell_usable n n' Hshell). }
  assert (Hrun : restoreCurrentPage qs observe_ok batches w3
            = (Ok settled,
               with_restoring false
                 (dispatchInputChange el'
                    (with_doc (replace_node el' (writeControlValue n' (item_value item))
                                 (doc w3))
                       (with_restoring true w3))))).
  { apply restore_single_direct; try done.
    intros Ht Hty v. destruct Hcopy as [(Ht' & Ha & _) Hradio].
    assert (Hity : input_type n = "radio").
    { apply prop_type_radio_input_type in Hty. revert Hty.
      unfold input_type, getAttribute. by rewrite Ha. }
    unfold stored_radio_value. simpl. unfold readControlValue.
    rewrite <- Ht', Ht, Hity. simpl. intros [= <-].
    unfold prop_value. rewrite Ht. simpl. apply Hradio; [by rewrite <- Ht'|done]. }
  unfold res. rewrite Hrun. simpl. split; [done|]. split; [|split; [done|]].
  - unfold node, replace_node. simpl.
    rewrite list_lookup_insert_eq by (by apply lookup_lt_Some with n').
    simpl. by apply write_read_fresh_copy.
  - intros _ r Hne. unfold node, replace_node. simpl.
    by rewrite list_lookup_insert_ne.
Qed.

(** ** Identities and fingerprints do not depend on what a restore writes *)

(** Two lists of elements with the same shells, position by position. *)
Lemma shell_lookup l l' r :
  Forall2 same_shell l l' ->
  match l !! r, l' !! r with
  | Some n, Some n' => same_shell n n'
  | None, None => True
  | _, _ => False
  end.
Proof.
  intros H. revert r. induction H as [|n n' l l' Hn Hl IH]; intros [|r]; simpl; try done.
  apply IH.
Qed.

Lemma shell_select_from (p : Node -> bool) l l' i :
  (forall n n', same_shell n n' -> p n' = p n) ->
  Forall2 same_shell l l' -> select_from i p l' = select_from i p l.
Proof.
  intros Hp H. revert i. induction H as [|n n' l l' Hn Hl IH]; intros i; simpl; [done|].
  rewrite (Hp n n' Hn). by rewrite IH.
Qed.

Section Shell.

Variables d d' : Document.
Hypothesis Hbody : body d' = body d.
Hypothesis Hroot : documentElement d' = documentElement d.
Hypothesis Hloc : location d' = location d.
Hypothesis Hshells : Forall2 same_shell (nodes d) (nodes d').

Lemma shell_node r :
  match node d r, node d' r with
  | Some n, Some n' => same_shell n n'
  | None, None => True
  | _, _ => False
  end.
Proof using Hshells.
  unfold node. by apply shell_lookup.
Qed.

Lemma shell_select (p : Node -> bool) :
  (forall n n', same_shell n n' -> p n' = p n) ->
  querySelectorAll p d' = querySelectorAll p d.
Proof using Hshells.
  intros Hp. unfold querySelectorAll. by apply shell_select_from.
Qed.

Lemma shell_attr n n' a : same_shell n n' -> getAttribute n' a = getAttribute n a.
Proof. intros (_ & Ha & _). unfold getAttribute. by rewrite Ha. Qed.

Lemma shell_getElementById id : getElementById d' id = getElementById d id.
Proof using Hshells.
  unfold getElementById, querySelector. destruct (Js.truthy id); [|done].
  rewrite shell_select; [done|]. intros n n' Hs. by rewrite (shell_attr n n' "id" Hs).
Qed.

Lemma shell_innerText_of r : innerText_of d' r = innerText_of d r.
Proof using Hshells.
  destruct r as [r|]; [|done]. simpl. pose proof (shell_node r) as Hr.
  destruct (node d r) as [n|], (node d' r) as [n'|]; try done.
  destruct Hr as (_ & _ & _ & _ & Ht & _). by rewrite Ht.
Qed.

Lemma shell_closest_label fuel cur : closest_label fuel d' cur = closest_label fuel d cur.
Proof using Hshells.
  revert cur. induction fuel as [|fuel IH]; intros cur; simpl; [done|].
  pose proof (shell_node cur) as Hr.
  destruct (node d cur) as [n|], (node d' cur) as [n'|]; try done.
  destruct Hr as (Ht & _ & Hp & _). rewrite Ht, Hp.
  destruct (String.eqb (tagName n) "LABEL"); [done|].
  destruct (parentElement n); [apply IH|done].
Qed.

Lemma shell_cssPath_loop fuel cur parts :
  cssPath_loop fuel d' cur parts = cssPath_loop fuel d cur parts.
Proof using Hbody Hroot Hshells.
  revert cur parts. induction fuel as [|fuel IH]; intros cur parts; simpl; [done|].
  pose proof (shell_node cur) as Hr.
  destruct (node d cur) as [n|], (node d' cur) as [n'|]; try done.
  destruct Hr as (Ht & _ & Hp & _). rewrite Hbody, Hroot, Ht, Hp.
  destruct (_ || _); [done|]. destruct (parentElement n) as [parent|]; [|done].
  unfold same_tag_children. rewrite shell_select; [apply IH|].
  intros c c' (Hct & _ & Hcp & _). by rewrite Hct, Hcp.
Qed.

Lemma shell_getLabelText el : getLabelText d' el = getLabelText d el.
Proof using Hshells.
  unfold getLabelText. pose proof (shell_node el) as Hr.
  destruct (node d el) as [n|], (node d' el) as [n'|]; try done.
  assert (Hid : prop_id n' = prop_id n).
  { unfold prop_id. by rewrite (shell_attr n n' "id" Hr). }
  assert (Hfor : label_for d' (prop_id n) = label_for d (prop_id n)).
  { unfold label_for, querySelector. rewrite shell_select; [done|].
    intros c c' Hc. rewrite (shell_attr c c' "for" Hc).
    destruct Hc as (-> & _). done. }
  rewrite Hid, Hfor, shell_innerText_of.
  rewrite <- (Forall2_length _ _ _ Hshells), shell_closest_label, shell_innerText_of.
  rewrite (shell_attr n n' "aria-labelledby" Hr).
  assert (Htexts : forall ids : list string,
            omap (fun id => innerText_of d' (getElementById d' id)) ids
            = omap (fun id => innerText_of d (getElementById d id)) ids).
  { intros ids. induction ids as [|id ids IH]; simpl; [done|].
    rewrite shell_getElementById, shell_innerText_of.
    destruct (innerText_of d (getElementById d id)); [f_equal|]; exact IH. }
  by rewrite Htexts.
Qed.

Lemma shell_formAction_of n n' :
  same_shell n n' -> formAction_of d' n' = formAction_of d n.
Proof using Hloc Hshells.
  intros (_ & _ & _ & Hf & _). unfold formAction_of. rewrite Hf, Hloc.
  destruct (form n) as [f|]; [|done]. pose proof (shell_node f) as Hr.
  destruct (node d f) as [fn|], (node d' f) as [fn'|]; try done.
  by rewrite (shell_attr fn fn' "action" Hr).
Qed.

Lemma shell_getStableId el n n' :
  same_shell n n' -> getStableId d' el n' = getStableId d el n.
Proof using Hbody Hroot Hshells.
  intros Hs. unfold getStableId, prop_id, prop_name, cssPath.
  rewrite !(shell_attr n n' _ Hs), shell_cssPath_loop.
  rewrite <- (Forall2_length _ _ _ Hshells).
  destruct Hs as (-> & _). done.
Qed.

Lemma shell_getFingerprint el n n' :
  same_shell n n' -> getFingerprint d' el n' = getFingerprint d el n.
Proof using Hloc Hshells.
  intros Hs. unfold getFingerprint, testid_of.
  rewrite !(shell_attr n n' _ Hs), shell_getLabelText, (shell_formAction_of n n' Hs).
  destruct Hs as (-> & _). done.
Qed.

End Shell.

Lemma restore_frame_shells w w' :
  restore_frame w w' -> Forall2 same_shell (nodes (doc w)) (nodes (doc w')).
Proof.
  intros (_ & _ & _ & _ & _ & _ & _ & _ & _ & _ & Hlen & Hnodes & _).
  apply Forall2_same_length_lookup_2; [done|]. intros i x y Hx Hy.
  destruct (Hnodes i x Hx) as (n' & Hn' & Hs & _).
  unfold node in Hn'. rewrite Hy in Hn'. by injection Hn' as ->.
Qed.

(** X24. A pass of [tryRestoreItems] changes no identity and no fingerprint:
    every element of the page is still there, is trackable if and only if
    it was, and [getStableId] and [getFingerprint] give for it what they
    gave before the pass, so a later edit is staged under the same key. *)
Theorem restore_pass_keeps_identities qs pending w el n :
  node (doc w) el = Some n ->
  let w' := snd (tryRestoreItems qs pending w) in
  exists n', node (doc w') el = Some n'
    /\ isUsableControl n' = isUsableControl n
    /\ getStableId (doc w') el n' = getStableId (doc w) el n
    /\ getFingerprint (doc w') el n' = getFingerprint (doc w) el n.
Proof.
  intros Hn w'.
  assert (Hframe : restore_frame w w') by apply tryRestore_fold.
  pose proof (restore_frame_shells w w' Hframe) as Hshells.
  destruct Hframe as (_ & _ & _ & _ & _ & _ & _ & Hbody & Hroot & Hloc & _ & Hnodes & _).
  destruct (Hnodes el n Hn) as (n' & Hn' & Hs & _).
  exists n'. split; [done|]. split; [by apply same_shell_usable|]. split.
  - by apply shell_getStableId.
  - by apply shell_getFingerprint.
Qed.

(** ** The further properties on the sample page *)

(** The selection of the plan select comes back in its reloaded copy. *)
Lemma restore_plan_into_reloaded_select :
  readControlValue (writeControlValue plan_select_reloaded (readControlValue plan_select))
  = readControlValue plan_select.
Proof.
  apply (restore_reads_back_saved_value plan_select_reloaded plan_select).
  - split; [by repeat split|discriminate].
  - intros _ _. unfold selection_roundtrips. simpl. split.
    + intros [|j] p Hp Hj; [|lia]. injection Hp as <-. discriminate.
    + intros [|[|j]] p Hp Hj; [lia|lia|discriminate].
Defined.

(** The e-mail field scores 13 against its own fingerprint: tag, subtype,
    form action and placeholder. *)
Lemma email_own_fingerprint_score :
  scoreMatch sample_page (getFingerprint sample_page 4 email_input) 4
  = 6 + weight (Js.truthy (formAction_of sample_page email_input)) 2
    + weight (Js.truthy (Js.or_else (getAttribute email_input "name") "")) 10
    + weight (Js.truthy (testid_of email_input)) 12
    + weight (Js.truthy (Js.or_else (getAttribute email_input "placeholder") "")) 5
    + weight (Js.truthy (Js.or_else (getAttribute email_input "autocomplete") "")) 3
    + weight (Js.truthy (Js.or_else (getAttribute email_input "aria-label") "")) 6
    + weight (Js.truthy (getLabelText sample_page 4)
              && String.eqb (getLabelText sample_page 4)
                   (Js.trimEnd (getLabelText sample_page 4))) 10
  /\ (String.length (getLabelText sample_page 4) < 160 ->
      String.eqb (getLabelText sample_page 4)
        (Js.trimEnd (getLabelText sample_page 4)) = true).
Proof.
  apply (own_fingerprint_score sample_page 4 email_input). reflexivity.
Defined.

(** A fingerprint with an autocomplete hint alone finds nothing on the sample
    page. *)
Lemma autocomplete_fingerprint_on_sample_page :
  (forall el, scoreMatch sample_page autocomplete_fp el <= 11)
  /\ findBestByFingerprint sample_page (Some autocomplete_fp) = None.
Proof.
  apply (fingerprint_needs_strong_attribute sample_page autocomplete_fp); reflexivity.
Defined.

(** The e-mail field is the one best match of its fingerprint. *)
Lemma email_fingerprint_unique_best :
  findBestByFingerprint sample_page (Some email_fp_13) = Some 4.
Proof.
  apply (findBestByFingerprint_unique_best sample_page email_fp_13 4 email_input).
  - reflexivity.
  - reflexivity.
  - vm_compute. lia.
  - intros c Hc Hne. vm_compute in Hc.
    repeat (apply elem_of_cons in Hc as [->|Hc]; [try done; vm_compute; lia|]).
    by apply elem_of_nil in Hc.
Defined.

(** The identity of the e-mail field leads back to it. *)
Lemma email_identity_leads_back :
  (Js.truthy (prop_id email_input) = true ->
   findElementByStableId no_text_selector sample_page
     (Some (getStableId sample_page 4 email_input)) = Some 4
   <-> forall j m, node sample_page j = Some m ->
                   getAttribute m "id" = getAttribute email_input "id" -> 4 <= j)
  /\ (Js.truthy (prop_id email_input) = false ->
      Js.truthy (prop_name email_input) = true ->
      findElementByStableId no_text_selector sample_page
        (Some (getStableId sample_page 4 email_input)) = Some 4
      <-> forall j m, node sample_page j = Some m ->
                      Js.toLowerCase (tagName m) = Js.toLowerCase (tagName email_input) ->
                      getAttribute m "name" = getAttribute email_input "name" -> 4 <= j).
Proof.
  apply (findElementByStableId_leads_back no_text_selector sample_page 4 email_input).
  reflexivity.
Defined.

(** The first edit of the e-mail field leaves a well-formed staging map. *)
Lemma first_edit_staging_well_formed :
  well_staged (changedMap (snd (onEdit true 4 (fresh_world edited_page None))))
  /\ NoDup (JsMap.keys (changedMap (snd (onEdit true 4 (fresh_world edited_page None))))).
Proof.
  apply (onEdit_keeps_staging_well_formed true 4 (fresh_world edited_page None)).
  - intros k v Hin. by apply elem_of_nil in Hin.
  - apply NoDup_nil_2.
Defined.

(** The flush of the typed address persists one field under its own key. *)
Lemma typed_address_persisted_under_its_key :
  let items := JsMap.values (merge_items None (changedMap typed_world)) in
  NoDup (map (fun item => stableKey (item_id item)) items)
  /\ (forall item, item ∈ items ->
        JsMap.get (stableKey (item_id item)) (merge_items None (changedMap typed_world))
        = Some item)
  /\ JsMap.set_all (keyed_items items) [] = keyed_items items.
Proof.
  apply (flush_persists_distinct_keys None (changedMap typed_world)).
  intros k v Hin. vm_compute in Hin.
  apply list_elem_of_singleton in Hin. injection Hin as -> ->.
  repeat split; discriminate || reflexivity.
Defined.

(** The eviction interrupted by a failing storage call has deleted the older
    page and nothing else. *)
Lemma interrupted_eviction_only_deletes :
  let pages := default [] (storage failing_world) in
  let order := eviction_order pages in
  exists n, n <= length order
    /\ storage (snd (cleanupIfNeeded (Some 1000%Z) bytes_475_per_page failing_world))
       = storage (evicted n order pages failing_world)
    /\ forall k,
         JsMap.get k (default [] (storage (snd (cleanupIfNeeded (Some 1000%Z)
                                                  bytes_475_per_page failing_world))))
         = if bool_decide (k ∈ take n order) then None else JsMap.get k pages.
Proof.
  apply (cleanupIfNeeded_only_deletes (Some 1000%Z) bytes_475_per_page failing_world
           Throw).
  reflexivity.
Defined.

(** A flush on top of the two-page store puts the current page last in the
    eviction order. *)
Lemma flushed_sample_page_is_evicted_last :
  last (eviction_order (flushed_pages (fresh_world sample_page (Some two_pages))))
  = Some (pageKey (doc (fresh_world sample_page (Some two_pages)))).
Proof.
  apply (flushed_page_is_evicted_last (fresh_world sample_page (Some two_pages))).
  intros k Hk _. vm_compute in Hk.
  repeat (apply elem_of_cons in Hk as [->|Hk]; [reflexivity|]).
  by apply elem_of_nil in Hk.
Defined.

(** The line of a stored comparison shows the escaped text, not the text. *)
Lemma comparison_line_escaped_twice :
  let target := Popup.summary_target (item_id comparison_item) in
  Popup.field_line comparison_item
  = Popup.escapeHtml target +:+ "  =&gt;  " +:+ shape (VInput (Some "a<b")) +:+ ": "
      +:+ Popup.escapeHtml (Popup.escapeHtml "a<b")
  /\ (Popup.field_line comparison_item
      = Popup.escapeHtml (target +:+ "  =>  " +:+ shape (VInput (Some "a<b"))
                            +:+ ": " +:+ "a<b")
      <-> string_all (fun c => negb (is_special c)) "a<b" = true).
Proof.
  apply (field_line_escapes_twice comparison_item (VInput (Some "a<b")) "a<b").
  - reflexivity.
  - left. reflexivity.
Defined.

(** The popup lists the two stored pages newest first, the reverse of the
    eviction order. *)
Lemma two_pages_listed_newest_first :
  Popup.render_keys two_pages = rev (eviction_order two_pages).
Proof.
  apply (popup_lists_in_reverse_eviction_order two_pages).
  intros a b Ha Hb. vm_compute in Ha, Hb.
  repeat (apply elem_of_cons in Ha as [->|Ha]);
    repeat (apply elem_of_cons in Hb as [->|Hb]);
    try (by apply elem_of_nil in Ha); try (by apply elem_of_nil in Hb);
    try reflexivity; discriminate.
Defined.

(** The address typed into the e-mail field is back after a reload. *)
Lemma typed_address_is_back_after_reload :
  let saved := snd (saveCurrentPage (Some 1000%Z) bytes_475_per_page typed_world) in
  let reloaded := fresh_world sample_page (storage saved) in
  let res := restoreCurrentPage no_text_selector true [] reloaded in
  fst res = Ok settled
  /\ (node (doc (snd res)) 4 ≫= readControlValue)
     = readControlValue (set_value "a@b.com" email_input)
  /\ dispatched (snd res) = dispatched reloaded ++ [(4, "input"); (4, "change")]
  /\ ((tagName (set_value "a@b.com" email_input) = "INPUT" ->
       input_type (set_value "a@b.com" email_input) = "radio" ->
       checked (set_value "a@b.com" email_input) = false) ->
      forall r, r <> 4 -> node (doc (snd res)) r = node (doc reloaded) r).
Proof.
  apply (edit_then_restore_reads_back (Some 1000%Z) bytes_475_per_page no_text_selector
           true [] (fresh_world edited_page None) 4 (set_value "a@b.com" email_input)
           (fresh_world sample_page
              (storage (snd (saveCurrentPage (Some 1000%Z) bytes_475_per_page
                               typed_world))))
           4 email_input); try reflexivity.
  - intros q [= <-] _. vm_compute. discriminate.
  - split; [by repeat split|discriminate].
  - discriminate.
Defined.

(** The radio that a restore checks keeps its identity and fingerprint. *)
Lemma restored_radio_keeps_identity :
  let w := fresh_world sample_page None in
  let w' := snd (tryRestoreItems no_text_selector
                   [(stableKey (item_id pro_choice), pro_choice)] w) in
  exists n', node (doc w') 6 = Some n'
    /\ isUsableControl n' = isUsableControl radio_pro
    /\ getStableId (doc w') 6 n' = getStableId (doc w) 6 radio_pro
    /\ getFingerprint (doc w') 6 n' = getFingerprint (doc w) 6 radio_pro.
Proof.
  apply (restore_pass_keeps_identities no_text_selector
           [(stableKey (item_id pro_choice), pro_choice)]
           (fresh_world sample_page None) 6 radio_pro).
  reflexivity.
Defined.
